(** * relayd: a shallow embedding of the supervisor, the CA engine and the
      key-value utilities of [usr.sbin/relayd] (ca.c and relayd.c)

    The first part of the file holds the model, one section per group of
    functions of the C sources; the second part holds the properties. *)

From Stdlib Require Import ZArith List String Ascii Bool Lia Sorted.
From stdpp Require Import base option list gmap.
Import ListNotations.

#[local] Open Scope Z_scope.

(* ===================================================================== *)
(** * Part I: the model                                                   *)
(* ===================================================================== *)

(** ** C strings

    A C string is the list of its characters up to, and without, the
    terminating NUL.  [c_str] reads a string out of a byte buffer the way
    [strlen] and friends do. *)

Abbreviation cstring := (list ascii).

Definition NUL : ascii := Ascii.zero.

Definition is_nul (c : ascii) : bool := Ascii.eqb c NUL.

Fixpoint c_str (buf : list ascii) : cstring :=
  match buf with
  | [] => []
  | c :: buf' => if is_nul c then [] else c :: c_str buf'
  end.

Definition lit (s : string) : cstring := list_ascii_of_string s.

(** [tolower(3)] in the C locale: only 'A'..'Z' are mapped. *)
Definition isupper (c : ascii) : bool :=
  let n := nat_of_ascii c in (65 <=? n)%nat && (n <=? 90)%nat.

Definition tolower (c : ascii) : ascii :=
  if isupper c then ascii_of_nat (nat_of_ascii c + 32) else c.

Definition is_dot (c : ascii) : bool := Ascii.eqb c "."%char.

(** [strchr(s, c) != NULL] for a non-NUL [c]. *)
Definition strchr (s : cstring) (c : ascii) : bool :=
  existsb (Ascii.eqb c) s.

(** [strpbrk(s, accept) != NULL]. *)
Definition strpbrk (s accept : cstring) : bool :=
  existsb (fun c => existsb (Ascii.eqb c) accept) s.

(** ** canonicalize_host (relayd.c) *)

Inductive address_family := AF_INET | AF_INET6.

Inductive canon_result :=
| CanonEINVAL                          (* label fail: errno = EINVAL, NULL *)
| CanonAddress (r : option cstring)    (* whatever inet_ntop returned *)
| CanonName (name : list ascii).       (* the caller's buffer, returned *)

(** name[i], reading NUL outside the buffer (never done by the code). *)
Definition buf_get (name : list ascii) (i : nat) : ascii :=
  default NUL (name !! i).

(** Step 1: "remove repeated dots and convert upper case to lower case".
    The loop variable [i] walks over the characters of [host]; [j] is the
    write position in [name].  [None] is [goto fail].  The counters are
    [u_int]: the traversal is the C loop for hosts shorter than 2^32
    characters. *)
Fixpoint canon_step1 (host : cstring) (name : list ascii) (j len : nat)
  : option (list ascii * nat) :=
  match host with
  | [] => Some (name, j)
  | h :: rest =>
      if (len - 1 <=? j)%nat then None
      else
        let c := tolower h in
        if is_dot c && ((j =? 0)%nat || is_dot (buf_get name (j - 1)))
        then canon_step1 rest name j len
        else canon_step1 rest (<[j := c]> name) (S j) len
  end.

(** Step 2: "remove trailing dots"; [i] counts down from [j]. *)
Fixpoint canon_step2 (i : nat) (name : list ascii) (j : nat)
  : list ascii * nat :=
  match i with
  | O => (name, j)
  | S i' =>
      if is_dot (buf_get name i') then canon_step2 i' (<[i' := NUL]> name) (j - 1)%nat
      else (name, j)
  end.

Section CanonicalizeHost.

(** [inet_pton] and [inet_ntop] belong to libc; [Some] stands for the
    return value 1 of [inet_pton]. *)
Variable sockaddr : Type.
Variable inet_pton : address_family -> cstring -> option sockaddr.
Variable inet_ntop : address_family -> sockaddr -> nat -> option cstring.

Definition canonicalize_host (host : list ascii) (len : nat) : canon_result :=
  if (len <? 2)%nat then CanonEINVAL
  else
    match inet_pton AF_INET (c_str host) with
    | Some sin4 => CanonAddress (inet_ntop AF_INET sin4 len)
    | None =>
    match inet_pton AF_INET6 (c_str host) with
    | Some sin6 => CanonAddress (inet_ntop AF_INET6 sin6 len)
    | None =>
        (* plen = strlen(host); bzero(name, len) *)
        match canon_step1 (c_str host) (replicate len NUL) 0 len with
        | None => CanonEINVAL
        | Some (name, j) =>
            let '(name, j) := canon_step2 j name j in
            if (j <=? 0)%nat then CanonEINVAL else CanonName name
        end
    end
    end.

End CanonicalizeHost.

(** The canonical form of a host name in the words of the specification:
    lower case, no empty label, no trailing dot. *)
Fixpoint spec_collapse_dots (prev_dot : bool) (s : cstring) : cstring :=
  match s with
  | [] => []
  | c :: s' =>
      if is_dot c then
        if prev_dot then spec_collapse_dots true s'
        else c :: spec_collapse_dots true s'
      else c :: spec_collapse_dots false s'
  end.

Fixpoint spec_strip_trailing_dots (s : cstring) : cstring :=
  match s with
  | [] => []
  | c :: s' =>
      match spec_strip_trailing_dots s' with
      | [] => if is_dot c then [] else [c]
      | r => c :: r
      end
  end.

Definition spec_canonical_form (host : cstring) : cstring :=
  spec_strip_trailing_dots (spec_collapse_dots true (map tolower host)).

(** The last character written, as the code reads it: [true] when nothing
    was written yet. *)
Definition ends_dot (out : cstring) : bool :=
  match last out with
  | Some c => is_dot c
  | None => true
  end.

(** A name has an empty label when it starts with a dot or holds two dots
    in a row. *)
Definition no_empty_label (s : cstring) : Prop :=
  s !! 0%nat <> Some "."%char /\
  forall i : nat, s !! i = Some "."%char -> s !! S i <> Some "."%char.

Definition no_upper_case (s : cstring) : Prop :=
  Forall (fun c => isupper c = false) s.

(** ** Constants and enumerations of relayd.h

    relayd.h is not part of the sources at hand: the flag bits and the
    enumeration values it declares are parameters of the model.  Flag
    words are bit sets over [Z]; their C widths are declared in the
    header. *)
Class relayd_h := {
  F_BACKUP : Z;
  F_USED : Z;
  F_SSL : Z;
  F_NEEDPF : Z;
  F_SSLCLIENT : Z;
  F_SSLINSPECT : Z;
  KV_FLAG_MACRO : Z;
  KV_FLAG_GLOBBING : Z;
  KEY_TYPE_PATH : nat;
  KEY_TYPE_QUERY : nat;
  KEY_TYPE_URL : nat;
  KEY_OPTION_LOG : nat;
  CONFIG_RELOAD : Z;
  CONFIG_TABLES : Z;
  CONFIG_RDRS : Z;
  CONFIG_RELAYS : Z;
  CONFIG_PROTOS : Z;
  CONFIG_ALL : Z;
}.

(** The values OpenBSD's relayd.h gives them, used to run the model on
    concrete inputs. *)
Definition relayd_h_values : relayd_h := {|
  F_BACKUP := 0x2;
  F_USED := 0x4;
  F_SSL := 0x800;
  F_NEEDPF := 0x80000;
  F_SSLCLIENT := 0x200000;
  F_SSLINSPECT := 0x4000000;
  KV_FLAG_MACRO := 0x1;
  KV_FLAG_GLOBBING := 0x4;
  KEY_TYPE_PATH := 3;
  KEY_TYPE_QUERY := 4;
  KEY_TYPE_URL := 5;
  KEY_OPTION_LOG := 5;
  CONFIG_RELOAD := 0x0;
  CONFIG_TABLES := 0x1;
  CONFIG_RDRS := 0x2;
  CONFIG_RELAYS := 0x4;
  CONFIG_PROTOS := 0x8;
  CONFIG_ALL := 0xff;
|}.

(** [(word & mask) != 0] *)
Definition flag_test (word mask : Z) : bool := negb (Z.land word mask =? 0).

(** ** Key-value records and trees (relayd.c) *)

Inductive direction :=
| RELAY_DIR_INVALID | RELAY_DIR_ANY | RELAY_DIR_REQUEST | RELAY_DIR_RESPONSE.

(** [struct kv], with the members the functions below read or write.  A
    [char *] member is [None] for NULL and else the bytes it points to,
    read as a C string. *)
Record kv := {
  kv_key : option (list ascii);
  kv_value : option (list ascii);
  kv_type : nat;
  kv_option : nat;
  kv_flags : Z;
}.

(** The value of an [unsigned char]. *)
Definition uchar (c : ascii) : Z := Z.of_nat (nat_of_ascii c).

(** [strcasecmp(3)] on C strings: the difference of the first lowered
    characters that differ, the end of a string counting as NUL. *)
Fixpoint strcasecmp_from (a b : cstring) : Z :=
  match a, b with
  | [], [] => 0
  | [], d :: _ => 0 - uchar (tolower d)
  | c :: _, [] => uchar (tolower c)
  | c :: a', d :: b' =>
      if Ascii.eqb (tolower c) (tolower d) then strcasecmp_from a' b'
      else uchar (tolower c) - uchar (tolower d)
  end.

Definition strcasecmp (a b : list ascii) : Z :=
  strcasecmp_from (c_str a) (c_str b).

(** [kv_cmp]; [None] when a key pointer is NULL, which [strcasecmp]
    dereferences. *)
Definition kv_cmp (a b : kv) : option Z :=
  match kv_key a, kv_key b with
  | Some ka, Some kb => Some (strcasecmp ka kb)
  | _, _ => None
  end.

(** The tree generated by [RB_GENERATE(kvtree, kv, kv_node, kv_cmp)]. *)
Inductive rb_color := RB_BLACK | RB_RED.

Inductive kvtree :=
| RB_NIL
| RB_NODE (color : rb_color) (left : kvtree) (elm : kv) (right : kvtree).

(** [RB_FIND]: descent by the sign of the comparison.  The outer [None]
    is the NULL dereference of [kv_cmp]. *)
Fixpoint RB_FIND (head : kvtree) (elm : kv) : option (option kv) :=
  match head with
  | RB_NIL => Some None
  | RB_NODE _ l tmp r =>
      match kv_cmp elm tmp with
      | None => None
      | Some comp =>
          if comp <? 0 then RB_FIND l elm
          else if 0 <? comp then RB_FIND r elm
          else Some (Some tmp)
      end
  end.

(** The order of [RB_FOREACH]: from [RB_MIN] along [RB_NEXT]. *)
Fixpoint RB_FOREACH (head : kvtree) : list kv :=
  match head with
  | RB_NIL => []
  | RB_NODE _ l e r => RB_FOREACH l ++ e :: RB_FOREACH r
  end.

(** ** fnmatch(3) with flags = FNM_CASEFOLD

    The matcher of the BSD libc, for the one flag [kv_find] passes:
    no special treatment of slashes or leading periods, backslash
    escapes enabled.  [true] stands for the return value 0. *)

Inductive range_result :=
| RANGE_ERROR
| RANGE_NOMATCH
| RANGE_MATCH (newp : cstring).

Definition is_char (c d : ascii) : bool := Ascii.eqb c d.

(** One element of a bracket expression: a character or a range, both
    lowered, behind an optional backslash each; [None] when the pattern
    ends inside the element (RANGE_ERROR). *)
Inductive range_item :=
| RangeChar (c : ascii)
| RangeSpan (c c2 : ascii).

Definition range_unescape (pattern : cstring) : option (ascii * cstring) :=
  match pattern with
  | [] => None
  | c0 :: p1 =>
      if is_char "\" c0 then
        match p1 with
        | [] => None
        | c :: p2 => Some (c, p2)
        end
      else Some (c0, p1)
  end.

Definition range_next (pattern : cstring) : option (range_item * cstring) :=
  match range_unescape pattern with
  | None => None
  | Some (c, p2) =>
      match p2 with
      | d :: e :: p3 =>
          if is_char "-" d && negb (is_char "]" e) then
            match range_unescape (e :: p3) with
            | None => None
            | Some (c2, p4) => Some (RangeSpan (tolower c) (tolower c2), p4)
            end
          else Some (RangeChar (tolower c), p2)
      | _ => Some (RangeChar (tolower c), p2)
      end
  end.

Definition range_item_matches (it : range_item) (test : ascii) : bool :=
  match it with
  | RangeChar c => is_char c test
  | RangeSpan c c2 => (uchar c <=? uchar test) && (uchar test <=? uchar c2)
  end.

(** The loop of [rangematch]; [first] says that [pattern] still is at
    [origpat], [test] is already lowered.  Every round consumes a pattern
    character. *)
Fixpoint rangematch_loop (fuel : nat) (pattern : cstring) (test : ascii)
    (first ok negate : bool) : range_result :=
  match fuel with
  | O => RANGE_ERROR
  | S fuel' =>
      match pattern with
      | [] => RANGE_ERROR
      | c0 :: p1 =>
          if is_char "]" c0 && negb first then
            if Bool.eqb ok negate then RANGE_NOMATCH else RANGE_MATCH p1
          else
            match range_next pattern with
            | None => RANGE_ERROR
            | Some (it, rest) =>
                rangematch_loop fuel' rest test false
                  (ok || range_item_matches it test) negate
            end
      end
  end.

Definition rangematch (pattern : cstring) (test : ascii) : range_result :=
  match pattern with
  | c :: p' =>
      if is_char "!" c || is_char "^" c
      then rangematch_loop (length p') p' (tolower test) true false true
      else rangematch_loop (length pattern) pattern (tolower test) true false false
  | [] => RANGE_ERROR
  end.

Fixpoint skip_stars (pattern : cstring) : cstring :=
  match pattern with
  | c :: p' => if is_char "*" c then skip_stars p' else pattern
  | [] => []
  end.

(** The [while (sc != EOS)] loop of the star case: try the rest of the
    pattern at every suffix of the string. *)
Fixpoint star_loop (rest_matches : cstring -> bool) (str : cstring) : bool :=
  match str with
  | [] => false
  | _ :: str' => rest_matches str || star_loop rest_matches str'
  end.

(** Label [norm]: one character compared, case folded. *)
Definition fnmatch_norm (pc : ascii) (str : cstring)
    (continue : cstring -> bool) : bool :=
  match str with
  | [] => false
  | sc :: str' =>
      if is_char pc sc || is_char (tolower pc) (tolower sc)
      then continue str' else false
  end.

(** [fnmatch1]; every round consumes a pattern character, so that the
    length of the pattern bounds the recursion. *)
Fixpoint fnmatch1 (fuel : nat) (pattern str : cstring) : bool :=
  match fuel with
  | O => false
  | S fuel' =>
      match pattern with
      | [] => match str with [] => true | _ => false end
      | pc :: pattern' =>
          if is_char "?" pc then
            match str with
            | [] => false
            | _ :: str' => fnmatch1 fuel' pattern' str'
            end
          else if is_char "*" pc then
            match skip_stars pattern' with
            | [] => true
            | rest => star_loop (fnmatch1 fuel' rest) str
            end
          else if is_char "[" pc then
            match str with
            | [] => false
            | sc :: str' =>
                match rangematch pattern' sc with
                | RANGE_ERROR => fnmatch_norm pc str (fnmatch1 fuel' pattern')
                | RANGE_MATCH newp => fnmatch1 fuel' newp str'
                | RANGE_NOMATCH => false
                end
            end
          else if is_char "\" pc then
            match pattern' with
            | [] => fnmatch_norm pc str (fnmatch1 fuel' pattern')
            | c :: pattern'' => fnmatch_norm c str (fnmatch1 fuel' pattern'')
            end
          else fnmatch_norm pc str (fnmatch1 fuel' pattern')
      end
  end.

(** [fnmatch(pattern, string, FNM_CASEFOLD) == 0] *)
Definition fnmatch (pattern str : list ascii) : bool :=
  fnmatch1 (S (length (c_str pattern))) (c_str pattern) (c_str str).

(** ** kv_find *)

(** The [RB_FOREACH] loop of [kv_find]: the first record whose key matches
    the pattern; a record with a NULL key faults in [fnmatch]. *)
Fixpoint kv_find_glob (key : list ascii) (records : list kv)
  : option (option kv) :=
  match records with
  | [] => Some None
  | m :: rest =>
      match kv_key m with
      | None => None
      | Some mkey =>
          if fnmatch key mkey then Some (Some m) else kv_find_glob key rest
      end
  end.

Section KvFind.
Context {H : relayd_h}.

Definition kv_find (keys : kvtree) (pat : kv) : option (option kv) :=
  if flag_test (kv_flags pat) KV_FLAG_GLOBBING then
    let key := match kv_key pat with None => [] | Some k => k end in
    kv_find_glob key (RB_FOREACH keys)
  else RB_FIND keys pat.

End KvFind.

(** The keys of a tree are non-NULL and strictly increasing from left to
    right in the order of [kv_cmp]: what [RB_INSERT] maintains. *)
Definition kv_lt (a b : kv) : bool :=
  match kv_cmp a b with
  | Some d => d <? 0
  | None => false
  end.

Fixpoint kvtree_ordered (t : kvtree) : bool :=
  match t with
  | RB_NIL => true
  | RB_NODE _ l e r =>
      kvtree_ordered l && kvtree_ordered r &&
      match kv_key e with Some _ => true | None => false end &&
      forallb (fun x => kv_lt x e) (RB_FOREACH l) &&
      forallb (fun x => kv_lt e x) (RB_FOREACH r)
  end.

(** The glob metacharacters of [rule_add]. *)
Definition glob_chars : cstring := lit "*?[".

Definition no_nul (s : cstring) : Prop := Forall (fun c => is_nul c = false) s.

(** The value [strcasecmp] compares: the lowered character, unsigned. *)
Definition lchar (c : ascii) : Z := uchar (tolower c).

(** Whether a record is the one an exact lookup of [key] is after. *)
Definition key_equal (key : list ascii) (m : kv) : bool :=
  match kv_key m with
  | Some mkey => strcasecmp key mkey =? 0
  | None => false
  end.

(** ** Processes, messages and effects

    The functions of the supervisor and of the CA change the environment
    [struct relayd], write to the log, queue messages for other processes
    and may end the process.  A computation returns the trace of its
    effects and either a value with the new state or the way the process
    ended. *)

(** [enum privsep_procid], in the order of the header; PROC_MAX is the
    length of [all_procs]. *)
Inductive privsep_procid := PROC_PARENT | PROC_HCE | PROC_RELAY | PROC_PFE | PROC_CA.

Definition all_procs : list privsep_procid :=
  [PROC_PARENT; PROC_HCE; PROC_RELAY; PROC_PFE; PROC_CA].

Definition procid_eqb (a b : privsep_procid) : bool :=
  match a, b with
  | PROC_PARENT, PROC_PARENT | PROC_HCE, PROC_HCE | PROC_RELAY, PROC_RELAY
  | PROC_PFE, PROC_PFE | PROC_CA, PROC_CA => true
  | _, _ => false
  end.

Inductive imsg_type :=
| IMSG_CFG_RELAY | IMSG_CFG_DONE
| IMSG_CTL_START | IMSG_CTL_RESET | IMSG_CTL_RELOAD | IMSG_CTL_SHUTDOWN
| IMSG_CA_PRIVENC | IMSG_CA_PRIVDEC
| IMSG_BINDANY | IMSG_SCRIPT
| IMSG_OTHER (n : Z).

Definition imsg_type_eqb (a b : imsg_type) : bool :=
  match a, b with
  | IMSG_CFG_RELAY, IMSG_CFG_RELAY | IMSG_CFG_DONE, IMSG_CFG_DONE
  | IMSG_CTL_START, IMSG_CTL_START | IMSG_CTL_RESET, IMSG_CTL_RESET
  | IMSG_CTL_RELOAD, IMSG_CTL_RELOAD | IMSG_CTL_SHUTDOWN, IMSG_CTL_SHUTDOWN
  | IMSG_CA_PRIVENC, IMSG_CA_PRIVENC | IMSG_CA_PRIVDEC, IMSG_CA_PRIVDEC
  | IMSG_BINDANY, IMSG_BINDANY | IMSG_SCRIPT, IMSG_SCRIPT => true
  | IMSG_OTHER n, IMSG_OTHER m => n =? m
  | _, _ => false
  end.

(** ** Tables and relays *)

(** [struct table_config]: [bcopy] and [bcmp] treat it as bytes.  The
    three members [table_findbyconf] rewrites are named; [conf_bytes] is
    every other byte of the structure, padding included. *)
Record table_config := {
  id : Z;
  rdrid : Z;
  flags : Z;
  conf_bytes : list ascii;
}.

Record table := {
  conf : table_config;
  sendbuf : option (list ascii);
}.

Record rdr := { rdr_id : Z; rdr_name : list ascii }.

(** [struct relay_rule]: the direction, one pattern per key type (the
    array [rule_kv], indexed by [enum key_type]) and the ids of label and
    tags. *)
Record relay_rule := {
  rule_dir : direction;
  rule_kv : list kv;
  rule_label : Z;
  rule_tag : Z;
  rule_tagged : Z;
}.

Record protocol := {
  proto_id : Z;
  proto_name : list ascii;
  rules : list relay_rule;
}.

(** An address of the heap; 0 is NULL. *)
Abbreviation pointer := Z (only parsing).

Definition NULL : pointer := 0.

Record relay_config := {
  rl_id : Z;
  rl_flags : Z;
  ssl_cert_len : Z;
  ssl_key_len : Z;
  ssl_keyid : Z;
  ssl_ca_len : Z;
  ssl_cacert_len : Z;
  ssl_cakey_len : Z;
  ssl_cakeyid : Z;
}.

(** [struct relay]: the configuration, the four PEM buffers and the two
    key handles [ca_launch] stores. *)
Record relay := {
  rl_conf : relay_config;
  rl_ssl_cert : pointer;
  rl_ssl_key : pointer;
  rl_ssl_cacert : pointer;
  rl_ssl_cakey : pointer;
  rl_ssl_pkey : option Z;
  rl_ssl_capkey : option Z;
}.

(** An entry of the list [sc_pkeys]; a key handle (EVP_PKEY pointer) is
    an opaque number. *)
Record ca_pkey := { pkey : Z; pkey_id : Z }.

(** [struct relayd], with the members the functions at hand use. *)
Record relayd := {
  sc_opts : Z;
  sc_flags : Z;
  sc_conffile : list ascii;
  sc_tables : list table;
  sc_rdrs : list rdr;
  sc_protos : list protocol;
  sc_relays : list relay;
  sc_pkeys : option (list ca_pkey);
  sc_prefork_relay : Z;
  sc_reload : Z;
}.

Inductive log_arg := LogInt (n : Z) | LogStr (s : list ascii).

(** [struct ctl_keyop], the header of a key operation. *)
Record ctl_keyop := {
  cko_id : Z;
  cko_proc : Z;
  cko_flen : Z;
  cko_tlen : Z;
  cko_padding : Z;
}.

(** [struct iovec]: what [iov_base] points to and the value of
    [iov_len]. *)
Inductive iov_base :=
| IovKeyop (cko : ctl_keyop)
| IovBytes (b : list Z).

Record iovec := { iov_data : iov_base; iov_len : Z }.

(** A received message.  The payload of a key operation is a
    [struct ctl_keyop] followed by bytes: [imsg_cko] is [None] when the
    payload is shorter than the structure, [imsg_tail] holds the bytes
    behind it. *)
Record imsg := {
  hdr_type : imsg_type;
  imsg_cko : option ctl_keyop;
  imsg_tail : list Z;
}.

(** What a function does to the outside.  Calls into config.c, proc.c
    and control.c, which are not part of the sources at hand, are recorded
    by name with their arguments. *)
Inductive effect :=
| log_debug (fmt : string) (args : list log_arg)
| log_info (fmt : string) (args : list log_arg)
| log_warnx (fmt : string) (args : list log_arg)
| proc_compose_imsg (id : privsep_procid) (n : Z) (type : imsg_type) (fd : Z)
    (data : list Z)
| proc_composev_imsg (id : privsep_procid) (n : Z) (type : imsg_type) (fd : Z)
    (iov : list iovec)
| imsg_composev (type : imsg_type) (fd : Z) (iov : list iovec)
| imsg_flush
| imsg_event_add
| config_settable (tb : table)
| config_setrdr (r : rdr)
| config_setproto (p : protocol)
| config_setrule (p : protocol)
| config_setrelay (rlay : relay)
| config_setreset (reset : Z)
| proc_kill
| control_cleanup
| label_ref (labelid : Z)
| label_unref (labelid : Z)
| tag_ref (tagid : Z)
| tag_unref (tagid : Z).

Inductive outcome (S A : Type) :=
| Ret (a : A) (s : S)
| Exit (code : Z)              (* exit(code) *)
| Fatalx (msg : string)        (* fatalx(msg): logged, then exit(1) *)
| Undefined (what : string).   (* behaviour the C standard leaves open *)

Arguments Ret {S A} a s.
Arguments Exit {S A} code.
Arguments Fatalx {S A} msg.
Arguments Undefined {S A} what.

Definition M (S A : Type) : Type := S -> list effect * outcome S A.

Definition ret {S A} (a : A) : M S A := fun s => ([], Ret a s).

Definition bind {S A B} (m : M S A) (k : A -> M S B) : M S B :=
  fun s =>
    match m s with
    | (t1, Ret a s1) => let '(t2, o) := k a s1 in (t1 ++ t2, o)
    | (t1, Exit code) => (t1, Exit code)
    | (t1, Fatalx msg) => (t1, Fatalx msg)
    | (t1, Undefined what) => (t1, Undefined what)
    end.

Definition get {S} : M S S := fun s => ([], Ret s s).
Definition put {S} (s : S) : M S unit := fun _ => ([], Ret tt s).
Definition emit {S} (e : effect) : M S unit := fun s => ([e], Ret tt s).
Definition exit {S A} (code : Z) : M S A := fun _ => ([], Exit code).
Definition fatalx {S A} (msg : string) : M S A := fun _ => ([], Fatalx msg).
Definition undefined {S A} (what : string) : M S A := fun _ => ([], Undefined what).

Notation "x <- m ;; k" := (bind m (fun x => k))
  (at level 100, m at next level, right associativity).
Notation "m ;; k" := (bind m (fun _ => k))
  (at level 100, right associativity).

(** A [TAILQ_FOREACH] or [for] loop whose body only has effects. *)
Fixpoint foreach {S A} (l : list A) (body : A -> M S unit) : M S unit :=
  match l with
  | [] => ret tt
  | x :: l' => body x ;; foreach l' body
  end.

(** ** The parent process (relayd.c) *)

Definition set_sc_reload (n : Z) (env : relayd) : relayd :=
  {| sc_opts := sc_opts env; sc_flags := sc_flags env;
     sc_conffile := sc_conffile env; sc_tables := sc_tables env;
     sc_rdrs := sc_rdrs env; sc_protos := sc_protos env;
     sc_relays := sc_relays env; sc_pkeys := sc_pkeys env;
     sc_prefork_relay := sc_prefork_relay env; sc_reload := n |}.

Definition set_sc_relays (l : list relay) (env : relayd) : relayd :=
  {| sc_opts := sc_opts env; sc_flags := sc_flags env;
     sc_conffile := sc_conffile env; sc_tables := sc_tables env;
     sc_rdrs := sc_rdrs env; sc_protos := sc_protos env;
     sc_relays := l; sc_pkeys := sc_pkeys env;
     sc_prefork_relay := sc_prefork_relay env; sc_reload := sc_reload env |}.

Definition set_sc_pkeys (l : option (list ca_pkey)) (env : relayd) : relayd :=
  {| sc_opts := sc_opts env; sc_flags := sc_flags env;
     sc_conffile := sc_conffile env; sc_tables := sc_tables env;
     sc_rdrs := sc_rdrs env; sc_protos := sc_protos env;
     sc_relays := sc_relays env; sc_pkeys := l;
     sc_prefork_relay := sc_prefork_relay env; sc_reload := sc_reload env |}.

Definition set_rl_flags (f : Z) (rlay : relay) : relay :=
  let c := rl_conf rlay in
  {| rl_conf :=
       {| rl_id := rl_id c; rl_flags := f; ssl_cert_len := ssl_cert_len c;
          ssl_key_len := ssl_key_len c; ssl_keyid := ssl_keyid c;
          ssl_ca_len := ssl_ca_len c; ssl_cacert_len := ssl_cacert_len c;
          ssl_cakey_len := ssl_cakey_len c; ssl_cakeyid := ssl_cakeyid c |};
     rl_ssl_cert := rl_ssl_cert rlay; rl_ssl_key := rl_ssl_key rlay;
     rl_ssl_cacert := rl_ssl_cacert rlay; rl_ssl_cakey := rl_ssl_cakey rlay;
     rl_ssl_pkey := rl_ssl_pkey rlay; rl_ssl_capkey := rl_ssl_capkey rlay |}.

Inductive signal := SIGTERM | SIGINT | SIGCHLD | SIGHUP | SIGPIPE | SIGOTHER (n : Z).

Inductive wait_status :=
| WSIGNALED (termsig : Z)     (* WIFSIGNALED, WTERMSIG *)
| WEXITED (exitstatus : Z)    (* WIFEXITED, WEXITSTATUS *)
| WOTHER.                     (* neither *)

Inductive errno := EINTR | ECHILD | EOTHER.

(** What one call of [waitpid(WAIT_ANY, &status, WNOHANG)] returns. *)
Record waitpid_result := {
  w_pid : Z;
  w_status : wait_status;
  w_errno : errno;
}.

(** [struct privsep]: the process ids and titles of the children. *)
Record privsep := {
  ps_pid : privsep_procid -> Z;
  ps_title : privsep_procid -> string;
}.

Section Parent.
Context {H : relayd_h}.

(** The process the code runs in, a global of proc.c. *)
Variable privsep_process : privsep_procid.

(** The result of [open(PF_SOCKET, O_RDWR)]; [None] is -1. *)
Variable open_pf_socket : option Z.

(** [load_config] of parse.y, the parser of the configuration file: from
    the file name and the environment to its return value and the
    environment it leaves. *)
Variable load_config : list ascii -> relayd -> Z * relayd.

(** Modelled from the spec: [config_purge] (config.c) is not part of the
    sources at hand.  It drops the categories of the in-memory
    configuration that the scope names; the relays stay when the scope
    excludes CONFIG_RELAYS. *)
Definition config_purge (reset : Z) : M relayd unit :=
  fun env =>
    ([], Ret tt
      {| sc_opts := sc_opts env; sc_flags := sc_flags env;
         sc_conffile := sc_conffile env;
         sc_tables := if flag_test reset CONFIG_TABLES then [] else sc_tables env;
         sc_rdrs := if flag_test reset CONFIG_RDRS then [] else sc_rdrs env;
         sc_protos := if flag_test reset CONFIG_PROTOS then [] else sc_protos env;
         sc_relays := if flag_test reset CONFIG_RELAYS then [] else sc_relays env;
         sc_pkeys := sc_pkeys env;
         sc_prefork_relay := sc_prefork_relay env;
         sc_reload := sc_reload env |}).

(** "Check for SSL Inspection" *)
Definition check_ssl_inspection (rlay : relay) : relay :=
  let c := rl_conf rlay in
  if (Z.land (rl_flags c) (Z.lor F_SSL F_SSLCLIENT) =? Z.lor F_SSL F_SSLCLIENT)
     && negb (ssl_cacert_len c =? 0) && negb (ssl_cakey_len c =? 0)
  then set_rl_flags (Z.lor (rl_flags c) F_SSLINSPECT) rlay
  else rlay.

(** The loop that sends IMSG_CFG_DONE; [false] is the [goto done] that
    leaves [ret] at -1. *)
Fixpoint parent_configure_cfg_done (ids : list privsep_procid) : M relayd bool :=
  match ids with
  | [] => ret true
  | id :: rest =>
      if procid_eqb id privsep_process then parent_configure_cfg_done rest
      else
        env <- get ;;
        let cf := [sc_opts env; sc_flags env] in
        if flag_test (sc_flags env) F_NEEDPF && procid_eqb id PROC_PFE then
          match open_pf_socket with
          | None =>
              emit (log_debug "%s: cannot open pf socket"
                      [LogStr (lit "parent_configure")]) ;;
              ret false
          | Some s =>
              emit (proc_compose_imsg id (-1) IMSG_CFG_DONE s cf) ;;
              parent_configure_cfg_done rest
          end
        else
          emit (proc_compose_imsg id (-1) IMSG_CFG_DONE (-1) cf) ;;
          parent_configure_cfg_done rest
  end.

Definition parent_configure : M relayd Z :=
  env <- get ;;
  foreach (sc_tables env) (fun tb => emit (config_settable tb)) ;;
  foreach (sc_rdrs env) (fun r => emit (config_setrdr r)) ;;
  foreach (sc_protos env) (fun p => emit (config_setproto p)) ;;
  foreach (sc_protos env) (fun p => emit (config_setrule p)) ;;
  put (set_sc_relays (map check_ssl_inspection (sc_relays env)) env) ;;
  foreach (map check_ssl_inspection (sc_relays env))
    (fun rlay => emit (config_setrelay rlay)) ;;
  (* HCE, PFE, CA and the relays need to reload their config. *)
  env <- get ;;
  put (set_sc_reload (2 + 2 * sc_prefork_relay env) env) ;;
  ok <- parent_configure_cfg_done all_procs ;;
  config_purge (Z.land CONFIG_ALL (Z.lnot CONFIG_RELAYS)) ;;
  ret (if ok : bool then 0 else -1).

(** "Switch back to the default config file" *)
Definition reload_filename (filename : option (list ascii)) (env : relayd)
  : list ascii :=
  match filename with
  | None => sc_conffile env
  | Some f => match c_str f with [] => sc_conffile env | _ => f end
  end.

Definition parent_reload (reset : Z) (filename : option (list ascii))
  : M relayd unit :=
  env <- get ;;
  if negb (sc_reload env =? 0) then
    emit (log_debug "%s: already in progress: %d pending"
            [LogStr (lit "parent_reload"); LogInt (sc_reload env)])
  else
    let filename := reload_filename filename env in
    emit (log_debug "%s: level %d config file %s"
            [LogStr (lit "parent_reload"); LogInt reset; LogStr filename]) ;;
    config_purge CONFIG_ALL ;;
    if reset =? CONFIG_RELOAD then
      env <- get ;;
      let '(rc, env') := load_config filename env in
      put env' ;;
      (if rc =? -1 then
         emit (log_debug "%s: failed to load config file %s"
                 [LogStr (lit "parent_reload"); LogStr filename])
       else ret tt) ;;
      emit (config_setreset CONFIG_ALL) ;;
      rc <- parent_configure ;;
      if rc =? -1 then
        emit (log_debug "%s: failed to commit config from %s"
                [LogStr (lit "parent_reload"); LogStr filename])
      else ret tt
    else emit (config_setreset reset).

Definition parent_configure_done : M relayd unit :=
  env <- get ;;
  if sc_reload env =? 0 then
    emit (log_warnx "%s: configuration already finished"
            [LogStr (lit "parent_configure_done")])
  else
    put (set_sc_reload (sc_reload env - 1) env) ;;
    if sc_reload env - 1 =? 0 then
      foreach all_procs (fun id =>
        if procid_eqb id privsep_process then ret tt
        else emit (proc_compose_imsg id (-1) IMSG_CTL_START (-1) []))
    else ret tt.

(** IMSG_CTL_START to every process but the one at hand, every instance
    of it ([n] = -1). *)
Definition ctl_start_broadcast : list effect :=
  map (fun id => proc_compose_imsg id (-1) IMSG_CTL_START (-1) [])
    (List.filter (fun id => negb (procid_eqb id privsep_process)) all_procs).

(** [n] acknowledgements in a row. *)
Fixpoint cfg_done_acks (n : nat) : M relayd unit :=
  match n with
  | O => ret tt
  | S n' => parent_configure_done ;; cfg_done_acks n'
  end.

Definition parent_shutdown {A} (getpid : Z) : M relayd A :=
  config_purge CONFIG_ALL ;;
  emit proc_kill ;;
  emit control_cleanup ;;
  emit (log_info "parent terminating, pid %d" [LogInt getpid]) ;;
  exit 0.

(** The [for] loop over [ps_pid]: the title of the first process with
    this pid. *)
Definition lost_child (ps : privsep) (pid : Z) : option string :=
  match find (fun id => pid =? ps_pid ps id) all_procs with
  | Some id => Some (ps_title ps id)
  | None => None
  end.

(** The [do ... while] loop around [waitpid]; [children] lists what the
    successive calls return, after which no child is left and [waitpid]
    fails with ECHILD.  The value is [die]. *)
Fixpoint parent_sig_handler_reap (ps : privsep) (children : list waitpid_result)
    (die : bool) : M relayd bool :=
  match children with
  | [] => ret die
  | w :: rest =>
      if w_pid w <=? 0 then
        (* continue: only the loop condition is evaluated *)
        if (w_pid w =? -1) && match w_errno w with EINTR => true | _ => false end
        then parent_sig_handler_reap ps rest die
        else ret die
      else
        cause <- match w_status w with
                 | WSIGNALED sig =>
                     ret (true, ("terminated; signal %d"%string, [LogInt sig]))
                 | WEXITED st =>
                     if negb (st =? 0)
                     then ret (true, ("exited abnormally"%string, []))
                     else ret (false, ("exited okay"%string, []))
                 | WOTHER => fatalx "unexpected cause of SIGCHLD"
                 end ;;
        let '(fail, (text, args)) := cause in
        match lost_child ps (w_pid w) with
        | Some title =>
            if fail : bool then
              emit (log_warnx "lost child: %s %s"
                      (LogStr (lit title) :: LogStr (lit text) :: args))
            else ret tt
        | None => ret tt
        end ;;
        parent_sig_handler_reap ps rest true
  end.

Definition parent_sig_handler (sig : signal) (ps : privsep) (getpid : Z)
    (children : list waitpid_result) : M relayd unit :=
  match sig with
  | SIGTERM | SIGINT =>
      die <- parent_sig_handler_reap ps children true ;;
      if die : bool then parent_shutdown getpid else ret tt
  | SIGCHLD =>
      die <- parent_sig_handler_reap ps children false ;;
      if die : bool then parent_shutdown getpid else ret tt
  | SIGHUP =>
      emit (log_info "%s: reload requested with SIGHUP"
              [LogStr (lit "parent_sig_handler")]) ;;
      parent_reload CONFIG_RELOAD None
  | SIGPIPE => ret tt
  | SIGOTHER _ => fatalx "unexpected signal"
  end.

(** [parent_dispatch_ca]; [None] is the return value -1. *)
Definition parent_dispatch_ca (type : imsg_type) : M relayd (option unit) :=
  match type with
  | IMSG_CFG_DONE => parent_configure_done ;; ret (Some tt)
  | _ => ret None
  end.

End Parent.

(** ** The CA process and the RSA privsep engine (ca.c) *)

(** [pkey_find]: the handle of the first entry of [sc_pkeys] with this
    id, [Some None] for NULL.  The outer [None] is the dereference of a
    list head that is NULL. *)
Definition pkey_find (env : relayd) (objid : Z) : option (option Z) :=
  match sc_pkeys env with
  | Some l =>
      match find (fun k => pkey_id k =? objid) l with
      | Some k => Some (Some (pkey k))
      | None => Some None
      end
  | None => None
  end.

(** The memory of a process is a map from addresses to blocks.  A freed
    block stays in the map, marked, with the bytes it held when it was
    freed. *)
Record block := { bytes : list Z; freed : bool }.

(** [struct rsa_st] as far as the engine looks into it: the object id
    stored as extended data (index 0), and [RSA_size]. *)
Record RSA := { RSA_get_ex_data : option Z; RSA_size : Z }.

(** What [imsg_get] hands out. *)
Inductive imsg_get_result :=
| GetError                 (* -1 *)
| GetMsg (m : imsg).       (* a message; the end of the list is 0 *)

(** What [imsg_read] returns, with the messages it made available. *)
Inductive imsg_read_result :=
| ReadError                               (* -1 *)
| ReadClosed                              (*  0 *)
| ReadData (msgs : list imsg_get_result). (* > 0 *)

Section CA.
Context {H : relayd_h}.

(** [sizeof(struct ctl_keyop)] and [sizeof(struct ca_pkey)] *)
Variable sizeof_cko : Z.
Variable sizeof_ca_pkey : Z.

(** The instance number of the process, a global of proc.c. *)
Variable proc_id : Z.

(** libcrypto and libc.  A private-key operation gets the input bytes,
    the RSA handle and the padding mode and yields its return value and
    the bytes it wrote to the output buffer; [calloc(nmemb, size)]
    succeeds or not. *)
Variable EVP_PKEY_get1_RSA : Z -> option Z.
Variable RSA_private_encrypt : Z -> list Z -> Z -> Z -> Z * list Z.
Variable RSA_private_decrypt : Z -> list Z -> Z -> Z -> Z * list Z.
Variable calloc : Z -> Z -> bool.

(** [pkey_add]; the outer [None] is the NULL it returns when [calloc]
    fails. *)
Definition pkey_add (key objid : Z) : M relayd (option ca_pkey) :=
  env <- get ;;
  match sc_pkeys env with
  | None => fatalx "pkeys"
  | Some l =>
      if calloc 1 sizeof_ca_pkey then
        let ca_pkey := {| pkey := key; pkey_id := objid |} in
        put (set_sc_pkeys (Some (l ++ [ca_pkey])) env) ;;
        ret (Some ca_pkey)
      else ret None
  end.

Definition set_cko_tlen (n : Z) (cko : ctl_keyop) : ctl_keyop :=
  {| cko_id := cko_id cko; cko_proc := cko_proc cko; cko_flen := cko_flen cko;
     cko_tlen := n; cko_padding := cko_padding cko |}.

(** [iov_len] is a [size_t]: an [int] stored there wraps. *)
Definition to_size_t (n : Z) : Z := n mod 2 ^ 64.

(** The inner [switch] of [ca_dispatch_relay]. *)
Definition ca_rsa_operation (type : imsg_type) (flen : Z) (from : list Z)
    (rsa padding : Z) : Z * list Z :=
  match type with
  | IMSG_CA_PRIVENC => RSA_private_encrypt flen from rsa padding
  | _ => RSA_private_decrypt flen from rsa padding
  end.

(** [None] is the return value -1 of the dispatcher. *)
Definition ca_dispatch_relay (imsg : imsg) : M relayd (option unit) :=
  match hdr_type imsg with
  | IMSG_CA_PRIVENC | IMSG_CA_PRIVDEC =>
      env <- get ;;
      match imsg_cko imsg with
      | None => fatalx "bad length imsg received"     (* IMSG_SIZE_CHECK *)
      | Some cko =>
          if sc_prefork_relay env <? cko_proc cko then
            fatalx "ca_dispatch_relay: invalid relay proc"
          else if negb (to_size_t (sizeof_cko + Z.of_nat (length (imsg_tail imsg)))
                        =? to_size_t (sizeof_cko + to_size_t (cko_flen cko))) then
            fatalx "ca_dispatch_relay: invalid key operation"
          else
            match pkey_find env (cko_id cko) with
            | None => undefined "TAILQ_FOREACH: sc_pkeys is NULL"
            | Some None => fatalx "ca_dispatch_relay: invalid relay key or id"
            | Some (Some key) =>
            match EVP_PKEY_get1_RSA key with
            | None => fatalx "ca_dispatch_relay: invalid relay key or id"
            | Some rsa =>
                let from := imsg_tail imsg in
                if negb (calloc 1 (to_size_t (cko_tlen cko))) then
                  fatalx "ca_dispatch_relay: calloc"
                else
                  let '(tlen, to) :=
                    ca_rsa_operation (hdr_type imsg) (cko_flen cko) from rsa
                      (cko_padding cko) in
                  let cko := set_cko_tlen tlen cko in
                  let iov :=
                    {| iov_data := IovKeyop cko; iov_len := sizeof_cko |}
                    :: (if negb (tlen =? 0)
                        then [{| iov_data := IovBytes to; iov_len := to_size_t tlen |}]
                        else []) in
                  emit (proc_composev_imsg PROC_RELAY (cko_proc cko)
                          (hdr_type imsg) (-1) iov) ;;
                  ret (Some tt)
            end
            end
      end
  | _ => ret None
  end.

(** The inner loop of [rsae_send_imsg] over the messages of one read; it
    ends with the first call of [imsg_get].  [Some] is the value of [ret]
    and the bytes copied to [to] once [done] is set, [None] when
    [imsg_get] returned 0. *)
Definition rsae_send_imsg_get (cmd : imsg_type) (msgs : list imsg_get_result)
  : M relayd (option (Z * list Z)) :=
  match msgs with
  | [] => ret None
  | GetError :: _ => fatalx "imsg_get error"
  | GetMsg imsg :: _ =>
      if negb (imsg_type_eqb (hdr_type imsg) cmd) then fatalx "invalid response"
      else
        match imsg_cko imsg with
        | None => fatalx "bad length imsg received"   (* IMSG_SIZE_CHECK *)
        | Some cko =>
            if negb (to_size_t (sizeof_cko + Z.of_nat (length (imsg_tail imsg)))
                     =? to_size_t (sizeof_cko + to_size_t (cko_tlen cko)))
            then fatalx "data size"
            else
              let r := cko_tlen cko in
              ret (Some (r, if negb (r =? 0) then imsg_tail imsg else []))
        end
  end.

(** The outer loop; [reads] lists what the successive calls of
    [imsg_read] return, after which the peer has closed the pipe. *)
Fixpoint rsae_send_imsg_read (cmd : imsg_type) (reads : list imsg_read_result)
  : M relayd (Z * list Z) :=
  match reads with
  | [] => fatalx "pipe closed"
  | ReadError :: _ => fatalx "imsg_read"
  | ReadClosed :: _ => fatalx "pipe closed"
  | ReadData msgs :: rest =>
      r <- rsae_send_imsg_get cmd msgs ;;
      match r with
      | Some done => ret done
      | None => rsae_send_imsg_read cmd rest
      end
  end.

(** [rsae_send_imsg]: the value returned and the bytes written to [to]. *)
Definition rsae_send_imsg (flen : Z) (from : list Z) (rsa : RSA) (padding : Z)
    (cmd : imsg_type) (reads : list imsg_read_result) : M relayd (Z * list Z) :=
  match RSA_get_ex_data rsa with
  | None => ret (0, [])
  | Some objid =>
      let cko := {| cko_id := objid; cko_proc := proc_id; cko_flen := flen;
                    cko_tlen := RSA_size rsa; cko_padding := padding |} in
      let iov := [ {| iov_data := IovKeyop cko; iov_len := sizeof_cko |};
                   {| iov_data := IovBytes from; iov_len := to_size_t flen |} ] in
      (* Send a synchronous imsg because we cannot defer the RSA
         operation in OpenSSL's engine layer. *)
      emit (imsg_composev cmd (-1) iov) ;;
      emit imsg_flush ;;
      r <- rsae_send_imsg_read cmd reads ;;
      emit imsg_event_add ;;
      ret r
  end.

(** The two entry points of the RSA method; [rsa_default] is the method
    of the library they fall back to. *)
Variable rsa_default_priv_enc : Z -> list Z -> RSA -> Z -> Z * list Z.
Variable rsa_default_priv_dec : Z -> list Z -> RSA -> Z -> Z * list Z.

Definition rsae_priv_enc (flen : Z) (from : list Z) (rsa : RSA) (padding : Z)
    (reads : list imsg_read_result) : M relayd (Z * list Z) :=
  match RSA_get_ex_data rsa with
  | Some _ => rsae_send_imsg flen from rsa padding IMSG_CA_PRIVENC reads
  | None => ret (rsa_default_priv_enc flen from rsa padding)
  end.

Definition rsae_priv_dec (flen : Z) (from : list Z) (rsa : RSA) (padding : Z)
    (reads : list imsg_read_result) : M relayd (Z * list Z) :=
  match RSA_get_ex_data rsa with
  | Some _ => rsae_send_imsg flen from rsa padding IMSG_CA_PRIVDEC reads
  | None => ret (rsa_default_priv_dec flen from rsa padding)
  end.

End CA.

(** ** A parent and a CA worker to run the model on *)

(** A parent with one relay that listens with TLS, two relay instances,
    [pending] acknowledgements outstanding. *)
Definition example_relay : relay :=
  {| rl_conf := {| rl_id := 1; rl_flags := 0x800; ssl_cert_len := 4;
                   ssl_key_len := 3; ssl_keyid := 7; ssl_ca_len := 0;
                   ssl_cacert_len := 0; ssl_cakey_len := 0; ssl_cakeyid := 0 |};
     rl_ssl_cert := 0x1000; rl_ssl_key := 0x2000; rl_ssl_cacert := NULL;
     rl_ssl_cakey := NULL; rl_ssl_pkey := None; rl_ssl_capkey := None |}.

Definition example_env (pending : Z) : relayd :=
  {| sc_opts := 0; sc_flags := 0x800; sc_conffile := lit "/etc/relayd.conf";
     sc_tables := []; sc_rdrs := []; sc_protos := [];
     sc_relays := [example_relay]; sc_pkeys := None;
     sc_prefork_relay := 2; sc_reload := pending |}.

(** A configuration file with a syntax error in its first line: the
    parser fails and adds nothing. *)
Definition load_config_syntax_error (_ : list ascii) (env : relayd)
  : Z * relayd := (-1, env).




(** The handler went back to the event loop. *)
Definition returned {S A} (r : list effect * outcome S A) : bool :=
  match snd r with
  | Ret _ _ => true
  | _ => false
  end.

(** A CA worker without keys, and a request to decrypt two bytes with
    the key of object id 7. *)
Definition example_ca_env : relayd := set_sc_pkeys (Some []) (example_env 0).

Definition example_keyop : imsg :=
  {| hdr_type := IMSG_CA_PRIVDEC;
     imsg_cko := Some {| cko_id := 7; cko_proc := 0; cko_flen := 2;
                         cko_tlen := 256; cko_padding := 1 |};
     imsg_tail := [1; 2] |}.

(** A libcrypto whose private-key operations fail with the value 0. *)
Definition example_rsa_fails (_ : Z) (_ : list Z) (_ _ : Z) : Z * list Z :=
  (0, []).

(** ** table_findbyconf (relayd.c) *)

(** [strcmp(3)] on C strings. *)
Fixpoint strcmp_from (a b : cstring) : Z :=
  match a, b with
  | [], [] => 0
  | [], d :: _ => 0 - uchar d
  | c :: _, [] => uchar c
  | c :: a', d :: b' =>
      if Ascii.eqb c d then strcmp_from a' b' else uchar c - uchar d
  end.

Definition strcmp (a b : list ascii) : Z := strcmp_from (c_str a) (c_str b).

Definition set_sc_tables (l : list table) (env : relayd) : relayd :=
  {| sc_opts := sc_opts env; sc_flags := sc_flags env;
     sc_conffile := sc_conffile env; sc_tables := l;
     sc_rdrs := sc_rdrs env; sc_protos := sc_protos env;
     sc_relays := sc_relays env; sc_pkeys := sc_pkeys env;
     sc_prefork_relay := sc_prefork_relay env; sc_reload := sc_reload env |}.

Definition set_rdrid (r : Z) (tb : table) : table :=
  {| conf := {| id := id (conf tb); rdrid := r; flags := flags (conf tb);
                conf_bytes := conf_bytes (conf tb) |};
     sendbuf := sendbuf tb |}.

(** [bcmp(&a, &b, sizeof(b)) == 0]: every byte of the two structures is
    the same. *)
Definition table_config_bcmp (a b : table_config) : bool :=
  (id a =? id b) && (rdrid a =? rdrid b) && (flags a =? flags b)
  && bool_decide (conf_bytes a = conf_bytes b).

Section Tables.
Context {H : relayd_h}.

(** The copy [table_findbyconf] compares: [id] and [rdrid] zeroed,
    F_USED and F_BACKUP cleared. *)
Definition table_findbyconf_copy (c : table_config) : table_config :=
  {| id := 0; rdrid := 0;
     flags := Z.land (flags c) (Z.lnot (Z.lor F_USED F_BACKUP));
     conf_bytes := conf_bytes c |}.

Definition table_findbyconf (env : relayd) (tb : table) : option table :=
  let a := table_findbyconf_copy (conf tb) in
  find (fun table =>
          let b := table_findbyconf_copy (conf table) in
          (* Compare two tables and return the existing table if
             the configuration seems to be the same. *)
          table_config_bcmp a b &&
          match sendbuf tb, sendbuf table with
          | None, None => true
          | Some s, Some s' => strcmp s s' =? 0
          | _, _ => false
          end)
       (sc_tables env).

(** The condition in the words of the specification: the configurations
    are equal once [id] and [rdrid] are zeroed and the two flag bits are
    cleared, and the send buffers are both absent or equal strings. *)
Definition spec_same_table (tb table : table) : Prop :=
  table_findbyconf_copy (conf tb) = table_findbyconf_copy (conf table) /\
  (sendbuf tb = None /\ sendbuf table = None \/
   exists s s', sendbuf tb = Some s /\ sendbuf table = Some s' /\
                c_str s = c_str s').

End Tables.

(** Two tables of a configuration: a send-expect check and its copy
    under another redirect. *)
Definition example_table : table :=
  {| conf := {| id := 3; rdrid := 1; flags := 0x4; conf_bytes := lit "www:80" |};
     sendbuf := Some (lit "HEAD / HTTP/1.0") |}.

(** ** rule_add and rule_inherit (relayd.c) *)

(** The size of a stdio buffer on the BSDs. *)
Definition BUFSIZ : nat := 1024.

(** What the successive calls [fgets(buf, size, fp)] read from a file:
    each chunk ends behind a newline, or after [size - 1] characters, or
    at the end of the file.  [cur] is the chunk under way, [room] the
    number of characters it can still take. *)
Fixpoint fgets_chunks (size : nat) (fp cur : list ascii) (room : nat)
  : list (list ascii) :=
  match fp with
  | [] => match cur with [] => [] | _ => [cur] end
  | c :: fp' =>
      if Ascii.eqb c "010"%char || (room <=? 1)%nat
      then (cur ++ [c]) :: fgets_chunks size fp' [] (size - 1)
      else fgets_chunks size fp' (cur ++ [c]) (room - 1)
  end.

(** [buf[strcspn(buf, "\r\n\t ")] = '\0']: the string up to the first
    white space. *)
Fixpoint strip_at_space (buf : cstring) : cstring :=
  match buf with
  | [] => []
  | c :: buf' =>
      if existsb (Ascii.eqb c) ["013"; "010"; "009"; " "]%char then []
      else c :: strip_at_space buf'
  end.

Definition set_kv_key (key : option (list ascii)) (k : kv) : kv :=
  {| kv_key := key; kv_value := kv_value k; kv_type := kv_type k;
     kv_option := kv_option k; kv_flags := kv_flags k |}.

Definition set_kv_flags (f : Z) (k : kv) : kv :=
  {| kv_key := kv_key k; kv_value := kv_value k; kv_type := kv_type k;
     kv_option := kv_option k; kv_flags := f |}.

Definition set_rule_kv (kvs : list kv) (rule : relay_rule) : relay_rule :=
  {| rule_dir := rule_dir rule; rule_kv := kvs; rule_label := rule_label rule;
     rule_tag := rule_tag rule; rule_tagged := rule_tagged rule |}.

Definition set_rules (l : list relay_rule) (proto : protocol) : protocol :=
  {| proto_id := proto_id proto; proto_name := proto_name proto; rules := l |}.

Definition direction_eqb (a b : direction) : bool :=
  match a, b with
  | RELAY_DIR_INVALID, RELAY_DIR_INVALID | RELAY_DIR_ANY, RELAY_DIR_ANY
  | RELAY_DIR_REQUEST, RELAY_DIR_REQUEST
  | RELAY_DIR_RESPONSE, RELAY_DIR_RESPONSE => true
  | _, _ => false
  end.

Definition is_some {A} (o : option A) : bool :=
  match o with Some _ => true | None => false end.

Section Rules.
Context {H : relayd_h}.

(** libc: whether [strdup] of this string and [calloc] succeed, and what
    [fopen(path, "r")] opens: the content of the file, or NULL. *)
Variable strdup : list ascii -> bool.
Variable calloc : bool.
Variable fopen : list ascii -> option (list ascii).

(** The key types of the second [switch] of [rule_add]. *)
Definition request_only (type : nat) : bool :=
  (type =? KEY_TYPE_QUERY)%nat || (type =? KEY_TYPE_PATH)%nat
  || (type =? KEY_TYPE_URL)%nat.

(** The body of the first loop of [rule_add] for a populated slot:
    [false] is [goto fail], with the slot as it is left. *)
Definition rule_add_kv (dir : direction) (rulefile_null : bool) (k : kv)
  : bool * kv :=
  (* log action needs a key or a file to be specified *)
  let '(ok, k) :=
    if (kv_option k =? KEY_OPTION_LOG)%nat && negb (is_some (kv_key k))
       && rulefile_null
    then if strdup (lit "*") then (true, set_kv_key (Some (lit "*")) k)
         else (false, k)
    else (true, k) in
  if negb ok then (false, k)
  else if request_only (kv_type k) && negb (direction_eqb dir RELAY_DIR_REQUEST)
  then (false, k)
  else
    let k :=
      match kv_value k with
      | Some v =>
          if strchr (c_str v) "$"
          then set_kv_flags (Z.lor (kv_flags k) KV_FLAG_MACRO) k else k
      | None => k
      end in
    let k :=
      match kv_key k with
      | Some key =>
          if strpbrk (c_str key) glob_chars
          then set_kv_flags (Z.lor (kv_flags k) KV_FLAG_GLOBBING) k else k
      | None => k
      end in
    (true, k).


(** The first loop, from slot [i] on. *)
Fixpoint rule_add_check (dir : direction) (rulefile_null : bool) (i : nat)
    (kvs : list kv) : bool * list kv :=
  match kvs with
  | [] => (true, [])
  | k :: rest =>
      if negb (kv_type k =? i)%nat then
        let '(ok, rest') := rule_add_check dir rulefile_null (S i) rest in
        (ok, k :: rest')
      else
        match rule_add_kv dir rulefile_null k with
        | (false, k') => (false, k' :: rest)
        | (true, k') =>
            let '(ok, rest') := rule_add_check dir rulefile_null (S i) rest in
            (ok, k' :: rest')
        end
  end.

(** [kv_inherit]: a copy with its own strings; [None] is NULL. *)
Definition kv_inherit (src : kv) : option kv :=
  if match kv_key src with Some key => strdup key | None => true end
     && match kv_value src with Some v => strdup v | None => true end
  then Some src else None.

Fixpoint rule_inherit_kv (i : nat) (kvs : list kv) : option (list kv) :=
  match kvs with
  | [] => Some []
  | k :: rest =>
      if negb (kv_type k =? i)%nat then
        match rule_inherit_kv (S i) rest with
        | Some rest' => Some (k :: rest')
        | None => None
        end
      else
        match kv_inherit k with
        | None => None
        | Some k' =>
            match rule_inherit_kv (S i) rest with
            | Some rest' => Some (k' :: rest')
            | None => None
            end
        end
  end.

Definition rule_refs {S} (on_label on_tag : Z -> effect) (rule : relay_rule)
  : M S unit :=
  (if 0 <? rule_label rule then emit (on_label (rule_label rule)) else ret tt) ;;
  (if 0 <? rule_tag rule then emit (on_tag (rule_tag rule)) else ret tt) ;;
  (if 0 <? rule_tagged rule then emit (on_tag (rule_tagged rule)) else ret tt).

Definition rule_inherit {S} (rule : relay_rule) : M S (option relay_rule) :=
  if negb calloc then ret None
  else
    match rule_inherit_kv 0 (rule_kv rule) with
    | None => ret None
    | Some kvs =>
        let r := set_rule_kv kvs rule in
        rule_refs label_ref tag_ref r ;;
        ret (Some r)
    end.

(** [rule_free] leaves the rule without strings and drops its
    references; all callers at hand free the rule right after. *)
Definition rule_free {S} (rule : relay_rule) : M S unit :=
  rule_refs label_unref tag_unref rule.

(** The loop that gives every populated slot of [r] the key [buf];
    [None] when [strdup] fails. *)
Fixpoint rule_add_setkey (buf : cstring) (i : nat) (kvs : list kv)
  : option (list kv) :=
  match kvs with
  | [] => Some []
  | k :: rest =>
      if negb (kv_type k =? i)%nat then
        match rule_add_setkey buf (S i) rest with
        | Some rest' => Some (k :: rest')
        | None => None
        end
      else if strdup buf then
        match rule_add_setkey buf (S i) rest with
        | Some rest' => Some (set_kv_key (Some buf) k :: rest')
        | None => None
        end
      else None
  end.

(** The loop over the lines of the rule file; the value is [ret]. *)
Fixpoint rule_add_file (rule : relay_rule) (chunks : list (list ascii))
  : M protocol Z :=
  match chunks with
  | [] => rule_free rule ;; ret 0
  | chunk :: rest =>
      (* strip whitespace and newline characters *)
      let buf := strip_at_space (c_str chunk) in
      match buf with
      | [] => rule_add_file rule rest
      | c :: _ =>
          if Ascii.eqb c "#" then rule_add_file rule rest
          else
            r <- rule_inherit rule ;;
            match r with
            | None => ret (-1)
            | Some r =>
                match rule_add_setkey buf 0 (rule_kv r) with
                | None => rule_free r ;; ret (-1)
                | Some kvs =>
                    proto <- get ;;
                    put (set_rules (rules proto ++ [set_rule_kv kvs r]) proto) ;;
                    rule_add_file rule rest
                end
            end
      end
  end.

(** [rule_add]: the value returned and [*rule] as the call leaves it,
    [None] once it is freed.  The state is [*proto]. *)
Definition rule_add (rule : relay_rule) (rulefile : option (list ascii))
  : M protocol (Z * option relay_rule) :=
  let '(ok, kvs) :=
    rule_add_check (rule_dir rule) (negb (is_some rulefile)) 0 (rule_kv rule) in
  let rule := set_rule_kv kvs rule in
  if negb ok then ret (-1, Some rule)
  else
    match rulefile with
    | None =>
        proto <- get ;;
        put (set_rules (rules proto ++ [rule]) proto) ;;
        ret (0, Some rule)
    | Some path =>
        match fopen path with
        | None => ret (-1, Some rule)
        | Some fp =>
            rc <- rule_add_file rule (fgets_chunks BUFSIZ fp [] (BUFSIZ - 1)) ;;
            ret (rc, if rc =? 0 then None else Some rule)
        end
    end.

End Rules.

(** A header pattern with a glob in the key and a macro in the value,
    as rule S3 of the specification has it. *)
Definition example_kv (type : nat) (key value : string) : kv :=
  {| kv_key := Some (lit key); kv_value := Some (lit value); kv_type := type;
     kv_option := 2; kv_flags := 0 |}.

Definition empty_kv : kv :=
  {| kv_key := None; kv_value := None; kv_type := 0; kv_option := 0;
     kv_flags := 0 |}.

Definition example_rule (dir : direction) (slot2 slot4 : kv) : relay_rule :=
  {| rule_dir := dir;
     rule_kv := [empty_kv; empty_kv; slot2; empty_kv; slot4; empty_kv];
     rule_label := 0; rule_tag := 0; rule_tagged := 0 |}.

Definition example_proto : protocol :=
  {| proto_id := 1; proto_name := lit "http"; rules := [] |}.

(** ** purge_key (relayd.c) and ca_launch (ca.c) *)

(** Run a computation on one half of a pair of states. *)
Definition on_fst {S1 S2 A} (m : M S1 A) : M (S1 * S2) A :=
  fun s =>
    match m (fst s) with
    | (t, Ret a s1) => (t, Ret a (s1, snd s))
    | (t, Exit code) => (t, Exit code)
    | (t, Fatalx msg) => (t, Fatalx msg)
    | (t, Undefined what) => (t, Undefined what)
    end.

Definition on_snd {S1 S2 A} (m : M S2 A) : M (S1 * S2) A :=
  fun s =>
    match m (snd s) with
    | (t, Ret a s2) => (t, Ret a (fst s, s2))
    | (t, Exit code) => (t, Exit code)
    | (t, Fatalx msg) => (t, Fatalx msg)
    | (t, Undefined what) => (t, Undefined what)
    end.

(** A loop that replaces every element of a list in turn. *)
Fixpoint for_each_update {S A} (body : A -> M S A) (l : list A) : M S (list A) :=
  match l with
  | [] => ret []
  | x :: l' =>
      x' <- body x ;;
      l'' <- for_each_update body l' ;;
      ret (x' :: l'')
  end.

(** [purge_key(&ptr, len)]: the value of [ptr] afterwards.  [len] is an
    [off_t]; handed to [bzero] a negative one is a size no block has. *)
Definition purge_key (key : Z) (len : Z) : M (gmap Z block) Z :=
  if (key =? NULL) || (len =? 0) then ret key
  else
    h <- get ;;
    match h !! key with
    | None => undefined "bzero: no such block"
    | Some b =>
        if freed b then undefined "bzero: block already freed"
        else if (len <? 0) || (Z.of_nat (length (bytes b)) <? len)
        then undefined "bzero: beyond the end of the block"
        else
          (* bzero(key, len); free(key); *ptr = NULL *)
          put (<[key := {| bytes := replicate (Z.to_nat len) 0
                                    ++ drop (Z.to_nat len) (bytes b);
                           freed := true |}]> h) ;;
          ret NULL
    end.

(** The [len] bytes a BIO over the buffer at [p] reads. *)
Definition read_mem (h : gmap Z block) (p len : Z) : option (list Z) :=
  match h !! p with
  | None => None
  | Some b =>
      if freed b || (len <? 0) || (Z.of_nat (length (bytes b)) <? len)
      then None
      else Some (take (Z.to_nat len) (bytes b))
  end.

(** The block at [p] is freed and its first [len] bytes are zero. *)
Definition purged (h : gmap Z block) (p len : Z) : Prop :=
  exists b, h !! p = Some b /\ freed b = true /\
            take (Z.to_nat len) (bytes b) = replicate (Z.to_nat len) 0.

(** What is purged stays purged. *)
Definition heap_mono (h h' : gmap Z block) : Prop :=
  forall p len, purged h p len -> purged h' p len.

Section CALaunch.
Context {H : relayd_h}.

Variable sizeof_ca_pkey : Z.
Variable calloc : Z -> Z -> bool.

(** libcrypto: whether [BIO_new_mem_buf(buf, len)] can allocate a BIO
    for a buffer that is not NULL, and the key handle
    [PEM_read_bio_PrivateKey] makes of the bytes the BIO reads, [None]
    for NULL. *)
Variable BIO_new_mem_buf : Z -> Z -> bool.
Variable PEM_read_bio_PrivateKey : list Z -> option Z.

(** The steps the two key branches of [ca_launch] share: read the PEM
    bytes, register the key under [keyid], purge the buffer.  The value
    is the key handle and the pointer left in the relay. *)
Definition ca_launch_key (pkey_failed : string) (keyp len keyid : Z)
  : M (relayd * gmap Z block) (Z * Z) :=
  if (keyp =? NULL) || negb (BIO_new_mem_buf keyp len)
  then fatalx "ca_launch: key"
  else
    st <- get ;;
    match read_mem (snd st) keyp len with
    | None => undefined "BIO_read: outside a live block"
    | Some pem =>
        match PEM_read_bio_PrivateKey pem with
        | None => fatalx "ca_launch: PEM"
        | Some key =>
            added <- on_fst (pkey_add sizeof_ca_pkey calloc key keyid) ;;
            match added with
            | None => fatalx pkey_failed
            | Some _ =>
                keyp' <- on_snd (purge_key keyp len) ;;
                ret (key, keyp')
            end
        end
    end.

(** The body of the [TAILQ_FOREACH] of [ca_launch]. *)
Definition ca_launch_relay (rlay : relay) : M (relayd * gmap Z block) relay :=
  let c := rl_conf rlay in
  if Z.land (rl_flags c) (Z.lor F_SSL F_SSLCLIENT) =? 0 then ret rlay
  else
    k <- (if negb (ssl_key_len c =? 0) then
            r <- ca_launch_key "ssl pkey" (rl_ssl_key rlay) (ssl_key_len c)
                   (ssl_keyid c) ;;
            ret (Some (fst r), snd r)
          else ret (rl_ssl_pkey rlay, rl_ssl_key rlay)) ;;
    cert <- (if negb (ssl_cert_len c =? 0)
             then on_snd (purge_key (rl_ssl_cert rlay) (ssl_cert_len c))
             else ret (rl_ssl_cert rlay)) ;;
    ca <- (if negb (ssl_cakey_len c =? 0) then
             r <- ca_launch_key "ca pkey" (rl_ssl_cakey rlay) (ssl_cakey_len c)
                    (ssl_cakeyid c) ;;
             ret (Some (fst r), snd r)
           else ret (rl_ssl_capkey rlay, rl_ssl_cakey rlay)) ;;
    cacert <- (if negb (ssl_cacert_len c =? 0)
               then on_snd (purge_key (rl_ssl_cacert rlay) (ssl_cacert_len c))
               else ret (rl_ssl_cacert rlay)) ;;
    ret {| rl_conf := c;
           rl_ssl_cert := cert; rl_ssl_key := snd k;
           rl_ssl_cacert := cacert; rl_ssl_cakey := snd ca;
           rl_ssl_pkey := fst k; rl_ssl_capkey := fst ca |}.

(** What [ca_launch] is to leave of the keys of a relay with one of the
    TLS flags: the pointers NULL, the buffers purged. *)
Definition keys_purged (rlay rlay' : relay) (h' : gmap Z block) : Prop :=
  Z.land (rl_flags (rl_conf rlay)) (Z.lor F_SSL F_SSLCLIENT) <> 0 ->
  (ssl_key_len (rl_conf rlay) <> 0 ->
   rl_ssl_key rlay' = NULL /\
   purged h' (rl_ssl_key rlay) (ssl_key_len (rl_conf rlay))) /\
  (ssl_cakey_len (rl_conf rlay) <> 0 ->
   rl_ssl_cakey rlay' = NULL /\
   purged h' (rl_ssl_cakey rlay) (ssl_cakey_len (rl_conf rlay))).

(** [ca_launch], run by [ca_dispatch_parent] on IMSG_CTL_START. *)
Definition ca_launch : M (relayd * gmap Z block) unit :=
  st <- get ;;
  relays <- for_each_update ca_launch_relay (sc_relays (fst st)) ;;
  st <- get ;;
  put (set_sc_relays relays (fst st), snd st).

End CALaunch.

(** The memory of a CA worker that holds [example_relay]: a certificate
    of four bytes and a key of three. *)
Definition example_heap : gmap Z block :=
  <[0x1000 := {| bytes := [67; 69; 82; 84]; freed := false |}]>
    (<[0x2000 := {| bytes := [75; 69; 89]; freed := false |}]> ∅).

(** The same relay without the TLS flags. *)
Definition example_plain_relay : relay := set_rl_flags 0 example_relay.

(** A CA worker before IMSG_CTL_START: no keys loaded yet, the relays
    as received from the parent. *)
Definition example_ca_state (relays : list relay) : relayd * gmap Z block :=
  (set_sc_pkeys (Some []) (set_sc_relays relays (example_env 0)), example_heap).

(** ** translate_string (relayd.c) *)

(** What a call of [translate_string] comes to: the buffer as it leaves
    it, or a read behind the last byte of the buffer. *)
Inductive translate_result :=
| Translated (str : list ascii)
| ReadBeyondBuffer
| TranslateFuel.

(** The character an escape sequence stands for: the [switch]. *)
Definition translate_escape (c : ascii) : ascii :=
  if Ascii.eqb c "n" then "010"%char
  else if Ascii.eqb c "r" then "013"%char
  else c.

(** The [while] loop; [reader] and [writer] are offsets into the buffer
    [str], which is rewritten in place. *)
Fixpoint translate_string_loop (fuel : nat) (str : list ascii)
    (reader writer : nat) : translate_result :=
  match fuel with
  | O => TranslateFuel
  | S fuel =>
      match str !! reader with
      | None => ReadBeyondBuffer
      | Some c =>
          if is_nul c then Translated (<[writer := NUL]> str)
          else if Ascii.eqb c "\" then
            match str !! S reader with
            | None => ReadBeyondBuffer
            | Some d =>
                translate_string_loop fuel (<[writer := translate_escape d]> str)
                  (S (S reader)) (S writer)
            end
          else
            translate_string_loop fuel (<[writer := c]> str) (S reader) (S writer)
      end
  end.

(** Every turn of the loop moves [reader] on, so that the length of the
    buffer bounds the number of turns. *)
Definition translate_string (str : list ascii) : translate_result :=
  translate_string_loop (S (length str)) str 0 0.

(** The string with its escape sequences replaced, as a function of the
    string. *)
Fixpoint spec_unescape (s : cstring) : cstring :=
  match s with
  | [] => []
  | c :: s' =>
      if Ascii.eqb c "\" then
        match s' with
        | [] => []
        | d :: s'' => translate_escape d :: spec_unescape s''
        end
      else c :: spec_unescape s'
  end.

(** The string ends in a backslash that no backslash before it
    escapes. *)
Fixpoint dangling (s : cstring) : bool :=
  match s with
  | [] => false
  | c :: s' =>
      if Ascii.eqb c "\" then
        match s' with
        | [] => true
        | _ :: s'' => dangling s''
        end
      else dangling s'
  end.

(** ** expand_string (relayd.c) *)

(** [needle] is at the start of [s]. *)
Fixpoint is_prefix (needle s : cstring) : bool :=
  match needle, s with
  | [], _ => true
  | _ :: _, [] => false
  | a :: needle', c :: s' => Ascii.eqb a c && is_prefix needle' s'
  end.

(** [strstr(3)]: the offset of the first occurrence of [needle] in [s],
    [None] for NULL.  The empty string occurs at offset 0. *)
Fixpoint strstr (s needle : cstring) : option nat :=
  if is_prefix needle s then Some 0%nat
  else
    match s with
    | [] => None
    | _ :: s' =>
        match strstr s' needle with
        | Some i => Some (S i)
        | None => None
        end
    end.

(** [strlcat(3)] on a buffer [dst] of [dsize] bytes: the buffer
    afterwards and the value returned, the length of the string it tried
    to create. *)
Definition strlcat (dst : list ascii) (src : cstring) (dsize : nat)
  : list ascii * nat :=
  let dlen := length (c_str (take dsize dst)) in
  if (dlen =? dsize)%nat then (dst, (dlen + length src)%nat)
  else
    let k := Nat.min (length src) (dsize - dlen - 1) in
    (take dlen dst ++ take k src ++ NUL :: drop (dlen + k + 1) dst,
     (dlen + length src)%nat).

(** [strlcpy(3)]: the buffer [dst] afterwards, [None] when the copy
    does not fit into it. *)
Definition strlcpy (dst : list ascii) (src : cstring) (dsize : nat)
  : option (list ascii) :=
  if (dsize =? 0)%nat then Some dst
  else
    let k := Nat.min (length src) (dsize - 1) in
    if (length dst <? k + 1)%nat then None
    else Some (take k src ++ NUL :: drop (k + 1) dst).

(** What a call of [expand_string] comes to, with the buffer [label] as
    it leaves it. *)
Inductive expand_result :=
| Expanded (label : list ascii)                  (* return (0) *)
| ExpandFailed (log : effect) (label : list ascii)  (* logged, return (-1) *)
| ExpandOverflow                                 (* a write behind [label] *)
| ExpandFuel.

Definition expand_string_too_long : effect :=
  log_debug "%s: string too long" [LogStr (lit "expand_string")].

(** The [while] loop and what follows it; [p] is an offset into [label],
    [tmp] the buffer of [len] bytes. *)
Fixpoint expand_string_loop (fuel : nat) (label : list ascii) (p : nat)
    (tmp : list ascii) (len : nat) (srch repl : cstring) : expand_result :=
  match fuel with
  | O => ExpandFuel
  | S fuel =>
      match strstr (c_str (drop p label)) srch with
      | Some i =>
          let q := (p + i)%nat in
          if (length label <=? q)%nat then ExpandOverflow
          else
            let label := <[q := NUL]> label in
            let '(tmp, n) := strlcat tmp (c_str (drop p label)) len in
            if (len <=? n)%nat then ExpandFailed expand_string_too_long label
            else
              let '(tmp, n) := strlcat tmp repl len in
              if (len <=? n)%nat then ExpandFailed expand_string_too_long label
              else
                expand_string_loop fuel label (q + length srch) tmp len srch repl
      | None =>
          let '(tmp, n) := strlcat tmp (c_str (drop p label)) len in
          if (len <=? n)%nat then ExpandFailed expand_string_too_long label
          else
            match strlcpy label (c_str tmp) len with   (* always fits *)
            | Some label => Expanded label
            | None => ExpandOverflow
            end
      end
  end.

Section ExpandString.

(** Whether [calloc(nmemb, size)] succeeds. *)
Variable calloc : Z -> Z -> bool.

Definition expand_string (fuel : nat) (label : list ascii) (len : nat)
    (srch repl : list ascii) : expand_result :=
  if negb (calloc 1 (Z.of_nat len)) then
    ExpandFailed (log_debug "%s: calloc" [LogStr (lit "expand_string")]) label
  else
    expand_string_loop fuel label 0 (replicate len NUL) len (c_str srch) (c_str repl).

End ExpandString.

(** Every occurrence of [srch] in [s] replaced by [repl], from left to
    right; [skip] characters of an occurrence are still to be passed
    over. *)
Fixpoint replace_all_from (srch repl : cstring) (skip : nat) (s : cstring)
  : cstring :=
  match s with
  | [] => []
  | c :: s' =>
      match skip with
      | S k => replace_all_from srch repl k s'
      | O =>
          if is_prefix srch s
          then repl ++ replace_all_from srch repl (length srch - 1) s'
          else c :: replace_all_from srch repl 0 s'
      end
  end.

Definition replace_all (srch repl s : cstring) : cstring :=
  replace_all_from srch repl 0 s.

(** The string up to the first occurrence of [srch], all of it when
    there is none. *)
Definition before_first (srch s : cstring) : cstring :=
  match strstr s srch with
  | Some i => take i s
  | None => s
  end.

(** ** Address masks and sockaddr_cmp (relayd.c) *)

(** The byte order of the host, what [htonl] and a [memcpy] into a
    [u_int32_t] depend on. *)
Inductive byte_order := LITTLE_ENDIAN | BIG_ENDIAN.

(** The number a sequence of bytes stands for, the lowest byte first
    and the highest byte first. *)
Fixpoint le_uint (b : list Z) : Z :=
  match b with
  | [] => 0
  | x :: b' => x + 2 ^ 8 * le_uint b'
  end.

Definition be_uint (b : list Z) : Z :=
  fold_left (fun acc x => acc * 2 ^ 8 + x) b 0.

(** The four bytes of a 32-bit number, the highest first. *)
Definition be32_bytes (x : Z) : list Z :=
  [(x / 2 ^ 24) mod 2 ^ 8; (x / 2 ^ 16) mod 2 ^ 8; (x / 2 ^ 8) mod 2 ^ 8;
   x mod 2 ^ 8].

Definition u_int8_t (n : Z) : Z := n mod 2 ^ 8.
Definition u_int32_t (n : Z) : Z := n mod 2 ^ 32.

(** A socket address as [sockaddr_cmp] reads it through its casts: the
    family, the four bytes of [sin_addr] of a [struct sockaddr_in] and
    the sixteen bytes of [sin6_addr] of a [struct sockaddr_in6], in the
    order they have in memory. *)
Record sockaddr := {
  sa_family : Z;
  sin_addr : list Z;
  sin6_addr : list Z;
}.

Section Sockaddr.

Variable BYTE_ORDER : byte_order.

(** The values of AF_UNSPEC and of the two address families in
    <sys/socket.h>. *)
Variable AF_UNSPEC : Z.
Variable af : address_family -> Z.

(** The [u_int32_t] that four bytes of memory hold. *)
Definition load_uint (b : list Z) : Z :=
  match BYTE_ORDER with
  | LITTLE_ENDIAN => le_uint b
  | BIG_ENDIAN => be_uint b
  end.

(** [htonl(3)]: the number whose bytes in memory are those of [x], the
    highest first. *)
Definition htonl (x : Z) : Z := load_uint (be32_bytes x).

(** [prefixlen2mask]; the parameter is a [u_int8_t]. *)
Definition prefixlen2mask (prefixlen : Z) : Z :=
  if prefixlen =? 0 then 0
  else
    let prefixlen := if 32 <? prefixlen then 32 else prefixlen in
    htonl (u_int32_t (Z.shiftl 0xffffffff (32 - prefixlen))).

(** [prefixlen2mask6]: the sixteen bytes of [s6], which are copied to
    [mask] and to which the pointer returned points. *)
Definition prefixlen2mask6 (prefixlen : Z) : list Z :=
  let prefixlen := if 128 <? prefixlen then 128 else prefixlen in
  let s6 := replicate 16 0 in
  let s6 := fold_left (fun s6 i => <[i := 0xff]> s6)
              (seq 0 (Z.to_nat (prefixlen / 8))) s6 in
  let i := prefixlen mod 8 in
  if negb (i =? 0)
  then <[Z.to_nat (prefixlen / 8) := u_int8_t (Z.shiftr 0xff00 i)]> s6
  else s6.

(** The four [u_int32_t] that [memcpy] makes of sixteen bytes. *)
Definition uint32x4 (b : list Z) : list Z :=
  [load_uint (take 4 b); load_uint (take 4 (drop 4 b));
   load_uint (take 4 (drop 8 b)); load_uint (take 4 (drop 12 b))].

(** One pair of comparisons of [sockaddr_cmp]; [next] is what follows
    them. *)
Definition sockaddr_cmp_word (av bv mv : Z) (next : Z) : Z :=
  if Z.land bv mv <? Z.land av mv then 1
  else if Z.land av mv <? Z.land bv mv then -1
  else next.

Definition sockaddr_cmp (a b : sockaddr) (prefixlen : Z) : Z :=
  if (sa_family a =? AF_UNSPEC) || (sa_family b =? AF_UNSPEC) then 0
  else if sa_family b <? sa_family a then 1
  else if sa_family a <? sa_family b then -1
  else if sa_family a =? af AF_INET then
    let av := load_uint (sin_addr a) in
    let bv := load_uint (sin_addr b) in
    let mv := if prefixlen =? -1 then 0xffffffff
              else prefixlen2mask (u_int8_t prefixlen) in
    sockaddr_cmp_word av bv mv 0
  else if sa_family a =? af AF_INET6 then
    let av := uint32x4 (sin6_addr a) in
    let bv := uint32x4 (sin6_addr b) in
    let mv := if prefixlen =? -1 then replicate 4 0xffffffff
              else uint32x4 (prefixlen2mask6 (u_int8_t prefixlen)) in
    let w (i : nat) (next : Z) :=
      sockaddr_cmp_word (av !!! i) (bv !!! i) (mv !!! i) next in
    w 3%nat (w 2%nat (w 1%nat (w 0%nat 0)))
  else 0.

End Sockaddr.

(** A sequence of bytes. *)
Definition is_bytes (b : list Z) : Prop := Forall (fun x => 0 <= x < 2 ^ 8) b.

(** The number of leading bits of an address that a prefix length given
    to [sockaddr_cmp] selects, in an address of [width] bits. *)
Definition prefix_bits (width prefixlen : Z) : Z :=
  if prefixlen =? -1 then width else Z.min (u_int8_t prefixlen) width.

(** The number with the [bits] highest of [width] bits set. *)
Definition high_bits (width bits : Z) : Z := 2 ^ width - 2 ^ (width - bits).

(** ** get_string and the dispatcher of the pf engine (relayd.c) *)

(** [isprint(3)] and [isspace(3)] in the C locale, the one the daemon
    runs in. *)
Definition isprint (c : ascii) : bool := (0x20 <=? uchar c) && (uchar c <=? 0x7e).

Definition isspace (c : ascii) : bool :=
  (uchar c =? 0x20) || ((0x09 <=? uchar c) && (uchar c <=? 0x0d)).

(** The [for] loop of [get_string]: the value of [i] when it ends,
    [None] when it reads behind the end of the buffer [ptr]. *)
Fixpoint get_string_scan (ptr : list ascii) (len : nat) {struct len}
  : option nat :=
  match len with
  | O => Some 0%nat
  | S len' =>
      match ptr with
      | [] => None
      | c :: ptr' =>
          if negb (isprint c || isspace c) then Some 0%nat
          else
            match get_string_scan ptr' len' with
            | Some i => Some (S i)
            | None => None
            end
      end
  end.

Inductive get_string_result :=
| GotString (str : list ascii)   (* the buffer allocated *)
| GotNULL                        (* calloc failed *)
| GetStringOverread.             (* a read behind the end of [ptr] *)

Section GetString.

Variable calloc : Z -> Z -> bool.

Definition get_string (ptr : list ascii) (len : nat) : get_string_result :=
  match get_string_scan ptr len with
  | None => GetStringOverread
  | Some i =>
      if negb (calloc 1 (Z.of_nat (i + 1))) then GotNULL
      else GotString (take i ptr ++ [NUL])   (* calloc, then memcpy of i bytes *)
  end.

End GetString.

Section ParentDispatch.
Context {H : relayd_h}.

Variable privsep_process : privsep_procid.
Variable open_pf_socket : option Z.
Variable load_config : list ascii -> relayd -> Z * relayd.
Variable calloc : Z -> Z -> bool.
Variable BYTE_ORDER : byte_order.

(** [sizeof(u_int)] *)
Definition sizeof_u_int : nat := 4.

(** [parent_dispatch_pfe] without the cases that are compiled out on
    FreeBSD; [data] is the payload of the message, [None] the return
    value -1. *)
Definition parent_dispatch_pfe (type : imsg_type) (data : list ascii)
    (getpid : Z) : M relayd (option unit) :=
  match type with
  | IMSG_CTL_RESET =>
      if (length data <? sizeof_u_int)%nat
      then fatalx "bad length imsg received"      (* IMSG_SIZE_CHECK *)
      else
        let v := load_uint BYTE_ORDER (map uchar (take sizeof_u_int data)) in
        parent_reload privsep_process open_pf_socket load_config v None ;;
        ret (Some tt)
  | IMSG_CTL_RELOAD =>
      str <- (if (0 <? length data)%nat then
                match get_string calloc data (length data) with
                | GotString str => ret (Some str)
                | GotNULL => ret None
                | GetStringOverread => undefined "get_string: read behind the data"
                end
              else ret None) ;;
      parent_reload privsep_process open_pf_socket load_config CONFIG_RELOAD str ;;
      ret (Some tt)
  | IMSG_CTL_SHUTDOWN => parent_shutdown getpid
  | IMSG_CFG_DONE => parent_configure_done privsep_process ;; ret (Some tt)
  | _ => ret None
  end.

End ParentDispatch.

(** ** The key table of the CA (relayd.c) *)

(** A key is registered under [objid]: [pkey_find] does not return
    NULL. *)
Definition registered (env : relayd) (objid : Z) : Prop :=
  exists key, pkey_find env objid = Some (Some key).

(** Whatever [pkey_find] finds in [env] it finds in [env']. *)
Definition pkeys_kept (env env' : relayd) : Prop :=
  forall objid key,
    pkey_find env objid = Some (Some key) -> pkey_find env' objid = Some (Some key).

(** What [ca_launch] is to register for a relay with one of the TLS
    flags. *)
Definition keys_registered {H : relayd_h} (rlay : relay) (env' : relayd) : Prop :=
  Z.land (rl_flags (rl_conf rlay)) (Z.lor F_SSL F_SSLCLIENT) <> 0 ->
  (ssl_key_len (rl_conf rlay) <> 0 -> registered env' (ssl_keyid (rl_conf rlay))) /\
  (ssl_cakey_len (rl_conf rlay) <> 0 ->
   registered env' (ssl_cakeyid (rl_conf rlay))).

(** ** A key operation from the relay to the CA and back *)

(** Modelled from the spec: the message layer (imsg.c, not among the
    sources) serialises the parts of an [iov] in a row; the receiver of a
    key operation reads a [struct ctl_keyop] from the start of the payload
    and takes the rest as bytes.  Each part contributes [iov_len] bytes. *)
Definition iov_payload (v : iovec) : list Z :=
  match iov_data v with
  | IovBytes b => take (Z.to_nat (iov_len v)) b
  | IovKeyop _ => []
  end.

Definition imsg_of_iov (type : imsg_type) (iov : list iovec) : imsg :=
  match iov with
  | {| iov_data := IovKeyop cko |} :: rest =>
      {| hdr_type := type; imsg_cko := Some cko;
         imsg_tail := concat (map iov_payload rest) |}
  | _ => {| hdr_type := type; imsg_cko := None; imsg_tail := [] |}
  end.

(** The request [rsae_send_imsg] composes. *)
Definition rsae_request (sizeof_cko proc_id flen : Z) (from : list Z) (objid : Z)
    (rsa : RSA) (padding : Z) : list iovec :=
  [ {| iov_data := IovKeyop {| cko_id := objid; cko_proc := proc_id;
                               cko_flen := flen; cko_tlen := RSA_size rsa;
                               cko_padding := padding |};
       iov_len := sizeof_cko |};
    {| iov_data := IovBytes from; iov_len := to_size_t flen |} ].

(** ** The rules a rule file gives (relayd.c) *)

(** The lines of a rule file that [rule_add] makes rules of: what
    [fgets] reads, cut at the first white space, without the empty ones
    and the comments. *)
Definition rule_file_lines (fp : list ascii) : list cstring :=
  List.filter (fun buf => match buf with
                          | [] => false
                          | c :: _ => negb (Ascii.eqb c "#")
                          end)
    (map (fun chunk => strip_at_space (c_str chunk))
       (fgets_chunks BUFSIZ fp [] (BUFSIZ - 1))).

(** The references [rule_inherit] takes and [rule_free] gives back. *)
Definition rule_ref_effects (on_label on_tag : Z -> effect) (rule : relay_rule)
  : list effect :=
  (if 0 <? rule_label rule then [on_label (rule_label rule)] else [])
  ++ (if 0 <? rule_tag rule then [on_tag (rule_tag rule)] else [])
  ++ (if 0 <? rule_tagged rule then [on_tag (rule_tagged rule)] else []).

(** ** The exact lookup of kv_find *)

(** [a] comes before [b] in the order of [kv_cmp]. *)
Definition kv_before (a b : kv) : Prop :=
  exists d, kv_cmp a b = Some d /\ d < 0.

(** The key of the record [m] is [key] up to the case of its letters. *)
Definition same_key (key : list ascii) (m : kv) : Prop :=
  exists mkey, kv_key m = Some mkey /\
               map tolower (c_str key) = map tolower (c_str mkey).

(** ** event_again (relayd.c) *)

(** [struct timeval]; the two members are integers, the times of a
    monotonic clock and the timeouts of a configuration being far from
    the bounds of [time_t]. *)
Record timeval := { tv_sec : Z; tv_usec : Z }.

(** The calls into libevent, with the event, its callback and the
    argument of the callback left out. *)
Inductive libevent_call :=
| event_del
| event_set (fd event : Z)
| event_add (tv : timeval).

(** [timersub(tvp, uvp, vvp)] and [timercmp(tvp, uvp, >)] of
    <sys/time.h>. *)
Definition timersub (tvp uvp : timeval) : timeval :=
  let sec := tv_sec tvp - tv_sec uvp in
  let usec := tv_usec tvp - tv_usec uvp in
  if usec <? 0 then {| tv_sec := sec - 1; tv_usec := usec + 1000000 |}
  else {| tv_sec := sec; tv_usec := usec |}.

Definition timercmp_gt (tvp uvp : timeval) : bool :=
  if tv_sec tvp =? tv_sec uvp then tv_usec uvp <? tv_usec tvp
  else tv_sec uvp <? tv_sec tvp.

(** [event_again]; [getmonotime] is what the clock shows at the
    call. *)
Definition event_again (fd event : Z) (getmonotime start end_ : timeval)
  : list libevent_call :=
  let tv_now := getmonotime in
  let tv_next := end_ in
  let tv_now := timersub tv_now start in
  let tv_next := timersub tv_next tv_now in
  let tv := {| tv_sec := 0; tv_usec := 0 |} in
  let tv := if timercmp_gt tv_next tv then tv_next else tv in
  [event_del; event_set fd event; event_add tv].

(** A time in microseconds, and what <sys/time.h> takes a valid
    [struct timeval] to be. *)
Definition usecs (t : timeval) : Z := tv_sec t * 1000000 + tv_usec t.

Definition timeval_valid (t : timeval) : Prop := 0 <= tv_usec t < 1000000.

(** ** map6to4 and map4to6 (relayd.c) *)

(** The sizes of <sys/socket.h> and <netinet/in.h> on the BSDs.  A
    [struct sockaddr_in] is [sin_len], [sin_family], two bytes of
    [sin_port], four of [sin_addr] and eight of [sin_zero]; a
    [struct sockaddr_in6] is [sin6_len], [sin6_family], two bytes of
    [sin6_port], four of [sin6_flowinfo], sixteen of [sin6_addr] and four
    of [sin6_scope_id]. *)
Definition sizeof_sockaddr_storage : nat := 128.
Definition sizeof_sockaddr_in : nat := 16.
Definition sizeof_sockaddr_in6 : nat := 28.

(** [memcpy(dst + off, src, n)] with the [n] bytes [src]. *)
Definition memcpy_at (dst : list Z) (off : nat) (src : list Z) : list Z :=
  take off dst ++ src ++ drop (off + length src) dst.

Definition INADDR_ANY : Z := 0.
Definition INADDR_BROADCAST : Z := 0xffffffff.

Definition IN_MULTICAST (i : Z) : bool := Z.land i 0xf0000000 =? 0xe0000000.

Section Map6to4.

Variable BYTE_ORDER : byte_order.
Variable af : address_family -> Z.

(** [ntohl(3)] is the function [htonl(3)] is. *)
Definition ntohl (x : Z) : Z := htonl BYTE_ORDER x.

(** The test both functions apply to [sin4->sin_addr.s_addr], here the
    four bytes of the member. *)
Definition in_addr_refused (sin_addr : list Z) : bool :=
  let s_addr := load_uint BYTE_ORDER sin_addr in
  (s_addr =? INADDR_ANY) || (s_addr =? INADDR_BROADCAST)
  || IN_MULTICAST (ntohl s_addr).

(** [map6to4]: the value returned and [*in6] afterwards.  [out4] is the
    local variable as the function finds it on the stack; [sin_len] and
    [sin_family] are members of eight bits. *)
Definition map6to4 (out4 in6 : list Z) : Z * list Z :=
  let out4 := memcpy_at out4 0 (replicate sizeof_sockaddr_in 0) in
  let out4 := <[0%nat := u_int8_t (Z.of_nat sizeof_sockaddr_in)]> out4 in  (* sin_len *)
  let out4 := <[1%nat := u_int8_t (af AF_INET)]> out4 in           (* sin_family *)
  let out4 := memcpy_at out4 2 (take 2 (drop 2 in6)) in            (* sin_port *)
  let out4 := memcpy_at out4 4 (take 4 (drop (8 + 12) in6)) in     (* sin_addr *)
  if in_addr_refused (take 4 (drop 4 out4)) then (-1, in6)
  else (0, memcpy_at in6 0 (take sizeof_sockaddr_storage out4)).

(** [map4to6]: the value returned and [*in4] afterwards. *)
Definition map4to6 (out6 in4 map : list Z) : Z * list Z :=
  if in_addr_refused (take 4 (drop 4 in4)) then (-1, in4)
  else
    let out6 := memcpy_at out6 0 (take sizeof_sockaddr_in6 map) in
    let out6 := <[0%nat := u_int8_t (Z.of_nat sizeof_sockaddr_in6)]> out6 in (* sin6_len *)
    let out6 := <[1%nat := u_int8_t (af AF_INET6)]> out6 in          (* sin6_family *)
    let out6 := memcpy_at out6 2 (take 2 (drop 2 in4)) in          (* sin6_port *)
    let out6 := memcpy_at out6 (8 + 12) (take 4 (drop 4 in4)) in   (* s6_addr[12] *)
    (0, memcpy_at in4 0 (take sizeof_sockaddr_storage out6)).

End Map6to4.

(** ** rule_settable (relayd.c) *)

(** [strcspn(3)]: the length of the start of the string that has no
    character of [reject]. *)
Fixpoint strcspn_from (s reject : cstring) : nat :=
  match s with
  | [] => 0%nat
  | c :: s' =>
      if existsb (Ascii.eqb c) reject then 0%nat
      else S (strcspn_from s' reject)
  end.

Definition strcspn (s : list ascii) (reject : cstring) : nat :=
  strcspn_from (c_str s) reject.

(** The two members of a [struct relay_rule] that [rule_settable] uses:
    the buffer [rule_tablename] and the pointer [rule_table]. *)
Record relay_rule_table := {
  rule_tablename : list ascii;
  rule_table : pointer;
}.

Section RuleSettable.

(** The size of a table name, of relayd.h. *)
Variable TABLE_NAME_SIZE : nat.

(** [rule_settable]: the rules afterwards.  [rlt] is the pointer given,
    [rlt_table] the buffer [rlt->rlt_table->conf.name], [None] when
    [rlt->rlt_table] is NULL, and [pname] the local array as the function
    finds it. *)
Definition rule_settable (pname : list ascii) (rules : list relay_rule_table)
    (rlt : pointer) (rlt_table : option (list ascii))
  : list relay_rule_table :=
  match rlt_table with
  | None => rules
  | Some name =>
      match strlcpy pname (c_str name) TABLE_NAME_SIZE with
      | None => rules                   (* [pname] has TABLE_NAME_SIZE bytes *)
      | Some pname =>
          if (TABLE_NAME_SIZE <=? length (c_str name))%nat then rules
          else
            let pname := <[strcspn pname [":"%char] := NUL]> pname in
            map (fun r =>
                   {| rule_tablename := rule_tablename r;
                      rule_table :=
                        if negb (is_nul (nth 0 (rule_tablename r) NUL))
                           && (strcmp pname (rule_tablename r) =? 0)
                        then rlt else NULL |})
                rules
      end
  end.

End RuleSettable.

(* ===================================================================== *)
(** * Part II: properties                                                 *)
(* ===================================================================== *)

Example canonicalize_host_example :
  canonicalize_host unit (fun _ _ => None) (fun _ _ _ => None)
    (lit "..WwW..Example.COM..") 32
  = CanonName (lit "www.example.com" ++ replicate 17 NUL).
Proof. vm_compute. reflexivity. Qed.

(** ** canonicalize_host *)

Lemma is_dot_true c : is_dot c = true <-> c = "."%char.
Proof. unfold is_dot. rewrite Ascii.eqb_eq. split; congruence. Qed.

Lemma is_nul_true c : is_nul c = true <-> c = NUL.
Proof. unfold is_nul. apply Ascii.eqb_eq. Qed.

Lemma tolower_not_upper c : isupper (tolower c) = false.
Proof.
  destruct c as [[] [] [] [] [] [] [] []]; vm_compute; reflexivity.
Qed.

Lemma tolower_not_nul c : is_nul c = false -> is_nul (tolower c) = false.
Proof.
  destruct c as [[] [] [] [] [] [] [] []]; vm_compute; congruence.
Qed.

Lemma c_str_no_nul buf : Forall (fun c => is_nul c = false) (c_str buf).
Proof.
  induction buf as [|c buf IH]; simpl; [constructor|].
  destruct (is_nul c) eqn:E; constructor; assumption.
Qed.

Lemma c_str_app_nul (s : cstring) (k : nat) :
  Forall (fun c => is_nul c = false) s ->
  c_str (s ++ replicate k NUL) = s.
Proof.
  induction 1 as [|c s Hc _ IH]; simpl.
  - destruct k; reflexivity.
  - rewrite Hc, IH. reflexivity.
Qed.

Lemma ends_dot_snoc out c : ends_dot (out ++ [c]) = is_dot c.
Proof. unfold ends_dot. rewrite last_snoc. reflexivity. Qed.

Lemma step1_test (out : cstring) (k : nat) :
  ((length out =? 0)%nat || is_dot (buf_get (out ++ replicate k NUL) (length out - 1)))
  = ends_dot out.
Proof.
  destruct out as [|c out _] using rev_ind; [reflexivity|].
  rewrite ends_dot_snoc, length_app. simpl.
  replace (length out + 1 - 1)%nat with (length out) by lia.
  replace (length out + 1 =? 0)%nat with false
    by (symmetry; apply Nat.eqb_neq; lia).
  unfold buf_get. rewrite <- app_assoc. simpl.
  rewrite list_lookup_middle by reflexivity. reflexivity.
Qed.

Lemma buf_write (out : cstring) (k : nat) (c : ascii) :
  <[length out := c]> (out ++ replicate (S k) NUL) = (out ++ [c]) ++ replicate k NUL.
Proof.
  rewrite insert_app_r_alt by lia. rewrite Nat.sub_diag. simpl.
  rewrite <- app_assoc. reflexivity.
Qed.

(** Step 1 writes the collapsed, lower-cased host behind what is already
    in the buffer, and never moves [j] past [len - 1]. *)
Lemma canon_step1_spec host : forall (out : cstring) (len : nat) name' j',
  (length out <= len - 1)%nat ->
  canon_step1 host (out ++ replicate (len - length out) NUL) (length out) len
    = Some (name', j') ->
  exists out',
    out' = out ++ spec_collapse_dots (ends_dot out) (map tolower host) /\
    name' = out' ++ replicate (len - j') NUL /\
    j' = length out' /\ (j' <= len - 1)%nat.
Proof.
  induction host as [|h rest IH]; intros out len name' j' Hj H; simpl in H.
  - inversion H; subst. exists out. simpl. rewrite app_nil_r. auto.
  - destruct (len - 1 <=? length out)%nat eqn:Hfull; [discriminate|].
    apply Nat.leb_gt in Hfull.
    rewrite step1_test in H. simpl.
    destruct (is_dot (tolower h)) eqn:Hd; simpl in H.
    + destruct (ends_dot out) eqn:He.
      * apply IH in H; [|assumption]. rewrite He in H. exact H.
      * replace (len - length out)%nat with (S (len - S (length out))) in H by lia.
        rewrite buf_write in H.
        replace (S (length out)) with (length (out ++ [tolower h])) in H
          by (rewrite length_app; simpl; lia).
        apply IH in H; [|rewrite length_app; simpl; lia].
        rewrite ends_dot_snoc, Hd, <- app_assoc in H. exact H.
    + replace (len - length out)%nat with (S (len - S (length out))) in H by lia.
      rewrite buf_write in H.
      replace (S (length out)) with (length (out ++ [tolower h])) in H
        by (rewrite length_app; simpl; lia).
      apply IH in H; [|rewrite length_app; simpl; lia].
      rewrite ends_dot_snoc, Hd, <- app_assoc in H.
      destruct (ends_dot out); exact H.
Qed.

Lemma strip_snoc (s : cstring) (c : ascii) :
  spec_strip_trailing_dots (s ++ [c])
  = if is_dot c then spec_strip_trailing_dots s else s ++ [c].
Proof.
  induction s as [|d s IH]; simpl.
  - destruct (is_dot c); reflexivity.
  - rewrite IH. destruct (is_dot c); [reflexivity|].
    destruct s; reflexivity.
Qed.

Lemma strip_prefix (s : cstring) :
  exists dots, s = spec_strip_trailing_dots s ++ dots /\
               Forall (fun c => is_dot c = true) dots.
Proof.
  induction s as [|c s IHs] using rev_ind.
  - exists []. split; [reflexivity | constructor].
  - rewrite strip_snoc. destruct (is_dot c) eqn:Hc.
    + destruct IHs as (dots & Hs & Hd). exists (dots ++ [c]). split.
      * rewrite app_assoc, <- Hs. reflexivity.
      * apply Forall_app. split; [assumption | repeat constructor; assumption].
    + exists []. split; [rewrite app_nil_r; reflexivity | constructor].
Qed.

Lemma strip_last (s : cstring) :
  last (spec_strip_trailing_dots s) <> Some "."%char.
Proof.
  induction s as [|c s IH] using rev_ind; [discriminate|].
  rewrite strip_snoc. destruct (is_dot c) eqn:Hc; [assumption|].
  rewrite last_snoc. intros [= ->]. discriminate.
Qed.

(** Step 2 clears the dots at the end of what step 1 wrote. *)
Lemma canon_step2_spec (out : cstring) : forall (k : nat),
  canon_step2 (length out) (out ++ replicate k NUL) (length out)
  = (spec_strip_trailing_dots out
       ++ replicate (k + (length out - length (spec_strip_trailing_dots out))) NUL,
     length (spec_strip_trailing_dots out)).
Proof.
  induction out as [|c out IH] using rev_ind; intros k.
  - simpl. rewrite Nat.add_0_r. reflexivity.
  - rewrite strip_snoc, length_app. simpl.
    replace (length out + 1)%nat with (S (length out)) by lia. simpl.
    unfold buf_get at 1. rewrite <- app_assoc. simpl.
    rewrite list_lookup_middle by reflexivity. simpl.
    destruct (is_dot c) eqn:Hc.
    + rewrite insert_app_r_alt by lia. rewrite Nat.sub_diag. simpl.
      rewrite Nat.sub_0_r.
      change (NUL :: replicate k NUL) with (replicate (S k) NUL).
      rewrite IH. f_equal. f_equal. f_equal.
      destruct (strip_prefix out) as (dots & Hs & _).
      apply (f_equal length) in Hs. rewrite length_app in Hs. lia.
    + rewrite length_app. simpl.
      replace (k + (S (length out) - (length out + 1)))%nat with k by lia.
      replace (length out + 1)%nat with (S (length out)) by lia.
      rewrite <- app_assoc. reflexivity.
Qed.

Lemma collapse_no_nul p (s : cstring) :
  Forall (fun c => is_nul c = false) s ->
  Forall (fun c => is_nul c = false) (spec_collapse_dots p s).
Proof.
  intros H. revert p. induction H as [|c s Hc _ IH]; intros p; simpl.
  - constructor.
  - destruct (is_dot c); [destruct p|]; auto.
Qed.

Lemma collapse_no_upper p (s : cstring) :
  no_upper_case s -> no_upper_case (spec_collapse_dots p s).
Proof.
  unfold no_upper_case. intros H. revert p.
  induction H as [|c s Hc _ IH]; intros p; simpl.
  - constructor.
  - destruct (is_dot c); [destruct p|]; auto.
Qed.

Lemma collapse_head p (s : cstring) :
  spec_collapse_dots p s !! 0%nat = Some "."%char -> p = false.
Proof.
  revert p. induction s as [|c s IH]; intros p; simpl; [discriminate|].
  destruct (is_dot c) eqn:Hc.
  - destruct p; [|reflexivity]. intros H. apply IH in H. discriminate.
  - simpl. intros [= ->]. discriminate.
Qed.

Lemma collapse_no_dotdot (s : cstring) : forall p (i : nat),
  spec_collapse_dots p s !! i = Some "."%char ->
  spec_collapse_dots p s !! S i <> Some "."%char.
Proof.
  induction s as [|c s IH]; intros p i; simpl; [discriminate|].
  destruct (is_dot c) eqn:Hc.
  - destruct p; [apply IH|].
    destruct i as [|i]; simpl; [|apply IH].
    intros _ H. apply collapse_head in H. discriminate.
  - destruct i as [|i]; simpl; [|apply IH].
    intros [= ->]. discriminate.
Qed.

Lemma canonical_form_no_empty_label host :
  no_empty_label (spec_canonical_form host).
Proof.
  unfold spec_canonical_form, no_empty_label.
  destruct (strip_prefix (spec_collapse_dots true (map tolower host)))
    as (dots & Hs & _).
  set (t := spec_strip_trailing_dots _) in *.
  split.
  - intros H. apply (lookup_app_l_Some _ dots) in H. rewrite <- Hs in H.
    apply collapse_head in H. discriminate.
  - intros i H Hn. apply (lookup_app_l_Some _ dots) in H, Hn.
    rewrite <- Hs in H, Hn. exact (collapse_no_dotdot _ _ _ H Hn).
Qed.

Lemma canonical_form_props host :
  Forall (fun c => is_nul c = false) host ->
  Forall (fun c => is_nul c = false) (spec_canonical_form host) /\
  no_upper_case (spec_canonical_form host) /\
  (length (spec_canonical_form host)
     <= length (spec_collapse_dots true (map tolower host)))%nat.
Proof.
  intros Hn. unfold spec_canonical_form.
  destruct (strip_prefix (spec_collapse_dots true (map tolower host)))
    as (dots & Hs & _).
  assert (H1 : Forall (fun c => is_nul c = false)
                 (spec_collapse_dots true (map tolower host))).
  { apply collapse_no_nul. apply Forall_map.
    eapply Forall_impl; [exact Hn|]. intros c. apply tolower_not_nul. }
  assert (H2 : no_upper_case (spec_collapse_dots true (map tolower host))).
  { apply collapse_no_upper. unfold no_upper_case. apply Forall_map.
    apply Forall_forall. intros c _. apply tolower_not_upper. }
  unfold no_upper_case in *.
  rewrite Hs in H1, H2. apply Forall_app in H1, H2.
  split; [apply H1|]. split; [apply H2|].
  rewrite Hs at 2. rewrite length_app. lia.
Qed.

(** C10: on an input that is no IPv4 or IPv6 literal, [canonicalize_host]
    either fails with EINVAL or returns the caller's buffer holding a
    non-empty name without upper-case letters, without empty labels and
    without a trailing dot, NUL-terminated inside the [len] bytes; it
    fails whenever [len < 2], or the canonical form is empty, or the
    canonical form does not fit. *)
Theorem canonicalize_host_hostname
  (sockaddr : Type)
  (inet_pton : address_family -> cstring -> option sockaddr)
  (inet_ntop : address_family -> sockaddr -> nat -> option cstring)
  (host : list ascii) (len : nat) :
  inet_pton AF_INET (c_str host) = None ->
  inet_pton AF_INET6 (c_str host) = None ->
  Z.of_nat (length (c_str host)) < 2 ^ 32 ->
  let r := canonicalize_host sockaddr inet_pton inet_ntop host len in
  (r = CanonEINVAL \/
   exists name, r = CanonName name /\ length name = len /\
     c_str name = spec_canonical_form (c_str host) /\
     c_str name <> [] /\ (length (c_str name) < len)%nat /\
     no_upper_case (c_str name) /\ no_empty_label (c_str name) /\
     last (c_str name) <> Some "."%char) /\
  ((len < 2)%nat \/ spec_canonical_form (c_str host) = [] \/
   (len <= length (spec_canonical_form (c_str host)))%nat ->
   r = CanonEINVAL).
Proof.
  intros H4 H6 _ r. subst r. unfold canonicalize_host.
  destruct (len <? 2)%nat eqn:Hlen.
  { split; [left; reflexivity | reflexivity]. }
  apply Nat.ltb_ge in Hlen. rewrite H4, H6.
  destruct (canon_step1 (c_str host) (replicate len NUL) 0 len)
    as [[name j]|] eqn:H1.
  2:{ split; [left; reflexivity | reflexivity]. }
  pose proof (canon_step1_spec (c_str host) [] len name j) as Hs.
  simpl in Hs. rewrite Nat.sub_0_r in Hs.
  destruct (Hs ltac:(lia) H1) as (out & Hout & Hname & Hj & Hfit).
  clear Hs H1. subst name j.
  rewrite canon_step2_spec.
  change (ends_dot []) with true in Hout.
  assert (Hcf : spec_strip_trailing_dots out = spec_canonical_form (c_str host))
    by (rewrite Hout; reflexivity).
  rewrite Hcf.
  destruct (canonical_form_props (c_str host) (c_str_no_nul host))
    as (Hnn & Hup & Hle).
  rewrite <- Hout in Hle.
  destruct (length (spec_canonical_form (c_str host)) <=? 0)%nat eqn:He.
  { split; [left; reflexivity | reflexivity]. }
  apply Nat.leb_gt in He.
  split.
  - right. eexists. split; [reflexivity|].
    rewrite c_str_app_nul by assumption.
    split; [rewrite length_app, length_replicate; lia|].
    split; [reflexivity|].
    split; [intros E; rewrite E in He; simpl in He; lia|].
    split; [lia|].
    split; [assumption|].
    split; [apply canonical_form_no_empty_label|].
    rewrite <- Hcf. apply strip_last.
  - intros [Hl | [Hl | Hl]]; [lia | rewrite Hl in He; simpl in He; lia | lia].
Qed.

(** The recogniser of address literals used to run the property: it
    accepts the two loopback literals only. *)
Lemma canonicalize_host_hostname_witness :
  let pton := fun (af : address_family) (s : cstring) =>
    match af with
    | AF_INET => if decide (s = lit "127.0.0.1") then Some s else None
    | AF_INET6 => if decide (s = lit "::1") then Some s else None
    end in
  let ntop := fun (_ : address_family) (a : cstring) (_ : nat) => Some a in
  let host := lit "WWW..Example.ORG." in
  let r := canonicalize_host cstring pton ntop host 32 in
  r = CanonName (lit "www.example.org" ++ replicate 17 NUL) /\
  ((r = CanonEINVAL \/
    exists name, r = CanonName name /\ length name = 32%nat /\
      c_str name = spec_canonical_form (c_str host) /\
      c_str name <> [] /\ (length (c_str name) < 32)%nat /\
      no_upper_case (c_str name) /\ no_empty_label (c_str name) /\
      last (c_str name) <> Some "."%char) /\
   ((32 < 2)%nat \/ spec_canonical_form (c_str host) = [] \/
    (32 <= length (spec_canonical_form (c_str host)))%nat ->
    r = CanonEINVAL)).
Proof.
  intros pton ntop host r. split; [vm_compute; reflexivity|].
  refine (canonicalize_host_hostname cstring pton ntop host 32 _ _ _);
    vm_compute; reflexivity.
Defined.

(** ** strcasecmp is a strict order on lowered strings *)

Lemma uchar_inj c d : uchar c = uchar d -> c = d.
Proof.
  unfold uchar. intros H. apply Nat2Z.inj in H.
  rewrite <- (ascii_nat_embedding c), <- (ascii_nat_embedding d), H.
  reflexivity.
Qed.

Lemma uchar_nonneg c : 0 <= uchar c.
Proof. unfold uchar. lia. Qed.

Lemma ascii_eqb_uchar c d : Ascii.eqb c d = (uchar c =? uchar d).
Proof.
  destruct (Ascii.eqb_spec c d) as [->|Hne].
  - symmetry. apply Z.eqb_refl.
  - symmetry. apply Z.eqb_neq. intros E. apply Hne, uchar_inj, E.
Qed.

Lemma lchar_pos c : is_nul c = false -> 0 < lchar c.
Proof.
  intros Hc. apply tolower_not_nul in Hc. unfold lchar.
  pose proof (uchar_nonneg (tolower c)).
  assert (uchar (tolower c) <> 0); [|lia].
  intros E. change 0 with (uchar NUL) in E. apply uchar_inj in E.
  apply is_nul_true in E. congruence.
Qed.

Lemma strcasecmp_from_cons c a d b :
  strcasecmp_from (c :: a) (d :: b)
  = if lchar c =? lchar d then strcasecmp_from a b else lchar c - lchar d.
Proof. simpl. rewrite ascii_eqb_uchar. reflexivity. Qed.

Lemma strcasecmp_from_antisym a : forall b,
  strcasecmp_from b a = - strcasecmp_from a b.
Proof.
  induction a as [|c a IH]; intros [|d b]; try reflexivity.
  - simpl. lia.
  - rewrite !strcasecmp_from_cons, (Z.eqb_sym (lchar d)).
    destruct (lchar c =? lchar d); [apply IH | lia].
Qed.

Lemma strcasecmp_from_zero a : forall b,
  no_nul a -> no_nul b ->
  (strcasecmp_from a b = 0 <-> map tolower a = map tolower b).
Proof.
  induction a as [|c a IH]; intros [|d b] Ha Hb.
  - simpl. tauto.
  - apply Forall_cons in Hb as [Hd _]. apply lchar_pos in Hd.
    simpl. fold (lchar d). split; [lia | discriminate].
  - apply Forall_cons in Ha as [Hc _]. apply lchar_pos in Hc.
    simpl. fold (lchar c). split; [lia | discriminate].
  - apply Forall_cons in Ha as [_ Ha]. apply Forall_cons in Hb as [_ Hb].
    rewrite strcasecmp_from_cons. simpl.
    destruct (Z.eqb_spec (lchar c) (lchar d)) as [E|E].
    + apply uchar_inj in E. rewrite (IH b Ha Hb), E.
      split; [intros ->; reflexivity | intros [= ->]; reflexivity].
    + split; [lia | intros [= E' _]; unfold lchar in E; congruence].
Qed.

Lemma lchar_nonneg c : 0 <= lchar c.
Proof. apply uchar_nonneg. Qed.

(** Case analysis on the character comparisons left in the goal. *)
Ltac lchar_cases :=
  repeat match goal with
  | |- context [uchar (tolower ?c)] => fold (lchar c)
  end;
  repeat match goal with
  | |- context [lchar ?c =? lchar ?d] =>
      destruct (Z.eqb_spec (lchar c) (lchar d))
  end;
  repeat match goal with
  | |- context [lchar ?c] =>
      lazymatch goal with
      | _ : 0 <= lchar c |- _ => fail
      | _ => pose proof (lchar_nonneg c)
      end
  end.

Lemma strcasecmp_from_trans a : forall b c,
  no_nul c ->
  strcasecmp_from a b < 0 -> strcasecmp_from b c < 0 ->
  strcasecmp_from a c < 0.
Proof.
  induction a as [|x a IH]; intros [|y b] [|z c] Hc;
    rewrite ?strcasecmp_from_cons; simpl;
    try (apply Forall_cons in Hc as [Hz Hc]; apply lchar_pos in Hz);
    lchar_cases; try lia.
  apply IH. exact Hc.
Qed.

Lemma strcasecmp_from_zero_l a a' b :
  no_nul a -> no_nul a' -> no_nul b ->
  strcasecmp_from a a' = 0 -> strcasecmp_from a b = strcasecmp_from a' b.
Proof.
  intros Ha Ha' Hb E. apply strcasecmp_from_zero in E; [|assumption..].
  clear Ha Ha' Hb. revert a' b E.
  induction a as [|x a IH]; intros [|y a'] b E; try discriminate; [reflexivity|].
  injection E as Exy E.
  destruct b as [|z b]; simpl; [rewrite Exy; reflexivity|].
  rewrite Exy. rewrite (IH a' b E). reflexivity.
Qed.

Lemma strcasecmp_trans a b c :
  strcasecmp a b < 0 -> strcasecmp b c < 0 -> strcasecmp a c < 0.
Proof. apply strcasecmp_from_trans, c_str_no_nul. Qed.

Lemma strcasecmp_zero_l a a' b :
  strcasecmp a a' = 0 -> strcasecmp a b = strcasecmp a' b.
Proof. apply strcasecmp_from_zero_l; apply c_str_no_nul. Qed.

(** ** A pattern without metacharacters matches like strcasecmp *)

Lemma fnmatch_norm_spec pc str continue :
  fnmatch_norm pc str continue = true <->
  exists sc str', str = sc :: str' /\ tolower pc = tolower sc /\
                  continue str' = true.
Proof.
  unfold fnmatch_norm, is_char. destruct str as [|sc str'].
  - split; [discriminate | intros (? & ? & [=] & _)].
  - destruct (Ascii.eqb_spec pc sc) as [->|Hne]; simpl.
    + split; [eauto | intros (? & ? & [= <- <-] & _ & Hk); exact Hk].
    + destruct (Ascii.eqb_spec (tolower pc) (tolower sc)) as [E|E].
      * split; [eauto | intros (? & ? & [= <- <-] & _ & Hk); exact Hk].
      * split; [discriminate | intros (? & ? & [= <- <-] & E' & _); contradiction].
Qed.

Lemma not_glob_char pc :
  existsb (Ascii.eqb pc) glob_chars = false ->
  is_char "?" pc = false /\ is_char "*" pc = false /\ is_char "[" pc = false.
Proof.
  unfold is_char. rewrite !(Ascii.eqb_sym _ pc). cbn.
  destruct (Ascii.eqb pc "*"), (Ascii.eqb pc "?"), (Ascii.eqb pc "[");
    cbn; intros; auto; discriminate.
Qed.

Lemma fnmatch1_plain pattern : forall str fuel,
  (length pattern < fuel)%nat ->
  strpbrk pattern glob_chars = false ->
  strchr pattern "\"%char = false ->
  (fnmatch1 fuel pattern str = true <-> map tolower pattern = map tolower str).
Proof.
  induction pattern as [|pc pattern IH]; intros str [|fuel] Hfuel Hg He;
    try (simpl in Hfuel; lia).
  - destruct str; simpl; split; congruence.
  - unfold strpbrk, strchr in Hg, He. cbn [existsb] in Hg, He.
    apply orb_false_elim in Hg as [Hpc Hg].
    apply orb_false_elim in He as [Hx He].
    apply not_glob_char in Hpc as (Hq & Hs & Hb).
    cbn [fnmatch1]. unfold is_char in *.
    rewrite Hq, Hs, Hb, Hx, fnmatch_norm_spec.
    simpl in Hfuel. split.
    + intros (sc & str' & -> & Hc & Hk).
      apply IH in Hk; [|lia|assumption..]. simpl. congruence.
    + destruct str as [|sc str']; [discriminate|]. simpl. intros [= Hc Hk].
      exists sc, str'. split; [reflexivity|]. split; [assumption|].
      apply IH; [lia|assumption..].
Qed.

Lemma fnmatch_plain key mkey :
  strpbrk (c_str key) glob_chars = false ->
  strchr (c_str key) "\"%char = false ->
  fnmatch key mkey = (strcasecmp key mkey =? 0).
Proof.
  intros Hg He. unfold fnmatch, strcasecmp.
  apply eq_true_iff_eq. rewrite Z.eqb_eq.
  rewrite fnmatch1_plain by (try lia; assumption).
  symmetry. apply strcasecmp_from_zero; apply c_str_no_nul.
Qed.

(** ** The two lookups of kv_find *)

Lemma kv_find_glob_plain key records :
  Forall (fun m => kv_key m <> None) records ->
  strpbrk (c_str key) glob_chars = false ->
  strchr (c_str key) "\"%char = false ->
  kv_find_glob key records = Some (find (key_equal key) records).
Proof.
  intros Hk Hg He. induction Hk as [|m records Hm _ IH]; [reflexivity|].
  simpl. unfold key_equal at 1. destruct (kv_key m) as [mkey|]; [|contradiction].
  rewrite fnmatch_plain by assumption.
  destruct (strcasecmp key mkey =? 0); [reflexivity | exact IH].
Qed.

Lemma kvtree_ordered_node c l e r :
  kvtree_ordered (RB_NODE c l e r) = true ->
  kvtree_ordered l = true /\ kvtree_ordered r = true /\ kv_key e <> None /\
  Forall (fun x => exists d, kv_cmp x e = Some d /\ d < 0) (RB_FOREACH l) /\
  Forall (fun x => exists d, kv_cmp e x = Some d /\ d < 0) (RB_FOREACH r).
Proof.
  cbn [kvtree_ordered]. rewrite !andb_true_iff, !forallb_forall.
  intros ((((Hl & Hr) & He) & Hlt) & Hgt).
  split; [assumption|]. split; [assumption|].
  split; [destruct (kv_key e); [discriminate | discriminate]|].
  split; apply List.Forall_forall; intros x Hx.
  - apply Hlt in Hx. unfold kv_lt in Hx. destruct (kv_cmp x e) as [d|]; [|discriminate].
    exists d. split; [reflexivity | apply Z.ltb_lt, Hx].
  - apply Hgt in Hx. unfold kv_lt in Hx. destruct (kv_cmp e x) as [d|]; [|discriminate].
    exists d. split; [reflexivity | apply Z.ltb_lt, Hx].
Qed.

Lemma kvtree_ordered_keys t :
  kvtree_ordered t = true -> Forall (fun m => kv_key m <> None) (RB_FOREACH t).
Proof.
  induction t as [|c l IHl e r IHr]; [constructor|].
  intros Ht. apply kvtree_ordered_node in Ht as (Hl & Hr & He & _ & _).
  cbn [RB_FOREACH]. apply Forall_app. split; [auto|].
  constructor; auto.
Qed.

Lemma find_none_Forall {A} (f : A -> bool) (l : list A) :
  Forall (fun x => f x = false) l -> find f l = None.
Proof.
  induction 1 as [|x l Hx _ IH]; [reflexivity|]. simpl. rewrite Hx. exact IH.
Qed.

Lemma find_middle {A} (f : A -> bool) (l r : list A) (e : A) :
  find f (l ++ e :: r) =
  match find f l with
  | Some x => Some x
  | None => if f e then Some e else find f r
  end.
Proof.
  induction l as [|x l IH]; [reflexivity|]. simpl.
  destruct (f x); [reflexivity | exact IH].
Qed.

Lemma RB_FIND_spec t pat key :
  kvtree_ordered t = true -> kv_key pat = Some key ->
  RB_FIND t pat = Some (find (key_equal key) (RB_FOREACH t)).
Proof.
  intros Ht Hpat. induction t as [|c l IHl e r IHr]; [reflexivity|].
  apply kvtree_ordered_node in Ht as (Hl & Hr & He & Hlt & Hgt). specialize (IHl Hl). specialize (IHr Hr).
  cbn [RB_FIND RB_FOREACH]. rewrite find_middle.
  unfold kv_cmp at 1. rewrite Hpat.
  destruct (kv_key e) as [ke|] eqn:Hke; [|contradiction].
  assert (Hleft : 0 <= strcasecmp key ke ->
                  find (key_equal key) (RB_FOREACH l) = None).
  { intros Hc. apply find_none_Forall. eapply Forall_impl; [exact Hlt|].
    intros x (d & Hd & Hneg). unfold kv_cmp in Hd. rewrite Hke in Hd.
    unfold key_equal. destruct (kv_key x) as [kx|]; [|reflexivity].
    injection Hd as <-. apply Z.eqb_neq. intros E.
    apply (strcasecmp_zero_l key kx ke) in E. lia. }
  assert (Hright : strcasecmp key ke < 0 ->
                   find (key_equal key) (RB_FOREACH r) = None).
  { intros Hc. apply find_none_Forall. eapply Forall_impl; [exact Hgt|].
    intros x (d & Hd & Hneg). unfold kv_cmp in Hd. rewrite Hke in Hd.
    unfold key_equal. destruct (kv_key x) as [kx|]; [|reflexivity].
    injection Hd as <-. apply Z.eqb_neq.
    pose proof (strcasecmp_trans key ke kx Hc Hneg). lia. }
  unfold key_equal at 2. rewrite Hke.
  destruct (Z.ltb_spec (strcasecmp key ke) 0) as [Hc|Hc].
  - rewrite IHl, (Hright Hc).
    replace (strcasecmp key ke =? 0) with false by (symmetry; apply Z.eqb_neq; lia).
    destruct (find _ (RB_FOREACH l)); reflexivity.
  - rewrite (Hleft Hc).
    destruct (Z.ltb_spec 0 (strcasecmp key ke)) as [Hc'|Hc'].
    + replace (strcasecmp key ke =? 0) with false by (symmetry; apply Z.eqb_neq; lia).
      exact IHr.
    + replace (strcasecmp key ke =? 0) with true by (symmetry; apply Z.eqb_eq; lia).
      reflexivity.
Qed.

(** C6 (amended): on a tree ordered by [kv_cmp], for a key without glob
    metacharacters and without a backslash, the glob scan and the exact
    tree lookup of [kv_find] return the same record, or both none; no
    lookup faults, and [kv_find] gives this answer whatever the GLOBBING
    flag of the pattern says. *)
Theorem kv_find_glob_exact_parity {H : relayd_h}
  (keys : kvtree) (pat : kv) (key : list ascii) :
  kvtree_ordered keys = true ->
  kv_key pat = Some key ->
  strpbrk (c_str key) glob_chars = false ->
  strchr (c_str key) "\"%char = false ->
  kv_find_glob key (RB_FOREACH keys) = RB_FIND keys pat /\
  (exists r, RB_FIND keys pat = Some r) /\
  (forall pat', kv_key pat' = Some key -> kv_find keys pat' = RB_FIND keys pat).
Proof.
  intros Ht Hpat Hg He.
  rewrite (RB_FIND_spec keys pat key Ht Hpat).
  rewrite kv_find_glob_plain by (try apply kvtree_ordered_keys; assumption).
  split; [reflexivity|]. split; [eauto|].
  intros pat' Hpat'. unfold kv_find. rewrite Hpat'.
  destruct (flag_test (kv_flags pat') KV_FLAG_GLOBBING).
  - apply kv_find_glob_plain; [apply kvtree_ordered_keys|..]; assumption.
  - apply RB_FIND_spec; assumption.
Qed.

Lemma kv_find_glob_exact_parity_witness :
  let rec := fun k v : string =>
    {| kv_key := Some (lit k); kv_value := Some (lit v); kv_type := 2%nat;
       kv_option := 0%nat; kv_flags := 0 |} in
  let keys :=
    RB_NODE RB_BLACK
      (RB_NODE RB_RED RB_NIL (rec "Accept"%string "*/*"%string) RB_NIL)
      (rec "Host"%string "api.example.com"%string)
      (RB_NODE RB_RED RB_NIL (rec "User-Agent"%string "curl"%string) RB_NIL) in
  let pat :=
    {| kv_key := Some (lit "HOST"); kv_value := None; kv_type := 2%nat;
       kv_option := 0%nat; kv_flags := 0 |} in
  RB_FIND keys pat = Some (Some (rec "Host"%string "api.example.com"%string)) /\
  (kv_find_glob (lit "HOST") (RB_FOREACH keys) = RB_FIND keys pat /\
   (exists r, RB_FIND keys pat = Some r) /\
   (forall pat', kv_key pat' = Some (lit "HOST") ->
      kv_find (H := relayd_h_values) keys pat' = RB_FIND keys pat)).
Proof.
  intros rec keys pat. split; [vm_compute; reflexivity|].
  refine (kv_find_glob_exact_parity (H := relayd_h_values) keys pat (lit "HOST")
            _ _ _ _);
    vm_compute; reflexivity.
Defined.

(** C6 as stated fails on a key with a backslash: "a\b" holds none of
    '*', '?', '[', the glob scan reads the backslash as an escape and
    returns the record "ab", the exact lookup finds nothing. *)
Lemma kv_find_parity_counterexample :
  let rec :=
    {| kv_key := Some (lit "ab"); kv_value := Some (lit "1"); kv_type := 2%nat;
       kv_option := 0%nat; kv_flags := 0 |} in
  let keys := RB_NODE RB_BLACK RB_NIL rec RB_NIL in
  let pat :=
    {| kv_key := Some (lit "a\b"); kv_value := None; kv_type := 2%nat;
       kv_option := 0%nat; kv_flags := 0 |} in
  kvtree_ordered keys = true /\
  strpbrk (c_str (lit "a\b")) glob_chars = false /\
  kv_find_glob (lit "a\b") (RB_FOREACH keys) = Some (Some rec) /\
  RB_FIND keys pat = Some None /\
  kv_find_glob (lit "a\b") (RB_FOREACH keys) <> RB_FIND keys pat /\
  kv_find (H := relayd_h_values) keys (set_kv_flags 4 pat)
    <> kv_find (H := relayd_h_values) keys pat.
Proof.
  intros rec keys pat. repeat split; try (vm_compute; reflexivity);
    vm_compute; discriminate.
Qed.

(** ** The reload protocol of the parent *)

Section ParentProperties.
Context {H : relayd_h}.
Variable privsep_process : privsep_procid.
Variable open_pf_socket : option Z.
Variable load_config : list ascii -> relayd -> Z * relayd.

Lemma bind_ret_l {S A B} (a : A) (k : A -> M S B) (s : S) :
  bind (ret a) k s = k a s.
Proof. unfold bind, ret. destruct (k a s). reflexivity. Qed.

Lemma foreach_emit {S A} (l : list A) (f : A -> effect) (s : S) :
  foreach l (fun x => emit (f x)) s = (map f l, Ret tt s).
Proof.
  induction l as [|x l IH]; [reflexivity|].
  simpl. unfold bind. simpl. rewrite IH. reflexivity.
Qed.

Lemma parent_configure_cfg_done_total ids env :
  exists tr ok,
    parent_configure_cfg_done privsep_process open_pf_socket ids env
    = (tr, Ret ok env).
Proof.
  induction ids as [|id ids (tr & ok & IH)]; [eexists _, _; reflexivity|].
  simpl. destruct (procid_eqb id privsep_process); [eauto|].
  unfold bind, get. simpl.
  destruct (flag_test (sc_flags env) F_NEEDPF && procid_eqb id PROC_PFE).
  - destruct open_pf_socket; simpl.
    + rewrite IH. eexists _, _; reflexivity.
    + eexists _, _; reflexivity.
  - simpl. rewrite IH. eexists _, _; reflexivity.
Qed.

(** [parent_configure] always returns, with the counter at 2 + 2N. *)
Lemma parent_configure_sets_reload env :
  exists tr rc env',
    parent_configure privsep_process open_pf_socket env = (tr, Ret rc env') /\
    sc_reload env' = 2 + 2 * sc_prefork_relay env /\
    sc_prefork_relay env' = sc_prefork_relay env.
Proof.
  unfold parent_configure, bind, get, put.
  rewrite !foreach_emit.
  cbn -[parent_configure_cfg_done all_procs].
  destruct (parent_configure_cfg_done_total all_procs
    (set_sc_reload (2 + 2 * sc_prefork_relay env)
       (set_sc_relays (map check_ssl_inspection (sc_relays env)) env)))
    as (tr & ok & ->).
  cbn. eexists _, _, _. split; [reflexivity|]. cbn. auto.
Qed.

Lemma parent_configure_done_zero env :
  sc_reload env = 0 ->
  parent_configure_done privsep_process env
  = ([log_warnx "%s: configuration already finished"
        [LogStr (lit "parent_configure_done")]], Ret tt env).
Proof.
  intros E. unfold parent_configure_done, bind, get. simpl. rewrite E. reflexivity.
Qed.

Lemma ctl_start_foreach (ids : list privsep_procid) (env : relayd) :
  foreach ids (fun id =>
    if procid_eqb id privsep_process then ret tt
    else emit (proc_compose_imsg id (-1) IMSG_CTL_START (-1) [])) env
  = (map (fun id => proc_compose_imsg id (-1) IMSG_CTL_START (-1) [])
       (List.filter (fun id => negb (procid_eqb id privsep_process)) ids),
     Ret tt env).
Proof.
  induction ids as [|id ids IH]; [reflexivity|].
  simpl. unfold bind. destruct (procid_eqb id privsep_process); simpl;
    rewrite IH; reflexivity.
Qed.

Lemma parent_configure_done_step env :
  sc_reload env <> 0 ->
  parent_configure_done privsep_process env
  = (if sc_reload env =? 1 then ctl_start_broadcast privsep_process else [],
     Ret tt (set_sc_reload (sc_reload env - 1) env)).
Proof.
  intros E. unfold parent_configure_done, bind, get, put.
  apply Z.eqb_neq in E. cbn -[foreach all_procs Z.sub]. rewrite E.
  cbn -[foreach all_procs Z.sub].
  destruct (Z.eqb_spec (sc_reload env) 1) as [E1|E1].
  - rewrite E1. change (1 - 1 =? 0) with true. cbv iota.
    rewrite ctl_start_foreach. reflexivity.
  - replace (sc_reload env - 1 =? 0) with false
      by (symmetry; apply Z.eqb_neq; lia).
    reflexivity.
Qed.

Lemma set_sc_reload_same env : set_sc_reload (sc_reload env) env = env.
Proof. destruct env; reflexivity. Qed.

Lemma set_sc_reload_twice n m env :
  set_sc_reload n (set_sc_reload m env) = set_sc_reload n env.
Proof. reflexivity. Qed.

(** [k] acknowledgements take the counter from [c] to [c - k]; the
    broadcast goes out with the one that reaches zero and not before. *)
Lemma cfg_done_acks_count (k : nat) : forall env,
  Z.of_nat k <= sc_reload env ->
  cfg_done_acks privsep_process k env
  = (if (0 <? Z.of_nat k) && (Z.of_nat k =? sc_reload env)
     then ctl_start_broadcast privsep_process else [],
     Ret tt (set_sc_reload (sc_reload env - Z.of_nat k) env)).
Proof.
  induction k as [|k IH]; intros env Hk.
  - simpl. unfold ret. rewrite Z.sub_0_r, set_sc_reload_same. reflexivity.
  - cbn [cfg_done_acks]. unfold bind.
    rewrite parent_configure_done_step by lia.
    rewrite IH by (cbn [sc_reload set_sc_reload]; lia).
    cbn [sc_reload set_sc_reload]. rewrite set_sc_reload_twice.
    replace (sc_reload env - 1 - Z.of_nat k)
      with (sc_reload env - Z.of_nat (S k)) by lia.
    destruct (Z.eqb_spec (sc_reload env) 1),
             (Z.ltb_spec 0 (Z.of_nat k)),
             (Z.eqb_spec (Z.of_nat k) (sc_reload env - 1)),
             (Z.ltb_spec 0 (Z.of_nat (S k))),
             (Z.eqb_spec (Z.of_nat (S k)) (sc_reload env));
      try lia; cbn [andb app]; rewrite ?app_nil_r; reflexivity.
Qed.

End ParentProperties.

(** C4: [parent_configure] always returns and leaves the counter at
    2 + 2N; from there every acknowledgement takes one off, the [k]-th
    one sends IMSG_CTL_START to every other process exactly when it is
    the one that reaches zero, and an acknowledgement that finds the
    counter at zero only logs a warning. *)
Theorem parent_configure_reload_counter {H : relayd_h}
  (privsep_process : privsep_procid) (open_pf_socket : option Z)
  (env : relayd) (k : nat) :
  0 <= sc_prefork_relay env ->
  Z.of_nat k <= 2 + 2 * sc_prefork_relay env ->
  exists tr rc env1,
    parent_configure privsep_process open_pf_socket env = (tr, Ret rc env1) /\
    sc_reload env1 = 2 + 2 * sc_prefork_relay env /\
    cfg_done_acks privsep_process k env1
    = (if (0 <? Z.of_nat k) && (Z.of_nat k =? 2 + 2 * sc_prefork_relay env)
       then ctl_start_broadcast privsep_process else [],
       Ret tt (set_sc_reload (2 + 2 * sc_prefork_relay env - Z.of_nat k) env1)) /\
    parent_configure_done privsep_process (set_sc_reload 0 env1)
    = ([log_warnx "%s: configuration already finished"
          [LogStr (lit "parent_configure_done")]],
       Ret tt (set_sc_reload 0 env1)).
Proof.
  intros HN Hk.
  destruct (parent_configure_sets_reload privsep_process open_pf_socket env)
    as (tr & rc & env1 & Hc & Hr & _).
  exists tr, rc, env1. split; [exact Hc|]. split; [exact Hr|]. split.
  - rewrite cfg_done_acks_count by lia. rewrite Hr. reflexivity.
  - apply parent_configure_done_zero. reflexivity.
Qed.

Lemma parent_configure_reload_counter_witness :
  exists tr rc env1,
    parent_configure (H := relayd_h_values) PROC_PARENT None (example_env 0)
      = (tr, Ret rc env1) /\
    sc_reload env1 = 2 + 2 * sc_prefork_relay (example_env 0) /\
    cfg_done_acks PROC_PARENT 6 env1
    = (if (0 <? Z.of_nat 6) && (Z.of_nat 6 =? 2 + 2 * sc_prefork_relay (example_env 0))
       then ctl_start_broadcast PROC_PARENT else [],
       Ret tt (set_sc_reload (2 + 2 * sc_prefork_relay (example_env 0) - Z.of_nat 6) env1)) /\
    parent_configure_done PROC_PARENT (set_sc_reload 0 env1)
    = ([log_warnx "%s: configuration already finished"
          [LogStr (lit "parent_configure_done")]],
       Ret tt (set_sc_reload 0 env1)).
Proof.
  refine (parent_configure_reload_counter (H := relayd_h_values)
            PROC_PARENT None (example_env 0) 6 _ _); vm_compute; discriminate.
Defined.

(** C3: while a reload is pending, [parent_reload] only writes a log
    line: the environment, the counter included, is returned as it was
    and nothing is sent; the same holds for the request by SIGHUP. *)
Theorem parent_reload_rejected_while_pending {H : relayd_h}
  (privsep_process : privsep_procid) (open_pf_socket : option Z)
  (load_config : list ascii -> relayd -> Z * relayd)
  (env : relayd) (reset : Z) (filename : option (list ascii))
  (ps : privsep) (getpid : Z) (children : list waitpid_result) :
  0 < sc_reload env ->
  parent_reload privsep_process open_pf_socket load_config reset filename env
  = ([log_debug "%s: already in progress: %d pending"
        [LogStr (lit "parent_reload"); LogInt (sc_reload env)]],
     Ret tt env) /\
  parent_sig_handler privsep_process open_pf_socket load_config
    SIGHUP ps getpid children env
  = ([log_info "%s: reload requested with SIGHUP"
        [LogStr (lit "parent_sig_handler")];
      log_debug "%s: already in progress: %d pending"
        [LogStr (lit "parent_reload"); LogInt (sc_reload env)]],
     Ret tt env).
Proof.
  intros Hp.
  assert (E : (sc_reload env =? 0) = false) by (apply Z.eqb_neq; lia).
  assert (Hr : forall reset filename,
    parent_reload privsep_process open_pf_socket load_config reset filename env
    = ([log_debug "%s: already in progress: %d pending"
          [LogStr (lit "parent_reload"); LogInt (sc_reload env)]],
       Ret tt env)).
  { intros r f. unfold parent_reload, bind, get. cbv beta iota.
    rewrite E. reflexivity. }
  split; [apply Hr|].
  unfold parent_sig_handler, bind, emit. cbv beta iota. rewrite Hr. reflexivity.
Qed.

Lemma parent_reload_rejected_while_pending_witness :
  let ps := {| ps_pid := fun _ => 100; ps_title := fun _ => "child"%string |} in
  parent_reload (H := relayd_h_values) PROC_PARENT None load_config_syntax_error
    0 None (example_env 3)
  = ([log_debug "%s: already in progress: %d pending"
        [LogStr (lit "parent_reload"); LogInt 3]],
     Ret tt (example_env 3)) /\
  parent_sig_handler (H := relayd_h_values) PROC_PARENT None load_config_syntax_error
    SIGHUP ps 1 [] (example_env 3)
  = ([log_info "%s: reload requested with SIGHUP"
        [LogStr (lit "parent_sig_handler")];
      log_debug "%s: already in progress: %d pending"
        [LogStr (lit "parent_reload"); LogInt 3]],
     Ret tt (example_env 3)).
Proof.
  intros ps.
  refine (parent_reload_rejected_while_pending (H := relayd_h_values)
            PROC_PARENT None load_config_syntax_error (example_env 3)
            0 None ps 1 [] _).
  reflexivity.
Defined.

(** C2 as stated fails: with no reload pending and a configuration file
    that does not parse, the relay the parent held is gone after
    [parent_reload], and the workers have been told to reset. *)
Lemma parent_reload_failed_parse_counterexample :
  let env := example_env 0 in
  let r := parent_reload (H := relayd_h_values) PROC_PARENT None
             load_config_syntax_error 0 None env in
  sc_reload env = 0 /\
  (forall e, fst (load_config_syntax_error (sc_conffile env) e) = -1) /\
  exists tr env',
    r = (tr, Ret tt env') /\
    sc_relays env = [example_relay] /\ sc_relays env' = [] /\
    env' <> env /\
    In (config_setreset 0xff) tr.
Proof.
  intros env r. split; [reflexivity|]. split; [reflexivity|].
  eexists _, _. split; [vm_compute; reflexivity|].
  split; [reflexivity|]. split; [reflexivity|].
  split; [discriminate|]. simpl. tauto.
Qed.

(** C2 (amended): with no reload pending, [parent_reload] for
    CONFIG_RELOAD purges the whole in-memory configuration before it
    parses the file; when the parser fails it logs that and goes on: it
    has the workers reset and distributes what the parser left, so that
    the environment afterwards is the one [parent_configure] makes of
    that, with the counter at 2 + 2N.  The configuration held before is
    not restored. *)
Theorem parent_reload_failed_parse {H : relayd_h}
  (privsep_process : privsep_procid) (open_pf_socket : option Z)
  (load_config : list ascii -> relayd -> Z * relayd)
  (env purged loaded : relayd) (filename : option (list ascii)) :
  sc_reload env = 0 ->
  config_purge CONFIG_ALL env = ([], Ret tt purged) ->
  load_config (reload_filename filename env) purged = (-1, loaded) ->
  exists sent rc env' commit,
    parent_configure privsep_process open_pf_socket loaded = (sent, Ret rc env') /\
    parent_reload privsep_process open_pf_socket load_config CONFIG_RELOAD filename env
    = (log_debug "%s: level %d config file %s"
         [LogStr (lit "parent_reload"); LogInt CONFIG_RELOAD;
          LogStr (reload_filename filename env)]
       :: log_debug "%s: failed to load config file %s"
            [LogStr (lit "parent_reload"); LogStr (reload_filename filename env)]
       :: config_setreset CONFIG_ALL
       :: sent ++ commit,
       Ret tt env') /\
    sc_reload env' = 2 + 2 * sc_prefork_relay loaded /\
    commit = (if rc =? -1
              then [log_debug "%s: failed to commit config from %s"
                      [LogStr (lit "parent_reload");
                       LogStr (reload_filename filename env)]]
              else []).
Proof.
  intros Hr Hp Hl.
  destruct (parent_configure_sets_reload privsep_process open_pf_socket loaded)
    as (sent & rc & env' & Hc & Hn & _).
  exists sent, rc, env'. eexists. split; [exact Hc|].
  split; [|split; [exact Hn | reflexivity]].
  unfold parent_reload, bind, get, put, emit. cbv beta iota.
  rewrite Hr. cbn [Z.eqb negb]. cbv beta iota.
  rewrite Hp. cbv beta iota. rewrite Z.eqb_refl, Hl. cbv beta iota.
  change (-1 =? -1) with true. cbv beta iota.
  rewrite Hc. cbv beta iota.
  destruct (rc =? -1); unfold ret; cbn [app]; rewrite ?app_nil_r; reflexivity.
Qed.

Lemma parent_reload_failed_parse_witness :
  exists sent rc env' commit,
    parent_configure (H := relayd_h_values) PROC_PARENT None
      (set_sc_relays [] (example_env 0)) = (sent, Ret rc env') /\
    parent_reload (H := relayd_h_values) PROC_PARENT None
      load_config_syntax_error 0 None (example_env 0)
    = (log_debug "%s: level %d config file %s"
         [LogStr (lit "parent_reload"); LogInt 0;
          LogStr (reload_filename None (example_env 0))]
       :: log_debug "%s: failed to load config file %s"
            [LogStr (lit "parent_reload");
             LogStr (reload_filename None (example_env 0))]
       :: config_setreset 0xff
       :: sent ++ commit,
       Ret tt env') /\
    sc_reload env' = 2 + 2 * sc_prefork_relay (set_sc_relays [] (example_env 0)) /\
    commit = (if rc =? -1
              then [log_debug "%s: failed to commit config from %s"
                      [LogStr (lit "parent_reload");
                       LogStr (reload_filename None (example_env 0))]]
              else []).
Proof.
  refine (parent_reload_failed_parse (H := relayd_h_values) PROC_PARENT None
            load_config_syntax_error (example_env 0)
            (set_sc_relays [] (example_env 0)) (set_sc_relays [] (example_env 0))
            None _ _ _); reflexivity.
Defined.

(** ** The signal handler of the parent *)

Section SigHandler.
Context {H : relayd_h}.
Variable privsep_process : privsep_procid.
Variable open_pf_socket : option Z.
Variable load_config : list ascii -> relayd -> Z * relayd.
Variable ps : privsep.



Lemma parent_shutdown_exits {A} getpid env :
  exists purged,
    config_purge CONFIG_ALL env = ([], Ret tt purged) /\
    parent_shutdown (A := A) getpid env
    = ([proc_kill; control_cleanup;
        log_info "parent terminating, pid %d" [LogInt getpid]], Exit 0).
Proof. eexists. split; reflexivity. Qed.

End SigHandler.




(** ** Key operations between relay and CA *)

Lemma to_size_t_add_r a b : to_size_t (a + to_size_t b) = to_size_t (a + b).
Proof. unfold to_size_t. apply Zplus_mod_idemp_r. Qed.

(** C1 as stated fails: on a request for an object id that is not in the
    table of the CA, [ca_dispatch_relay] ends the CA worker with
    [fatalx]; no reply is sent. *)
Lemma ca_dispatch_relay_unknown_id_counterexample :
  let r := ca_dispatch_relay 20 (fun k => Some k) example_rsa_fails
             example_rsa_fails (fun _ _ => true) example_keyop example_ca_env in
  pkey_find example_ca_env 7 = Some None /\
  r = ([], Fatalx "ca_dispatch_relay: invalid relay key or id") /\
  returned r = false.
Proof. intros r. repeat split. Qed.

(** C1 (amended): for a well-formed key operation request, an object id
    that is not in the table of the CA ends the CA worker with
    [fatalx("ca_dispatch_relay: invalid relay key or id")] and no reply
    is sent.  When the key is known and the crypto operation returns 0,
    the CA worker stays up and replies with the header alone, its
    [cko_tlen] at 0; on such a zero-length reply the RSA method of the
    relay returns 0, the failure value of the method. *)
Theorem ca_keyop_error_contract
  (sizeof_cko proc_id : Z)
  (EVP_PKEY_get1_RSA : Z -> option Z)
  (RSA_private_encrypt RSA_private_decrypt : Z -> list Z -> Z -> Z -> Z * list Z)
  (calloc : Z -> Z -> bool)
  (rsa_default_priv_enc rsa_default_priv_dec : Z -> list Z -> RSA -> Z -> Z * list Z)
  (env : relayd) (imsg : imsg) (cko : ctl_keyop) :
  hdr_type imsg = IMSG_CA_PRIVENC \/ hdr_type imsg = IMSG_CA_PRIVDEC ->
  imsg_cko imsg = Some cko ->
  cko_proc cko <= sc_prefork_relay env ->
  cko_flen cko = Z.of_nat (length (imsg_tail imsg)) ->
  let dispatch :=
    ca_dispatch_relay sizeof_cko EVP_PKEY_get1_RSA RSA_private_encrypt
      RSA_private_decrypt calloc imsg env in
  (pkey_find env (cko_id cko) = Some None ->
   dispatch = ([], Fatalx "ca_dispatch_relay: invalid relay key or id")) /\
  (forall key rsa to,
     pkey_find env (cko_id cko) = Some (Some key) ->
     EVP_PKEY_get1_RSA key = Some rsa ->
     calloc 1 (to_size_t (cko_tlen cko)) = true ->
     ca_rsa_operation RSA_private_encrypt RSA_private_decrypt (hdr_type imsg)
       (cko_flen cko) (imsg_tail imsg) rsa (cko_padding cko) = (0, to) ->
     dispatch
     = ([proc_composev_imsg PROC_RELAY (cko_proc cko) (hdr_type imsg) (-1)
           [{| iov_data := IovKeyop (set_cko_tlen 0 cko); iov_len := sizeof_cko |}]],
        Ret (Some tt) env)) /\
  (forall (relay_env : relayd) (r : RSA) (objid flen padding : Z)
          (from : list Z) (more : list imsg_read_result),
     RSA_get_ex_data r = Some objid ->
     let reply := fun cmd =>
       ReadData [GetMsg {| hdr_type := cmd;
                           imsg_cko := Some (set_cko_tlen 0 cko);
                           imsg_tail := [] |}] :: more in
     exists sent_enc sent_dec,
       rsae_priv_enc sizeof_cko proc_id rsa_default_priv_enc flen from r padding
         (reply IMSG_CA_PRIVENC) relay_env
       = (sent_enc, Ret (0, []) relay_env) /\
       rsae_priv_dec sizeof_cko proc_id rsa_default_priv_dec flen from r padding
         (reply IMSG_CA_PRIVDEC) relay_env
       = (sent_dec, Ret (0, []) relay_env)).
Proof.
  intros Htype Hcko Hproc Hlen dispatch. subst dispatch.
  assert (Hhead : forall k : M relayd (option unit),
    (match hdr_type imsg with
     | IMSG_CA_PRIVENC | IMSG_CA_PRIVDEC => k
     | _ => ret None
     end) = k) by (intros k; destruct Htype as [-> | ->]; reflexivity).
  unfold ca_dispatch_relay. rewrite Hhead. unfold bind, get. cbv beta iota.
  rewrite Hcko.
  replace (sc_prefork_relay env <? cko_proc cko) with false
    by (symmetry; apply Z.ltb_ge; lia).
  rewrite to_size_t_add_r, Hlen, Z.eqb_refl. cbn [negb].
  split; [|split].
  - intros ->. reflexivity.
  - intros key rsa to -> -> Hc Hop. rewrite Hc. cbn [negb].
    rewrite Hop. reflexivity.
  - intros relay_env r objid flen padding from more Hid.
    unfold rsae_priv_enc, rsae_priv_dec, rsae_send_imsg. rewrite Hid.
    eexists _, _. unfold bind, emit. cbn. rewrite Z.eqb_refl.
    split; reflexivity.
Qed.

Lemma ca_keyop_error_contract_witness :
  let cko := {| cko_id := 7; cko_proc := 0; cko_flen := 2;
                cko_tlen := 256; cko_padding := 1 |} in
  let dispatch :=
    ca_dispatch_relay 20 (fun k => Some k) example_rsa_fails example_rsa_fails
      (fun _ _ => true) example_keyop example_ca_env in
  (pkey_find example_ca_env (cko_id cko) = Some None ->
   dispatch = ([], Fatalx "ca_dispatch_relay: invalid relay key or id")) /\
  (forall key rsa to,
     pkey_find example_ca_env (cko_id cko) = Some (Some key) ->
     (fun k => Some k) key = Some rsa ->
     (fun _ _ : Z => true) 1 (to_size_t (cko_tlen cko)) = true ->
     ca_rsa_operation example_rsa_fails example_rsa_fails (hdr_type example_keyop)
       (cko_flen cko) (imsg_tail example_keyop) rsa (cko_padding cko) = (0, to) ->
     dispatch
     = ([proc_composev_imsg PROC_RELAY (cko_proc cko) (hdr_type example_keyop) (-1)
           [{| iov_data := IovKeyop (set_cko_tlen 0 cko); iov_len := 20 |}]],
        Ret (Some tt) example_ca_env)) /\
  (forall (relay_env : relayd) (r : RSA) (objid flen padding : Z)
          (from : list Z) (more : list imsg_read_result),
     RSA_get_ex_data r = Some objid ->
     let reply := fun cmd =>
       ReadData [GetMsg {| hdr_type := cmd;
                           imsg_cko := Some (set_cko_tlen 0 cko);
                           imsg_tail := [] |}] :: more in
     exists sent_enc sent_dec,
       rsae_priv_enc 20 0 (fun _ _ _ _ => (0, [])) flen from r padding
         (reply IMSG_CA_PRIVENC) relay_env
       = (sent_enc, Ret (0, []) relay_env) /\
       rsae_priv_dec 20 0 (fun _ _ _ _ => (0, [])) flen from r padding
         (reply IMSG_CA_PRIVDEC) relay_env
       = (sent_dec, Ret (0, []) relay_env)).
Proof.
  intros cko.
  refine (ca_keyop_error_contract 20 0 (fun k => Some k) example_rsa_fails
            example_rsa_fails (fun _ _ => true) (fun _ _ _ _ => (0, []))
            (fun _ _ _ _ => (0, []))
            example_ca_env example_keyop cko _ _ _ _);
    try reflexivity.
  - right. reflexivity.
  - vm_compute. discriminate.
Defined.

(** ** table_findbyconf *)

Lemma strcmp_from_zero a : forall b,
  no_nul a -> no_nul b -> (strcmp_from a b = 0 <-> a = b).
Proof.
  induction a as [|c a IH]; intros [|d b] Ha Hb; simpl.
  - tauto.
  - apply Forall_cons in Hb as [Hd _].
    pose proof (uchar_nonneg d). split; [|discriminate].
    intros E. assert (uchar d = uchar NUL) as E' by (change (uchar NUL) with 0; lia).
    apply uchar_inj, is_nul_true in E'. congruence.
  - apply Forall_cons in Ha as [Hc _].
    pose proof (uchar_nonneg c). split; [|discriminate].
    intros E. assert (uchar c = uchar NUL) as E' by (change (uchar NUL) with 0; lia).
    apply uchar_inj, is_nul_true in E'. congruence.
  - apply Forall_cons in Ha as [_ Ha]. apply Forall_cons in Hb as [_ Hb].
    destruct (Ascii.eqb_spec c d) as [->|Hne].
    + rewrite (IH b Ha Hb). split; [intros ->; reflexivity | intros [= ->]; reflexivity].
    + split; [|intros [= E _]; contradiction].
      intros E. exfalso. apply Hne, uchar_inj. lia.
Qed.

Lemma strcmp_zero a b : strcmp a b = 0 <-> c_str a = c_str b.
Proof. apply strcmp_from_zero; apply c_str_no_nul. Qed.

Lemma table_config_bcmp_eq a b : table_config_bcmp a b = true <-> a = b.
Proof.
  unfold table_config_bcmp.
  rewrite !andb_true_iff, !Z.eqb_eq, bool_decide_eq_true.
  destruct a, b; simpl. split.
  - intros (((-> & ->) & ->) & ->). reflexivity.
  - intros [= -> -> -> ->]. auto.
Qed.

Section TablesProperties.
Context {H : relayd_h}.

Lemma table_findbyconf_test tb table :
  table_config_bcmp (table_findbyconf_copy (conf tb))
    (table_findbyconf_copy (conf table)) &&
  match sendbuf tb, sendbuf table with
  | None, None => true
  | Some s, Some s' => strcmp s s' =? 0
  | _, _ => false
  end = true <-> spec_same_table tb table.
Proof.
  unfold spec_same_table. rewrite andb_true_iff, table_config_bcmp_eq.
  apply and_iff_compat_l.
  destruct (sendbuf tb) as [s|], (sendbuf table) as [s'|].
  - rewrite Z.eqb_eq, strcmp_zero. split.
    + intros E. right. exists s, s'. auto.
    + intros [[[=] _] | (? & ? & [= <-] & [= <-] & E)]. exact E.
  - split; [discriminate|].
    intros [[[=] _] | (? & ? & _ & [=] & _)].
  - split; [discriminate|].
    intros [[_ [=]] | (? & ? & [=] & _)].
  - split; [auto | reflexivity].
Qed.

Lemma table_findbyconf_none env tb :
  table_findbyconf env tb = None <->
  Forall (fun table => ~ spec_same_table tb table) (sc_tables env).
Proof.
  unfold table_findbyconf. induction (sc_tables env) as [|t l IH]; simpl.
  - split; [constructor | reflexivity].
  - rewrite Forall_cons, <- IH, <- table_findbyconf_test.
    destruct (_ && _); split; [discriminate | intros [? _]; congruence
                              | intros ->; auto | tauto].
Qed.

(** The copies are equal when the tables agree on every byte but [id],
    [rdrid] and the two flag bits. *)
Lemma table_findbyconf_copy_eq a b :
  table_findbyconf_copy a = table_findbyconf_copy b <->
  conf_bytes a = conf_bytes b /\
  forall n, 0 <= n -> Z.testbit (Z.lor F_USED F_BACKUP) n = false ->
            Z.testbit (flags a) n = Z.testbit (flags b) n.
Proof.
  unfold table_findbyconf_copy. split.
  - intros [= Ef Eb]. split; [exact Eb|]. intros n Hn Hm.
    apply (f_equal (fun z => Z.testbit z n)) in Ef.
    rewrite !Z.land_spec, !Z.lnot_spec, Hm in Ef by exact Hn.
    cbn [negb] in Ef. rewrite !andb_true_r in Ef. exact Ef.
  - intros [Eb Ef]. f_equal; [|exact Eb].
    apply Z.bits_inj'. intros n Hn.
    rewrite !Z.land_spec, !Z.lnot_spec by exact Hn.
    destruct (Z.testbit (Z.lor F_USED F_BACKUP) n) eqn:Hm; cbn [negb].
    + rewrite !andb_false_r. reflexivity.
    + rewrite !andb_true_r. apply Ef; assumption.
Qed.

End TablesProperties.

(** C7: against a single table, [table_findbyconf] returns that table if
    and only if the two configurations are equal once [id] and [rdrid]
    are zeroed and F_USED and F_BACKUP are cleared, and the send buffers
    are both absent or equal strings; it returns none exactly when no
    table of the list is the same in this sense; a table that differs
    only in [rdrid] is found to be the same.  The configurations are
    equal in this sense when they agree on every other byte and on every
    other flag bit. *)
Theorem table_findbyconf_same_table {H : relayd_h}
  (env : relayd) (tb table : table) (r : Z) :
  (table_findbyconf (set_sc_tables [table] env) tb = Some table
   <-> spec_same_table tb table) /\
  (table_findbyconf env tb = None
   <-> Forall (fun t => ~ spec_same_table tb t) (sc_tables env)) /\
  table_findbyconf (set_sc_tables [table] env) (set_rdrid r table) = Some table /\
  (table_findbyconf_copy (conf tb) = table_findbyconf_copy (conf table) <->
   conf_bytes (conf tb) = conf_bytes (conf table) /\
   forall n, 0 <= n -> Z.testbit (Z.lor F_USED F_BACKUP) n = false ->
             Z.testbit (flags (conf tb)) n = Z.testbit (flags (conf table)) n).
Proof.
  assert (Hone : forall tb',
    table_findbyconf (set_sc_tables [table] env) tb' = Some table
    <-> spec_same_table tb' table).
  { intros tb'. rewrite <- table_findbyconf_test.
    unfold table_findbyconf. cbn [sc_tables set_sc_tables find].
    destruct (_ && _); split; congruence. }
  split; [apply Hone|]. split; [apply table_findbyconf_none|].
  split; [|apply table_findbyconf_copy_eq].
  apply Hone. unfold spec_same_table. split; [reflexivity|].
  cbn [sendbuf set_rdrid]. destruct (sendbuf table) as [s|]; [right | left; auto].
  exists s, s. auto.
Qed.

Example table_findbyconf_rdrid :
  table_findbyconf (H := relayd_h_values)
    (set_sc_tables [example_table] (example_env 0))
    {| conf := {| id := 9; rdrid := 2; flags := 0x2; conf_bytes := lit "www:80" |};
       sendbuf := Some (lit "HEAD / HTTP/1.0") |}
  = Some example_table.
Proof. vm_compute. reflexivity. Qed.

(** ** rule_add *)




Section RulesProperties.
Context {H : relayd_h}.
Variable strdup : list ascii -> bool.
Variable calloc : bool.
Variable fopen : list ascii -> option (list ascii).







Lemma rule_add_file_ret rule chunks : forall proto,
  exists tr rc proto',
    rule_add_file strdup calloc rule chunks proto = (tr, Ret rc proto').
Proof.
  induction chunks as [|chunk rest IH]; intros proto; cbn [rule_add_file].
  - unfold rule_free, rule_refs, bind, emit, ret.
    destruct (0 <? rule_label rule), (0 <? rule_tag rule), (0 <? rule_tagged rule);
      eexists _, _, _; reflexivity.
  - destruct (strip_at_space (c_str chunk)) as [|c buf]; [apply IH|].
    destruct (Ascii.eqb c "#"); [apply IH|].
    unfold rule_inherit. destruct (negb calloc).
    { eexists _, _, _. reflexivity. }
    destruct (rule_inherit_kv strdup 0 (rule_kv rule)) as [kvs|].
    2:{ eexists _, _, _. reflexivity. }
    set (r := set_rule_kv kvs rule).
    assert (Hrefs : forall on_label on_tag, exists tr,
      rule_refs (S := protocol) on_label on_tag r proto = (tr, Ret tt proto)).
    { intros. unfold rule_refs, bind, emit, ret.
      destruct (0 <? rule_label r), (0 <? rule_tag r), (0 <? rule_tagged r);
        eexists; reflexivity. }
    destruct (Hrefs label_ref tag_ref) as (tr1 & Hr1).
    destruct (Hrefs label_unref tag_unref) as (tr2 & Hr2).
    unfold bind at 1. unfold bind at 1. rewrite Hr1. cbn [ret].
    destruct (rule_add_setkey strdup (c :: buf) 0 (rule_kv r)) as [kvs'|].
    + unfold bind, get, put.
      destruct (IH (set_rules (rules proto ++ [set_rule_kv kvs' r]) proto))
        as (tr & rc & proto' & ->).
      eexists _, _, _. reflexivity.
    + unfold rule_free, bind. rewrite Hr2. eexists _, _, _. reflexivity.
Qed.

End RulesProperties.



(** A response rule with a pattern on the query is turned down. *)
Example rule_add_query_in_response :
  rule_add (H := relayd_h_values) (fun _ => true) true (fun _ => None)
    (example_rule RELAY_DIR_RESPONSE (example_kv 2 "Host" "x") (example_kv 4 "q" "1"))
    None example_proto
  = ([], Ret (-1, Some (example_rule RELAY_DIR_RESPONSE
                          (example_kv 2 "Host" "x") (example_kv 4 "q" "1")))
           example_proto).
Proof. vm_compute. reflexivity. Qed.

(** With a rule file, the rules appended are copies of the rule that
    carry the keys read from the file and the flags of the rule itself:
    the flags are not computed again from the new keys.  Slot 0 counts as
    populated, its type being KEY_TYPE_NONE = 0, and gets the key too. *)
Example rule_add_file_keeps_flags :
  let rule := example_rule RELAY_DIR_REQUEST
                (example_kv 2 "Host" "x") empty_kv in
  rule_add (H := relayd_h_values) (fun _ => true) true
    (fun _ => Some (lit "# hosts
*.example.com
"))
    rule (Some (lit "hosts.txt")) example_proto
  = ([], Ret (0, None)
           (set_rules
              [set_rule_kv
                 [set_kv_key (Some (lit "*.example.com")) empty_kv; empty_kv;
                  {| kv_key := Some (lit "*.example.com"); kv_value := Some (lit "x");
                     kv_type := 2; kv_option := 2; kv_flags := 0 |};
                  empty_kv; empty_kv; empty_kv]
                 rule]
              example_proto)).
Proof. vm_compute. reflexivity. Qed.

(** ** purge_key and ca_launch *)

Lemma bind_Ret_inv {S A B} (m : M S A) (k : A -> M S B) s tr b s' :
  bind m k s = (tr, Ret b s') ->
  exists t1 a s1 t2,
    m s = (t1, Ret a s1) /\ k a s1 = (t2, Ret b s') /\ tr = t1 ++ t2.
Proof.
  unfold bind. destruct (m s) as [t1 [a s1| | |]]; try discriminate.
  destruct (k a s1) as [t2 o] eqn:Hk. intros [= <- ->].
  exists t1, a, s1, t2. auto.
Qed.

Lemma ret_Ret_inv {S A} (a b : A) (s s' : S) tr :
  ret a s = (tr, Ret b s') -> tr = [] /\ b = a /\ s' = s.
Proof. unfold ret. intros [= <- <- <-]. auto. Qed.

Lemma on_snd_Ret_inv {S1 S2 A} (m : M S2 A) (s s' : S1 * S2) tr a :
  on_snd m s = (tr, Ret a s') ->
  exists s2, m (snd s) = (tr, Ret a s2) /\ s' = (fst s, s2).
Proof.
  unfold on_snd. destruct (m (snd s)) as [t [a' s2| | |]]; try discriminate.
  intros [= <- <- <-]. eauto.
Qed.

Lemma on_fst_Ret_inv {S1 S2 A} (m : M S1 A) (s s' : S1 * S2) tr a :
  on_fst m s = (tr, Ret a s') ->
  exists s1, m (fst s) = (tr, Ret a s1) /\ s' = (s1, snd s).
Proof.
  unfold on_fst. destruct (m (fst s)) as [t [a' s1| | |]]; try discriminate.
  intros [= <- <- <-]. eauto.
Qed.

Lemma heap_mono_refl h : heap_mono h h.
Proof. intros p len Hp. exact Hp. Qed.

Lemma heap_mono_trans h1 h2 h3 :
  heap_mono h1 h2 -> heap_mono h2 h3 -> heap_mono h1 h3.
Proof. intros H12 H23 p len Hp. apply H23, H12, Hp. Qed.

Lemma purge_key_noop key len (h : gmap Z block) :
  key = NULL \/ len = 0 -> purge_key key len h = ([], Ret key h).
Proof.
  intros Hn. unfold purge_key.
  replace ((key =? NULL) || (len =? 0)) with true; [reflexivity|].
  symmetry. apply orb_true_iff. rewrite !Z.eqb_eq. exact Hn.
Qed.

Lemma purge_key_live key len (h : gmap Z block) b :
  key <> NULL -> len <> 0 ->
  h !! key = Some b -> freed b = false ->
  0 <= len <= Z.of_nat (length (bytes b)) ->
  purge_key key len h
  = ([], Ret NULL
           (<[key := {| bytes := replicate (Z.to_nat len) 0
                                 ++ drop (Z.to_nat len) (bytes b);
                        freed := true |}]> h)).
Proof.
  intros Hk Hl Hb Hf Hlen. unfold purge_key.
  replace ((key =? NULL) || (len =? 0)) with false
    by (symmetry; apply orb_false_iff; rewrite !Z.eqb_neq; auto).
  unfold bind, get. cbv beta iota. rewrite Hb, Hf.
  replace ((len <? 0) || (Z.of_nat (length (bytes b)) <? len)) with false
    by (symmetry; apply orb_false_iff; rewrite !Z.ltb_ge; lia).
  reflexivity.
Qed.

Lemma purged_after (h : gmap Z block) key len b :
  purged (<[key := {| bytes := replicate (Z.to_nat len) 0
                               ++ drop (Z.to_nat len) (bytes b);
                      freed := true |}]> h) key len.
Proof.
  eexists. split; [apply lookup_insert_eq|]. split; [reflexivity|]. simpl.
  apply take_app_length'. symmetry. apply length_replicate.
Qed.

Lemma purge_key_Ret_inv key len (h h' : gmap Z block) tr p :
  purge_key key len h = (tr, Ret p h') ->
  heap_mono h h' /\
  (key <> NULL -> len <> 0 -> p = NULL /\ purged h' key len).
Proof.
  unfold purge_key.
  destruct ((key =? NULL) || (len =? 0)) eqn:Hn.
  - intros Hr. apply ret_Ret_inv in Hr as (_ & _ & ->).
    split; [apply heap_mono_refl|].
    apply orb_true_iff in Hn. rewrite !Z.eqb_eq in Hn. tauto.
  - unfold bind, get. cbv beta iota.
    destruct (h !! key) as [b|] eqn:Hb; [|discriminate].
    destruct (freed b) eqn:Hf; [discriminate|].
    destruct ((len <? 0) || _); [discriminate|].
    intros [= <- <- <-]. split.
    + intros q l (bq & Hq & Hfq & Hz).
      assert (q <> key) by (intros ->; rewrite Hb in Hq; congruence).
      exists bq. rewrite lookup_insert_ne by congruence. auto.
    + intros _ _. split; [reflexivity | apply purged_after].
Qed.

Section CALaunchProperties.
Context {H : relayd_h}.
Variable sizeof_ca_pkey : Z.
Variable calloc : Z -> Z -> bool.
Variable BIO_new_mem_buf : Z -> Z -> bool.
Variable PEM_read_bio_PrivateKey : list Z -> option Z.

Lemma ca_launch_key_Ret_inv msg keyp len keyid s tr r s' :
  len <> 0 ->
  ca_launch_key sizeof_ca_pkey calloc BIO_new_mem_buf PEM_read_bio_PrivateKey
    msg keyp len keyid s = (tr, Ret r s') ->
  heap_mono (snd s) (snd s') /\ snd r = NULL /\ purged (snd s') keyp len.
Proof.
  intros Hlen. unfold ca_launch_key.
  destruct ((keyp =? NULL) || _) eqn:Hnull; [discriminate|].
  apply orb_false_iff in Hnull as [Hnull _]. apply Z.eqb_neq in Hnull.
  intros Hb. apply bind_Ret_inv in Hb as (t0 & st & s0 & t0' & Hget & Hb & _).
  unfold get in Hget. injection Hget as _ E1 E2. subst st s0.
  destruct (read_mem (snd s) keyp len) as [pem|]; [|discriminate].
  destruct (PEM_read_bio_PrivateKey pem) as [key|]; [|discriminate].
  apply bind_Ret_inv in Hb as (t1 & added & s1 & t2 & Hadd & Hk & _).
  apply on_fst_Ret_inv in Hadd as (env1 & _ & ->).
  destruct added; [|discriminate].
  apply bind_Ret_inv in Hk as (t3 & keyp' & s2 & t4 & Hp & Hr & _).
  apply ret_Ret_inv in Hr as (_ & -> & ->).
  apply on_snd_Ret_inv in Hp as (h2 & Hp & ->).
  apply purge_key_Ret_inv in Hp as (Hmono & Hdone).
  destruct (Hdone Hnull Hlen) as (-> & Hpurged).
  cbn [fst snd] in *. auto.
Qed.

(** One key branch of [ca_launch]. *)
Lemma ca_launch_key_step msg keyp len keyid (old : option Z) s tr
    (r : option Z * Z) s' :
  (if negb (len =? 0) then
     r <- ca_launch_key sizeof_ca_pkey calloc BIO_new_mem_buf
            PEM_read_bio_PrivateKey msg keyp len keyid ;;
     ret (Some (fst r), snd r)
   else ret (old, keyp)) s = (tr, Ret r s') ->
  heap_mono (snd s) (snd s') /\
  (len <> 0 -> snd r = NULL /\ purged (snd s') keyp len).
Proof.
  destruct (Z.eqb_spec len 0) as [->|Hlen]; cbn [negb].
  - intros Hr. apply ret_Ret_inv in Hr as (_ & _ & ->).
    split; [apply heap_mono_refl | contradiction].
  - intros Hb. apply bind_Ret_inv in Hb as (t1 & a & s1 & t2 & Hk & Hr & _).
    apply ret_Ret_inv in Hr as (_ & -> & ->).
    apply ca_launch_key_Ret_inv in Hk as (Hm & Hn & Hp); [|exact Hlen].
    cbn [snd]. auto.
Qed.

(** One certificate branch of [ca_launch]. *)
Lemma ca_launch_cert_step (p len : Z) (s s' : relayd * gmap Z block) tr r :
  (if negb (len =? 0) then on_snd (purge_key p len) else ret p) s
  = (tr, Ret r s') ->
  heap_mono (snd s) (snd s').
Proof.
  destruct (negb (len =? 0)).
  - intros Hp. apply on_snd_Ret_inv in Hp as (h2 & Hp & ->).
    apply purge_key_Ret_inv in Hp as (Hm & _). exact Hm.
  - intros Hr. apply ret_Ret_inv in Hr as (_ & _ & ->). apply heap_mono_refl.
Qed.

Lemma ca_launch_relay_Ret_inv rlay s tr rlay' s' :
  ca_launch_relay sizeof_ca_pkey calloc BIO_new_mem_buf PEM_read_bio_PrivateKey
    rlay s = (tr, Ret rlay' s') ->
  heap_mono (snd s) (snd s') /\ keys_purged rlay rlay' (snd s') /\
  (Z.land (rl_flags (rl_conf rlay)) (Z.lor F_SSL F_SSLCLIENT) = 0 -> rlay' = rlay).
Proof.
  unfold ca_launch_relay, keys_purged.
  destruct (Z.eqb_spec (Z.land (rl_flags (rl_conf rlay)) (Z.lor F_SSL F_SSLCLIENT)) 0)
    as [E|E].
  - intros Hr. apply ret_Ret_inv in Hr as (_ & -> & ->).
    split; [apply heap_mono_refl|]. split; [contradiction | reflexivity].
  - intros Hb.
    apply bind_Ret_inv in Hb as (t1 & k & s1 & t1' & Hkey & Hb & _).
    apply bind_Ret_inv in Hb as (t2 & cert & s2 & t2' & Hcert & Hb & _).
    apply bind_Ret_inv in Hb as (t3 & ca & s3 & t3' & Hca & Hb & _).
    apply bind_Ret_inv in Hb as (t4 & cacert & s4 & t4' & Hcacert & Hr & _).
    apply ret_Ret_inv in Hr as (_ & -> & ->).
    apply ca_launch_key_step in Hkey as (M1 & K1).
    apply ca_launch_cert_step in Hcert as M2.
    apply ca_launch_key_step in Hca as (M3 & K3).
    apply ca_launch_cert_step in Hcacert as M4.
    split; [eauto using heap_mono_trans|]. split; [|contradiction].
    intros _. cbn [rl_ssl_key rl_ssl_cakey]. split.
    + intros Hl. destruct (K1 Hl) as (-> & Hp). split; [reflexivity|].
      apply M4, M3, M2, Hp.
    + intros Hl. destruct (K3 Hl) as (-> & Hp). split; [reflexivity|].
      apply M4, Hp.
Qed.

Lemma ca_launch_loop_Ret_inv relays : forall s tr relays' s',
  for_each_update
    (ca_launch_relay sizeof_ca_pkey calloc BIO_new_mem_buf PEM_read_bio_PrivateKey)
    relays s = (tr, Ret relays' s') ->
  heap_mono (snd s) (snd s') /\
  forall (i : nat) rlay, relays !! i = Some rlay ->
    exists rlay' h1,
      relays' !! i = Some rlay' /\ keys_purged rlay rlay' h1 /\
      heap_mono h1 (snd s') /\
      (Z.land (rl_flags (rl_conf rlay)) (Z.lor F_SSL F_SSLCLIENT) = 0 ->
       rlay' = rlay).
Proof.
  induction relays as [|r0 rest IH]; intros s tr relays' s' Hl;
    cbn [for_each_update] in Hl.
  - apply ret_Ret_inv in Hl as (_ & -> & ->).
    split; [apply heap_mono_refl | intros i rlay [=]].
  - apply bind_Ret_inv in Hl as (t1 & r0' & s1 & t1' & H0 & Hl & _).
    apply bind_Ret_inv in Hl as (t2 & rest' & s2 & t2' & Hrest & Hr & _).
    apply ret_Ret_inv in Hr as (_ & -> & ->).
    apply ca_launch_relay_Ret_inv in H0 as (M0 & K0 & U0).
    apply IH in Hrest as (Mrest & Krest).
    split; [eauto using heap_mono_trans|].
    intros [|i] rlay Hi; cbn in Hi.
    + injection Hi as <-. exists r0', (snd s1). auto.
    + destruct (Krest i rlay Hi) as (rlay' & h1 & Hi' & K & M & U).
      exists rlay', h1. auto.
Qed.

End CALaunchProperties.

Lemma keys_purged_mono {H : relayd_h} rlay rlay' h1 h2 :
  heap_mono h1 h2 -> keys_purged rlay rlay' h1 -> keys_purged rlay rlay' h2.
Proof.
  intros Hm Hk Hf. destruct (Hk Hf) as (K1 & K2). split.
  - intros Hl. destruct (K1 Hl). auto.
  - intros Hl. destruct (K2 Hl). auto.
Qed.

(** C8 as stated fails: a relay without F_SSL and F_SSLCLIENT is skipped
    by [ca_launch], whatever keys it holds; its key stays in memory as
    it was. *)
Lemma ca_launch_unflagged_relay_counterexample :
  let st := example_ca_state [example_plain_relay] in
  let r := ca_launch (H := relayd_h_values) 16 (fun _ _ => true)
             (fun _ _ => true) (fun _ => Some 1) st in
  ssl_key_len (rl_conf example_plain_relay) = 3 /\
  rl_ssl_key example_plain_relay = 0x2000 /\
  r = ([], Ret tt st) /\
  snd st !! 0x2000 = Some {| bytes := [75; 69; 89]; freed := false |} /\
  ~ purged (snd st) 0x2000 3.
Proof.
  intros st r. split; [reflexivity|]. split; [reflexivity|].
  split; [vm_compute; reflexivity|].
  assert (Hb : snd st !! 0x2000
               = Some {| bytes := [75; 69; 89]; freed := false |})
    by (vm_compute; reflexivity).
  split; [exact Hb|].
  intros (b & Hb' & Hf & _). rewrite Hb in Hb'. injection Hb' as <-.
  discriminate Hf.
Qed.

(** C8 (amended): [purge_key] changes nothing when the pointer is NULL
    or the length is 0; else, on a live buffer of that length, it
    zero-fills the whole buffer, frees it and sets the pointer to NULL.
    When [ca_launch] returns, every relay entry that has F_SSL or
    F_SSLCLIENT set and an SSL key or a CA key has the pointer to the key
    at NULL and the key bytes zero-filled and freed; relay entries with
    neither flag are left as they are. *)
Theorem purge_key_ca_launch {H : relayd_h}
  (sizeof_ca_pkey : Z) (calloc : Z -> Z -> bool)
  (BIO_new_mem_buf : Z -> Z -> bool)
  (PEM_read_bio_PrivateKey : list Z -> option Z)
  (env env' : relayd) (h h' : gmap Z block) (tr : list effect)
  (i : nat) (rlay : relay) :
  ca_launch sizeof_ca_pkey calloc BIO_new_mem_buf PEM_read_bio_PrivateKey (env, h)
    = (tr, Ret tt (env', h')) ->
  sc_relays env !! i = Some rlay ->
  (exists rlay', sc_relays env' !! i = Some rlay' /\ keys_purged rlay rlay' h' /\
     (Z.land (rl_flags (rl_conf rlay)) (Z.lor F_SSL F_SSLCLIENT) = 0 ->
      rlay' = rlay)) /\
  (forall key len (m : gmap Z block),
     key = NULL \/ len = 0 -> purge_key key len m = ([], Ret key m)) /\
  (forall key len (m : gmap Z block) b,
     key <> NULL -> len <> 0 -> m !! key = Some b -> freed b = false ->
     Z.of_nat (length (bytes b)) = len ->
     purge_key key len m
     = ([], Ret NULL
              (<[key := {| bytes := replicate (length (bytes b)) 0;
                           freed := true |}]> m))).
Proof.
  intros Hl Hi. split; [|split].
  - unfold ca_launch in Hl.
    apply bind_Ret_inv in Hl as (t0 & st & s0 & t0' & Hget & Hl & _).
    unfold get in Hget. injection Hget as _ E1 E2. subst st s0.
    apply bind_Ret_inv in Hl as (t1 & relays' & s1 & t1' & Hloop & Hl & _).
    apply bind_Ret_inv in Hl as (t2 & st & s2 & t2' & Hget & Hput & _).
    unfold get in Hget. injection Hget as _ E1 E2. subst st s2.
    unfold put in Hput. injection Hput as _ Eenv Eh. subst env' h'.
    apply ca_launch_loop_Ret_inv in Hloop as (_ & Hk).
    destruct (Hk i rlay Hi) as (rlay' & h0 & Hi' & K & M & U).
    exists rlay'. cbn [sc_relays set_sc_relays]. split; [exact Hi'|].
    split; [exact (keys_purged_mono _ _ _ _ M K) | exact U].
  - intros key len m. apply purge_key_noop.
  - intros key len m b Hk Hlen Hb Hf Hsize.
    rewrite (purge_key_live key len m b Hk Hlen Hb Hf) by lia.
    rewrite <- Hsize, Nat2Z.id, drop_all, app_nil_r. reflexivity.
Qed.

Lemma purge_key_ca_launch_witness :
  let st := example_ca_state [example_relay] in
  let zeroed := fun n => {| bytes := replicate n 0; freed := true |} in
  let h' := <[0x1000 := zeroed 4%nat]> (<[0x2000 := zeroed 3%nat]> example_heap) in
  let r := ca_launch (H := relayd_h_values) 16 (fun _ _ => true)
             (fun _ _ => true) (fun _ => Some 1) st in
  exists env',
    r = ([], Ret tt (env', h')) /\
    sc_pkeys env' = Some [{| pkey := 1; pkey_id := 7 |}] /\
    exists rlay',
      sc_relays env' !! 0%nat = Some rlay' /\
      keys_purged (H := relayd_h_values) example_relay rlay' h' /\
      rl_ssl_key rlay' = NULL.
Proof.
  intros st zeroed h' r.
  assert (Hr : exists env', r = ([], Ret tt (env', h')) /\
                 sc_pkeys env' = Some [{| pkey := 1; pkey_id := 7 |}] /\
                 (exists rl, sc_relays env' !! 0%nat = Some rl /\ rl_ssl_key rl = NULL)).
  { eexists. split; [vm_compute; reflexivity|]. split; [reflexivity|].
    eexists. split; reflexivity. }
  destruct Hr as (env' & Hr & Hp & rl & Hrl & Hnull).
  exists env'. split; [exact Hr|]. split; [exact Hp|].
  destruct (purge_key_ca_launch (H := relayd_h_values) 16 (fun _ _ => true)
              (fun _ _ => true) (fun _ => Some 1)
              (fst st) env' (snd st) h' [] 0 example_relay Hr eq_refl)
    as ((rlay' & Hi & K & _) & _).
  exists rlay'. split; [exact Hi|]. split; [exact K|].
  rewrite Hrl in Hi. injection Hi as <-. exact Hnull.
Defined.

(** ** translate_string *)

Lemma translate_write {A} (out junk tl : list A) (c x : A) :
  <[length out := x]> (out ++ junk ++ c :: tl)
  = (out ++ [x]) ++ tail (junk ++ [c]) ++ tl.
Proof.
  rewrite <- (Nat.add_0_r (length out)), insert_app_r.
  rewrite <- app_assoc. f_equal.
  destruct junk as [|j junk]; simpl; [reflexivity|].
  rewrite <- app_assoc. reflexivity.
Qed.

Lemma translate_read {A} (out junk tl : list A) (c : A) :
  (out ++ junk ++ c :: tl) !! (length out + length junk)%nat = Some c.
Proof.
  rewrite app_assoc, lookup_app_r; rewrite length_app; [|lia].
  replace (length out + length junk - (length out + length junk))%nat with 0%nat by lia.
  reflexivity.
Qed.

Lemma translate_junk_length {A} (junk : list A) (c : A) :
  length (tail (junk ++ [c])) = length junk.
Proof. destruct junk; simpl; [reflexivity|]. rewrite length_app. simpl. lia. Qed.

Lemma translate_escape_not_nul d : is_nul d = false -> is_nul (translate_escape d) = false.
Proof.
  unfold translate_escape. intros Hd.
  destruct (Ascii.eqb d "n"); [reflexivity|].
  destruct (Ascii.eqb d "r"); [reflexivity|assumption].
Qed.

Lemma spec_unescape_no_nul s : no_nul s -> no_nul (spec_unescape s).
Proof.
  unfold no_nul.
  induction s as [s IH] using (induction_ltof1 _ (@length ascii)); unfold ltof in IH.
  intros Hs. destruct s as [|c s]; [constructor|].
  inversion Hs as [|? ? Hc Hs']; subst. simpl.
  destruct (Ascii.eqb c "\").
  - destruct s as [|d s]; [constructor|].
    inversion Hs' as [|? ? Hd Hs'']; subst.
    constructor; [apply translate_escape_not_nul; assumption|].
    apply IH; [simpl; lia|assumption].
  - constructor; [assumption|]. apply IH; [simpl; lia|assumption].
Qed.

Lemma spec_unescape_length s : (length (spec_unescape s) <= length s)%nat.
Proof.
  induction s as [s IH] using (induction_ltof1 _ (@length ascii)); unfold ltof in IH.
  destruct s as [|c s]; [reflexivity|]. simpl.
  destruct (Ascii.eqb c "\").
  - destruct s as [|d s]; simpl; [lia|].
    specialize (IH s ltac:(simpl; lia)). lia.
  - simpl. specialize (IH s ltac:(simpl; lia)). lia.
Qed.

Lemma spec_unescape_plain s : strchr s "\" = false -> spec_unescape s = s.
Proof.
  unfold strchr. induction s as [|c s IH]; [reflexivity|].
  cbn [existsb spec_unescape]. rewrite (Ascii.eqb_sym "\" c).
  destruct (Ascii.eqb c "\"); [discriminate|]. cbn [orb].
  intros Hs. rewrite IH; [reflexivity|assumption].
Qed.

(** The loop over a stretch [s] of the string that does not end inside an
    escape sequence: [out] is what has been written, [junk] the bytes
    between [writer] and [reader]. *)
Lemma translate_string_loop_run (s : cstring) :
  no_nul s -> dangling s = false ->
  forall fuel out junk tl,
  exists junk',
    length junk' = (length junk + length s - length (spec_unescape s))%nat /\
    translate_string_loop (length (spec_unescape s) + fuel)
      (out ++ junk ++ s ++ tl) (length out + length junk) (length out)
    = translate_string_loop fuel
        ((out ++ spec_unescape s) ++ junk' ++ tl)
        (length (out ++ spec_unescape s) + length junk')
        (length (out ++ spec_unescape s)).
Proof.
  unfold no_nul.
  induction s as [s IH] using (induction_ltof1 _ (@length ascii)); unfold ltof in IH.
  intros Hs Hd fuel out junk tl.
  destruct s as [|c s].
  - exists junk. simpl. rewrite !app_nil_r. split; [lia|reflexivity].
  - inversion Hs as [|? ? Hc Hs']; subst.
    pose proof (spec_unescape_length s) as Hlen.
    simpl in Hd |- *. destruct (Ascii.eqb c "\") eqn:Ec.
    + destruct s as [|d s]; [discriminate|].
      inversion Hs' as [|? ? Hdn Hs'']; subst.
      pose proof (spec_unescape_length s) as Hlen'.
      destruct (IH s ltac:(simpl; lia) Hs'' Hd fuel
                  (out ++ [translate_escape d]) (tail ((junk ++ [c]) ++ [d])) tl)
        as (junk' & Hj & Hrun).
      exists junk'. split.
      { rewrite Hj, translate_junk_length, length_app. simpl. lia. }
      simpl. rewrite translate_read, Hc, Ec.
      replace (S (length out + length junk))
        with (length out + length (junk ++ [c]))%nat
        by (rewrite length_app; simpl; lia).
      replace (out ++ junk ++ c :: d :: s ++ tl)
        with (out ++ (junk ++ [c]) ++ d :: s ++ tl)
        by (rewrite <- (app_assoc junk); reflexivity).
      rewrite translate_read, translate_write.
      match type of Hrun with
      | ?l = _ =>
          transitivity l;
          [f_equal; rewrite ?translate_junk_length, ?length_app; simpl; lia|]
      end.
      rewrite Hrun.
      f_equal; rewrite <- ?app_assoc; rewrite ?length_app; simpl;
        rewrite ?length_app; simpl; try reflexivity; lia.
    + destruct (IH s ltac:(simpl; lia) Hs' Hd fuel
                  (out ++ [c]) (tail (junk ++ [c])) tl)
        as (junk' & Hj & Hrun).
      exists junk'. split.
      { rewrite Hj, translate_junk_length. simpl. lia. }
      simpl. rewrite translate_read, Hc, Ec, translate_write.
      match type of Hrun with
      | ?l = _ =>
          transitivity l;
          [f_equal; rewrite ?translate_junk_length, ?length_app; simpl; lia|]
      end.
      rewrite Hrun.
      f_equal; rewrite <- ?app_assoc; rewrite ?length_app; simpl;
        rewrite ?length_app; simpl; try reflexivity; lia.
Qed.

Lemma translate_fuel_split (s tl : list ascii) (k : nat) :
  (k <= length tl)%nat ->
  exists fuel, S (length (s ++ tl)) = (length (spec_unescape s) + (k + fuel))%nat.
Proof.
  intros Hk. pose proof (spec_unescape_length s) as Hlen.
  exists (S (length (s ++ tl)) - length (spec_unescape s) - k)%nat.
  rewrite length_app. lia.
Qed.

(** X1: translate_string on a string that does not end in a lone
    backslash: the buffer holds the string with the escape sequences
    replaced ([\n] by a newline, [\r] by a carriage return, any other
    escaped character by itself), which is never longer than the string
    was and is the string itself when it holds no backslash; the bytes
    behind the terminator of the input are untouched. *)
Theorem translate_string_unescapes (s rest : list ascii) :
  no_nul s -> dangling s = false ->
  exists buf,
    translate_string (s ++ NUL :: rest) = Translated buf /\
    c_str buf = spec_unescape s /\
    length buf = length (s ++ NUL :: rest) /\
    drop (S (length s)) buf = rest /\
    (length (c_str buf) <= length s)%nat /\
    (strchr s "\" = false -> c_str buf = s).
Proof.
  intros Hs Hd.
  destruct (translate_fuel_split s (NUL :: rest) 1 ltac:(simpl; lia)) as (fuel & Hfuel).
  destruct (translate_string_loop_run s Hs Hd (1 + fuel) [] [] (NUL :: rest))
    as (junk' & Hj & Hrun).
  unfold translate_string. rewrite Hfuel. simpl in Hrun, Hj.
  change (1 + fuel)%nat with (S fuel). rewrite Hrun.
  pose proof (spec_unescape_length s) as Hlen.
  pose proof (spec_unescape_no_nul s Hs) as Hnn.
  cbn [translate_string_loop]. rewrite translate_read.
  replace (is_nul NUL) with true by reflexivity.
  rewrite translate_write.
  set (buf := (spec_unescape s ++ [NUL]) ++ tail (junk' ++ [NUL]) ++ rest).
  assert (Hc : c_str buf = spec_unescape s).
  { unfold buf. rewrite <- app_assoc. simpl.
    clear -Hnn. induction Hnn as [|c u Hc _ IH]; simpl; [reflexivity|].
    rewrite Hc, IH. reflexivity. }
  exists buf. split; [reflexivity|]. split; [assumption|].
  split; [|split; [|split]].
  - unfold buf. rewrite !length_app, translate_junk_length. simpl. lia.
  - unfold buf. rewrite (app_assoc (spec_unescape s ++ [NUL])).
    apply drop_app_length'.
    rewrite !length_app, translate_junk_length. simpl. lia.
  - rewrite Hc. assumption.
  - intros Hplain. rewrite Hc. apply spec_unescape_plain. assumption.
Qed.

Lemma translate_string_unescapes_witness :
  exists buf,
    translate_string (lit "a\nb\\c" ++ NUL :: lit "xy") = Translated buf /\
    c_str buf = spec_unescape (lit "a\nb\\c") /\
    length buf = length (lit "a\nb\\c" ++ NUL :: lit "xy") /\
    drop (S (length (lit "a\nb\\c"))) buf = lit "xy" /\
    (length (c_str buf) <= length (lit "a\nb\\c"))%nat /\
    (strchr (lit "a\nb\\c") "\" = false -> c_str buf = lit "a\nb\\c").
Proof.
  apply (translate_string_unescapes (lit "a\nb\\c") (lit "xy")).
  - unfold no_nul. repeat constructor.
  - reflexivity.
Defined.

(** X2: translate_string on a string that ends in a lone backslash, in a
    buffer that ends with the terminator of the string: the backslash
    makes the loop step over the terminator, and the next read is behind
    the end of the buffer. *)
Theorem translate_string_dangling_backslash (s : list ascii) :
  no_nul s -> dangling s = false ->
  dangling (s ++ ["\"%char]) = true /\
  translate_string (s ++ ["\"%char; NUL]) = ReadBeyondBuffer.
Proof.
  intros Hs Hd. split.
  - clear Hs. revert Hd.
    induction s as [s IH] using (induction_ltof1 _ (@length ascii)); unfold ltof in IH.
    destruct s as [|c s]; [reflexivity|]. simpl.
    destruct (Ascii.eqb c "\").
    + destruct s as [|d s]; [discriminate|]. simpl. intros Hd.
      apply IH; [simpl; lia|assumption].
    + intros Hd. apply IH; [simpl; lia|assumption].
  - destruct (translate_fuel_split s ["\"%char; NUL] 2 ltac:(simpl; lia))
      as (fuel & Hfuel).
    destruct (translate_string_loop_run s Hs Hd (2 + fuel) [] [] ["\"%char; NUL])
      as (junk' & Hj & Hrun).
    unfold translate_string. rewrite Hfuel. simpl in Hrun, Hj.
    change (2 + fuel)%nat with (S (S fuel)). rewrite Hrun.
    cbn [translate_string_loop Nat.add].
    rewrite translate_read.
    replace (is_nul "\") with false by reflexivity.
    replace (Ascii.eqb "\" "\") with true by reflexivity.
    replace (S (length (spec_unescape s) + length junk'))
      with (length (spec_unescape s) + length (junk' ++ ["\"%char]))%nat
      by (rewrite length_app; simpl; lia).
    replace (spec_unescape s ++ junk' ++ ["\"%char; NUL])
      with (spec_unescape s ++ (junk' ++ ["\"%char]) ++ [NUL])
      by (rewrite <- (app_assoc junk'); reflexivity).
    rewrite translate_read, translate_write.
    rewrite lookup_ge_None_2; [reflexivity|].
    rewrite !length_app, translate_junk_length, !length_app. simpl. lia.
Qed.

Lemma translate_string_dangling_backslash_witness :
  dangling (lit "C:\\dir" ++ ["\"%char]) = true /\
  translate_string (lit "C:\\dir" ++ ["\"%char; NUL]) = ReadBeyondBuffer.
Proof.
  apply (translate_string_dangling_backslash (lit "C:\\dir")).
  - unfold no_nul. repeat constructor.
  - reflexivity.
Defined.

(** ** expand_string *)

Lemma c_str_app_NUL (s rest : list ascii) :
  no_nul s -> c_str (s ++ NUL :: rest) = s.
Proof.
  induction 1 as [|c s Hc _ IH]; simpl; [reflexivity|].
  rewrite Hc, IH. reflexivity.
Qed.

Lemma no_nul_app (a b : cstring) : no_nul (a ++ b) <-> no_nul a /\ no_nul b.
Proof. apply Forall_app. Qed.

Lemma is_prefix_spec (needle s : cstring) :
  is_prefix needle s = true <-> exists b, s = needle ++ b.
Proof.
  revert s. induction needle as [|a needle IH]; intros s; simpl.
  - split; [intros _; exists s; reflexivity|reflexivity].
  - destruct s as [|c s]; [split; [discriminate|intros (b & [=])]|].
    rewrite andb_true_iff, Ascii.eqb_eq, IH. split.
    + intros (-> & b & ->). exists b. reflexivity.
    + intros (b & [= -> ->]). split; [reflexivity|]. exists b. reflexivity.
Qed.

Lemma strstr_Some (s needle : cstring) (i : nat) :
  strstr s needle = Some i ->
  exists a b, s = a ++ needle ++ b /\ length a = i.
Proof.
  revert i. induction s as [|c s IH]; intros i; simpl.
  - destruct (is_prefix needle []) eqn:E; [|discriminate].
    intros [= <-]. apply is_prefix_spec in E as (b & E).
    exists [], b. split; [assumption|reflexivity].
  - destruct (is_prefix needle (c :: s)) eqn:E.
    + intros [= <-]. apply is_prefix_spec in E as (b & E).
      exists [], b. split; [assumption|reflexivity].
    + destruct (strstr s needle) as [j|]; [|discriminate].
      intros [= <-]. destruct (IH j eq_refl) as (a & b & -> & Ha).
      exists (c :: a), b. split; [reflexivity|simpl; congruence].
Qed.

Lemma replace_all_from_skip (srch repl : cstring) (k : nat) (s : cstring) :
  replace_all_from srch repl k s = replace_all_from srch repl 0 (drop k s).
Proof.
  revert k. induction s as [|c s IH]; intros [|k]; try reflexivity.
  simpl. apply IH.
Qed.

Lemma replace_all_found (srch repl s : cstring) (i : nat) :
  srch <> [] -> strstr s srch = Some i ->
  replace_all srch repl s
  = take i s ++ repl ++ replace_all srch repl (drop (i + length srch) s).
Proof.
  intros Hsrch. unfold replace_all. revert i.
  induction s as [|c s IH]; intros i.
  - simpl. destruct srch; [congruence|discriminate].
  - cbn [strstr replace_all_from].
    destruct (is_prefix srch (c :: s)) eqn:E.
    + intros [= <-]. rewrite replace_all_from_skip.
      destruct srch as [|x srch]; [congruence|]. simpl.
      rewrite Nat.sub_0_r. reflexivity.
    + destruct (strstr s srch) as [j|]; [|discriminate].
      intros [= <-]. rewrite (IH j eq_refl). reflexivity.
Qed.

Lemma replace_all_none (srch repl s : cstring) :
  strstr s srch = None -> replace_all srch repl s = s.
Proof.
  unfold replace_all. induction s as [|c s IH]; [reflexivity|].
  cbn [strstr replace_all_from].
  destruct (is_prefix srch (c :: s)); [discriminate|].
  destruct (strstr s srch); [discriminate|].
  intros _. rewrite IH; reflexivity.
Qed.

Lemma replace_all_no_nul (srch repl s : cstring) :
  no_nul repl -> no_nul s -> no_nul (replace_all srch repl s).
Proof.
  intros Hrepl. unfold replace_all. generalize 0%nat.
  induction s as [|c s IH]; intros k Hs; [constructor|].
  inversion Hs as [|? ? Hc Hs']; subst. cbn [replace_all_from].
  destruct k; [|apply IH; assumption].
  destruct (is_prefix srch (c :: s)).
  - apply no_nul_app. split; [assumption|apply IH; assumption].
  - constructor; [assumption|apply IH; assumption].
Qed.

(** [strlcat] on the buffer [tmp] of [expand_string]: the string [acc],
    then NUL up to the end. *)
Lemma strlcat_snd (acc src : cstring) (len : nat) :
  no_nul acc -> (length acc < len)%nat ->
  snd (strlcat (acc ++ replicate (len - length acc) NUL) src len)
  = (length acc + length src)%nat.
Proof.
  intros Hacc Hlen. unfold strlcat.
  rewrite take_ge by (rewrite length_app, length_replicate; lia).
  rewrite c_str_app_nul by assumption.
  destruct (Nat.eqb_spec (length acc) len); reflexivity.
Qed.

Lemma strlcat_fst (acc src : cstring) (len : nat) :
  no_nul acc -> (length acc + length src < len)%nat ->
  fst (strlcat (acc ++ replicate (len - length acc) NUL) src len)
  = (acc ++ src) ++ replicate (len - length (acc ++ src)) NUL.
Proof.
  intros Hacc Hlen. unfold strlcat.
  rewrite take_ge by (rewrite length_app, length_replicate; lia).
  rewrite c_str_app_nul by assumption.
  destruct (Nat.eqb_spec (length acc) len); [lia|]. cbn [fst].
  rewrite Nat.min_l by lia.
  rewrite take_app_length, firstn_all, <- app_assoc. do 2 f_equal.
  rewrite drop_app_ge by lia. rewrite drop_replicate, length_app.
  replace (len - (length acc + length src))%nat
    with (S (len - length acc - (length acc + length src + 1 - length acc)))
    by lia.
  reflexivity.
Qed.

Lemma expand_write (pre a srch b rest : list ascii) (x : ascii) :
  <[(length pre + length a)%nat := NUL]> (pre ++ (a ++ (x :: srch) ++ b) ++ NUL :: rest)
  = (pre ++ a ++ NUL :: srch) ++ b ++ NUL :: rest.
Proof.
  rewrite insert_app_r, <- !app_assoc. f_equal.
  rewrite <- (Nat.add_0_r (length a)), insert_app_r. reflexivity.
Qed.

Section ExpandLoop.

Variables (srch repl : cstring) (len : nat).
Hypothesis Hsrch : srch <> [].
Hypothesis Hrepl : no_nul repl.

(** One turn of the loop at an occurrence of [srch] behind [a]. *)
Lemma expand_string_loop_found (fuel : nat) (pre a b rest acc : cstring)
    (x : ascii) (srch' : cstring) :
  srch = x :: srch' ->
  strstr (a ++ srch ++ b) srch = Some (length a) ->
  no_nul (a ++ srch ++ b) -> no_nul acc -> (length acc < len)%nat ->
  let label1 := (pre ++ a ++ NUL :: srch') ++ b ++ NUL :: rest in
  expand_string_loop (S fuel) (pre ++ (a ++ srch ++ b) ++ NUL :: rest)
    (length pre) (acc ++ replicate (len - length acc) NUL) len srch repl
  = if (len <=? length acc + length a)%nat
    then ExpandFailed expand_string_too_long label1
    else if (len <=? length (acc ++ a) + length repl)%nat
    then ExpandFailed expand_string_too_long label1
    else
      expand_string_loop fuel label1 (length (pre ++ a ++ NUL :: srch'))
        (((acc ++ a) ++ repl) ++ replicate (len - length ((acc ++ a) ++ repl)) NUL)
        len srch repl.
Proof.
  intros Esrch Efind Hs Hacc Hlen label1.
  cbn [expand_string_loop].
  rewrite drop_app_length, (c_str_app_NUL _ rest Hs), Efind.
  apply no_nul_app in Hs as (Hna & _).
  destruct (Nat.leb_spec (length (pre ++ (a ++ srch ++ b) ++ NUL :: rest))
              (length pre + length a)) as [Hbad|_].
  { rewrite !length_app in Hbad. cbn [length] in Hbad. lia. }
  assert (Hw : <[(length pre + length a)%nat := NUL]>
                 (pre ++ (a ++ srch ++ b) ++ NUL :: rest) = label1).
  { rewrite Esrch. apply expand_write. }
  rewrite !Hw.
  assert (Hc : c_str (drop (length pre) label1) = a).
  { unfold label1. rewrite <- !app_assoc, drop_app_length. cbn [app].
    apply c_str_app_NUL. assumption. }
  rewrite Hc.
  pose proof (strlcat_snd acc a len Hacc Hlen) as Hsnd.
  destruct (strlcat (acc ++ replicate (len - length acc) NUL) a len)
    as [tmp1 k1] eqn:Ecat1.
  cbn [snd] in Hsnd. subst k1.
  destruct (Nat.leb_spec len (length acc + length a)) as [Hbig|Hfit];
    [reflexivity|].
  pose proof (strlcat_fst acc a len Hacc Hfit) as Hfst.
  rewrite Ecat1 in Hfst. cbn [fst] in Hfst. subst tmp1.
  assert (Hacc1 : no_nul (acc ++ a)) by (apply no_nul_app; split; assumption).
  assert (Hfit1 : (length (acc ++ a) < len)%nat) by (rewrite length_app; lia).
  pose proof (strlcat_snd (acc ++ a) repl len Hacc1 Hfit1) as Hsnd.
  destruct (strlcat ((acc ++ a) ++ replicate (len - length (acc ++ a)) NUL) repl len)
    as [tmp2 k2] eqn:Ecat2.
  cbn [snd] in Hsnd. subst k2.
  destruct (Nat.leb_spec len (length (acc ++ a) + length repl)) as [Hbig|Hfit2];
    [reflexivity|].
  pose proof (strlcat_fst (acc ++ a) repl len Hacc1 Hfit2) as Hfst.
  rewrite Ecat2 in Hfst. cbn [fst] in Hfst. subst tmp2.
  f_equal. rewrite !length_app. cbn [length]. rewrite Esrch. cbn [length]. lia.
Qed.

(** The last turn: no occurrence of [srch] is left in [s]. *)
Lemma expand_string_loop_none (fuel : nat) (pre s rest acc : cstring) :
  strstr s srch = None ->
  no_nul s -> no_nul acc -> (length acc < len)%nat ->
  let label := pre ++ s ++ NUL :: rest in
  expand_string_loop (S fuel) label (length pre)
    (acc ++ replicate (len - length acc) NUL) len srch repl
  = if (len <=? length acc + length s)%nat
    then ExpandFailed expand_string_too_long label
    else if (length label <? length (acc ++ s) + 1)%nat then ExpandOverflow
    else Expanded ((acc ++ s) ++ NUL :: drop (length (acc ++ s) + 1) label).
Proof.
  intros Efind Hs Hacc Hlen label.
  cbn [expand_string_loop].
  assert (Hc : c_str (drop (length pre) label) = s).
  { unfold label. rewrite drop_app_length. apply c_str_app_NUL. assumption. }
  rewrite !Hc, Efind.
  pose proof (strlcat_snd acc s len Hacc Hlen) as Hsnd.
  destruct (strlcat (acc ++ replicate (len - length acc) NUL) s len)
    as [tmp' k] eqn:Ecat.
  cbn [snd] in Hsnd. subst k.
  destruct (Nat.leb_spec len (length acc + length s)) as [Hbig|Hfit];
    [reflexivity|].
  pose proof (strlcat_fst acc s len Hacc Hfit) as Hfst.
  rewrite Ecat in Hfst. cbn [fst] in Hfst. subst tmp'.
  assert (Hacc1 : no_nul (acc ++ s)) by (apply no_nul_app; split; assumption).
  rewrite c_str_app_nul by assumption.
  unfold strlcpy. destruct (Nat.eqb_spec len 0); [lia|].
  rewrite Nat.min_l by (rewrite length_app; lia).
  rewrite firstn_all.
  destruct (length label <? length (acc ++ s) + 1)%nat; reflexivity.
Qed.

Lemma expand_string_loop_spec :
  forall s, no_nul s ->
  forall fuel pre acc rest,
    no_nul acc -> (length acc < len)%nat -> (length s < fuel)%nat ->
    (len <= length (pre ++ s ++ NUL :: rest))%nat ->
    let label := pre ++ s ++ NUL :: rest in
    let tmp := acc ++ replicate (len - length acc) NUL in
    let R := acc ++ replace_all srch repl s in
    ((length R < len)%nat ->
     exists label',
       expand_string_loop fuel label (length pre) tmp len srch repl
       = Expanded label' /\
       c_str label' = R /\ length label' = length label) /\
    ((len <= length R)%nat ->
     exists label',
       expand_string_loop fuel label (length pre) tmp len srch repl
       = ExpandFailed expand_string_too_long label' /\
       length label' = length label /\
       take (length pre) label' = pre /\
       c_str (drop (length pre) label') = before_first srch s).
Proof.
  induction s as [s IH] using (induction_ltof1 _ (@length ascii)); unfold ltof in IH.
  intros Hs fuel pre acc rest Hacc Hlen Hfuel Hbuf.
  destruct fuel as [|fuel]; [lia|]. cbn zeta. unfold before_first.
  destruct (strstr s srch) as [i|] eqn:Efind.
  - destruct (strstr_Some _ _ _ Efind) as (a & b & Es & Ha).
    destruct srch as [|x srch'] eqn:Esrch; [congruence|]. rewrite <- Esrch in *.
    subst s i.
    rewrite (expand_string_loop_found fuel pre a b rest acc x srch'
               Esrch Efind Hs Hacc Hlen).
    rewrite (replace_all_found srch repl _ _ Hsrch Efind).
    rewrite take_app_length.
    replace (drop (length a + length srch) (a ++ srch ++ b)) with b
      by (rewrite <- length_app, app_assoc, drop_app_length; reflexivity).
    pose proof Hs as Hs0.
    apply no_nul_app in Hs as (Hna & Hs). apply no_nul_app in Hs as (_ & Hnb).
    assert (Hlsrch : length srch = S (length srch')) by (rewrite Esrch; reflexivity).
    assert (Hl1 : length ((pre ++ a ++ NUL :: srch') ++ b ++ NUL :: rest)
                  = length (pre ++ (a ++ srch ++ b) ++ NUL :: rest)).
    { rewrite !length_app. cbn [length]. rewrite ?length_app. cbn [length]. lia. }
    assert (Ht1 : forall tl, take (length pre) ((pre ++ a ++ NUL :: srch') ++ tl) = pre).
    { intros tl. rewrite <- app_assoc. apply take_app_length. }
    assert (Hc1 : forall tl, c_str (drop (length pre) ((pre ++ a ++ NUL :: srch') ++ tl)) = a).
    { intros tl. rewrite <- !app_assoc, drop_app_length. cbn [app].
      apply c_str_app_NUL. assumption. }
    rewrite !length_app in Hfuel.
    destruct (Nat.leb_spec len (length acc + length a)) as [Hbig|Hfit].
    { split; [rewrite !length_app; lia|]. intros _.
      eexists. split; [reflexivity|]. split; [exact Hl1|]. split; [apply Ht1|apply Hc1]. }
    destruct (Nat.leb_spec len (length (acc ++ a) + length repl)) as [Hbig|Hfit2].
    { split; [rewrite !length_app in *; lia|]. intros _.
      eexists. split; [reflexivity|]. split; [exact Hl1|]. split; [apply Ht1|apply Hc1]. }
    assert (Hacc2 : no_nul ((acc ++ a) ++ repl)).
    { apply no_nul_app. split; [apply no_nul_app; split|]; assumption. }
    assert (Hfit3 : (length ((acc ++ a) ++ repl) < len)%nat)
      by (rewrite length_app; lia).
    destruct (IH b ltac:(rewrite !length_app; lia) Hnb fuel (pre ++ a ++ NUL :: srch')
                ((acc ++ a) ++ repl) rest Hacc2 Hfit3 ltac:(lia)
                ltac:(rewrite Hl1; exact Hbuf)) as [IHok IHfail].
    cbn zeta in IHok, IHfail.
    replace (acc ++ a ++ repl ++ replace_all srch repl b)
      with (((acc ++ a) ++ repl) ++ replace_all srch repl b)
      by (rewrite <- !app_assoc; reflexivity).
    split.
    + intros HR. destruct (IHok HR) as (label' & -> & Hc & Hl).
      exists label'. split; [reflexivity|]. split; [assumption|].
      rewrite Hl. exact Hl1.
    + intros HR. destruct (IHfail HR) as (label' & -> & Hl & Ht & _).
      exists label'. split; [reflexivity|]. split; [rewrite Hl; exact Hl1|].
      rewrite <- (take_drop (length (pre ++ a ++ NUL :: srch')) label'), Ht.
      split; [apply Ht1|apply Hc1].
  - rewrite (expand_string_loop_none fuel pre s rest acc Efind Hs Hacc Hlen).
    rewrite (replace_all_none srch repl s Efind), length_app.
    assert (Hacc1 : no_nul (acc ++ s)) by (apply no_nul_app; split; assumption).
    destruct (Nat.leb_spec len (length acc + length s)) as [Hbig|Hfit].
    { split; [lia|]. intros _. eexists. split; [reflexivity|].
      split; [reflexivity|]. split; [apply take_app_length|].
      rewrite drop_app_length. apply c_str_app_NUL. assumption. }
    split; [|lia]. intros _.
    rewrite ?(length_app acc s).
    destruct (Nat.ltb_spec (length (pre ++ s ++ NUL :: rest))
                (length acc + length s + 1)) as [Hbad|Hok]; [lia|].
    eexists. split; [reflexivity|]. split.
    + apply c_str_app_NUL. assumption.
    + rewrite (length_app (acc ++ s)). cbn [length].
      rewrite length_drop, (length_app acc s). lia.
Qed.

End ExpandLoop.

Lemma expand_string_loop_len0 (fuel : nat) (s rest srch repl : cstring) :
  no_nul s ->
  exists label',
    expand_string_loop (S fuel) (s ++ NUL :: rest) 0 [] 0 srch repl
    = ExpandFailed expand_string_too_long label' /\
    c_str label' = before_first srch s /\
    length label' = length (s ++ NUL :: rest).
Proof.
  intros Hs. cbn [expand_string_loop]. unfold before_first.
  rewrite !drop_0, (c_str_app_NUL s rest Hs).
  destruct (strstr s srch) as [i|] eqn:Efind.
  - destruct (strstr_Some _ _ _ Efind) as (a & b & Es & Ha). subst s i.
    apply no_nul_app in Hs as (Hna & _).
    destruct (Nat.leb_spec (length ((a ++ srch ++ b) ++ NUL :: rest))
                (0 + length a)) as [Hbad|_].
    { rewrite !length_app in Hbad. cbn [length] in Hbad. lia. }
    unfold strlcat. cbn [take c_str length Nat.eqb Nat.add Nat.leb].
    eexists. split; [reflexivity|]. rewrite length_insert, take_app_length.
    split; [|reflexivity].
    rewrite <- !app_assoc, <- (Nat.add_0_r (length a)), insert_app_r.
    assert (Hne : exists x tl, srch ++ b ++ NUL :: rest = x :: tl)
      by (destruct srch, b; simpl; eauto).
    destruct Hne as (x & tl & ->). apply c_str_app_NUL; assumption.
  - unfold strlcat. cbn [take c_str length Nat.eqb Nat.add Nat.leb].
    eexists. split; [reflexivity|]. split; [|reflexivity].
    apply c_str_app_NUL. assumption.
Qed.

(** X3: expand_string with a search string that is not empty. It
    returns 0 exactly when the label with every occurrence of [srch]
    replaced by [repl] is shorter than [len], and the buffer then holds
    that string. *)
Theorem expand_string_replaces (calloc : Z -> Z -> bool)
    (s rest srch repl : list ascii) (len fuel : nat) :
  calloc 1 (Z.of_nat len) = true ->
  no_nul s -> c_str srch <> [] ->
  (len <= length (s ++ NUL :: rest))%nat ->
  (length s < fuel)%nat ->
  let expanded := replace_all (c_str srch) (c_str repl) s in
  let r := expand_string calloc fuel (s ++ NUL :: rest) len srch repl in
  ((length expanded < len)%nat ->
   exists label',
     r = Expanded label' /\ c_str label' = expanded /\
     length label' = length (s ++ NUL :: rest)) /\
  ((exists label', r = Expanded label') -> (length expanded < len)%nat).
Proof.
  intros Hcalloc Hs Hsrch Hbuf Hfuel expanded r.
  unfold r, expand_string. rewrite Hcalloc. cbn [negb].
  destruct (Nat.eq_dec len 0%nat) as [->|Hlen].
  - destruct fuel as [|fuel]; [lia|].
    destruct (expand_string_loop_len0 fuel s rest (c_str srch) (c_str repl) Hs)
      as (label' & Hr & _).
    cbn [replicate]. rewrite Hr.
    split; [lia|]. intros (l & [=]).
  - destruct (expand_string_loop_spec (c_str srch) (c_str repl) len Hsrch
                (c_str_no_nul repl) s Hs fuel [] [] rest
                ltac:(constructor) ltac:(simpl; lia) Hfuel Hbuf) as [Hok Hfail].
    cbn zeta in Hok, Hfail. cbn [app length Nat.sub] in Hok, Hfail.
    rewrite Nat.sub_0_r in Hok, Hfail.
    split; [exact Hok|].
    intros (l & Hl). fold (replace_all (c_str srch) (c_str repl) s) in expanded.
    destruct (Nat.lt_ge_cases (length expanded) len) as [|Hge]; [assumption|].
    destruct (Hfail Hge) as (label' & Hr & _). rewrite Hr in Hl. discriminate.
Qed.

Lemma expand_string_replaces_witness :
  let s := lit "Host: $HOST, $HOST" in
  let expanded := replace_all (c_str (lit "$HOST")) (c_str (lit "www")) s in
  let r := expand_string (fun _ _ => true) 32 (s ++ NUL :: replicate 13 NUL) 32
             (lit "$HOST") (lit "www") in
  ((length expanded < 32)%nat ->
   exists label',
     r = Expanded label' /\ c_str label' = expanded /\
     length label' = length (s ++ NUL :: replicate 13 NUL)) /\
  ((exists label', r = Expanded label') -> (length expanded < 32)%nat).
Proof.
  refine (expand_string_replaces (fun _ _ => true) (lit "Host: $HOST, $HOST")
            (replicate 13 NUL) (lit "$HOST") (lit "www") 32 32 _ _ _ _ _).
  - reflexivity.
  - unfold no_nul. repeat constructor.
  - discriminate.
  - vm_compute. lia.
  - vm_compute. lia.
Defined.

(** X4: when expand_string fails because the expanded string does not
    fit into [len] bytes, it has logged "string too long" and the label
    is not what it was: it is cut at the first occurrence of [srch]. *)
Theorem expand_string_too_long_cuts_label (calloc : Z -> Z -> bool)
    (s rest srch repl : list ascii) (len fuel : nat) :
  calloc 1 (Z.of_nat len) = true ->
  no_nul s -> c_str srch <> [] ->
  (len <= length (s ++ NUL :: rest))%nat ->
  (length s < fuel)%nat ->
  (len <= length (replace_all (c_str srch) (c_str repl) s))%nat ->
  exists label',
    expand_string calloc fuel (s ++ NUL :: rest) len srch repl
    = ExpandFailed expand_string_too_long label' /\
    c_str label' = before_first (c_str srch) s /\
    length label' = length (s ++ NUL :: rest) /\
    (forall i, strstr s (c_str srch) = Some i -> c_str label' = take i s).
Proof.
  intros Hcalloc Hs Hsrch Hbuf Hfuel Hlong.
  unfold expand_string. rewrite Hcalloc. cbn [negb].
  assert (Hcut : forall label', c_str label' = before_first (c_str srch) s ->
            forall i, strstr s (c_str srch) = Some i -> c_str label' = take i s).
  { intros label' Hc i Hi. rewrite Hc. unfold before_first. rewrite Hi. reflexivity. }
  destruct (Nat.eq_dec len 0%nat) as [->|Hlen].
  - destruct fuel as [|fuel]; [lia|].
    destruct (expand_string_loop_len0 fuel s rest (c_str srch) (c_str repl) Hs)
      as (label' & Hr & Hc & Hl).
    exists label'. cbn [replicate]. auto.
  - destruct (expand_string_loop_spec (c_str srch) (c_str repl) len Hsrch
                (c_str_no_nul repl) s Hs fuel [] [] rest
                ltac:(constructor) ltac:(simpl; lia) Hfuel Hbuf) as [_ Hfail].
    cbn zeta in Hfail. cbn [app length Nat.sub] in Hfail.
    rewrite Nat.sub_0_r in Hfail.
    destruct (Hfail Hlong) as (label' & Hr & Hl & _ & Hc).
    exists label'. rewrite drop_0 in Hc. auto.
Qed.

Lemma expand_string_too_long_cuts_label_witness :
  let s := lit "Host: $HOST, $HOST" in
  exists label',
    expand_string (fun _ _ => true) 32 (s ++ NUL :: replicate 13 NUL) 12
      (lit "$HOST") (lit "www")
    = ExpandFailed expand_string_too_long label' /\
    c_str label' = before_first (c_str (lit "$HOST")) s /\
    length label' = length (s ++ NUL :: replicate 13 NUL) /\
    (forall i, strstr s (c_str (lit "$HOST")) = Some i -> c_str label' = take i s).
Proof.
  refine (expand_string_too_long_cuts_label (fun _ _ => true)
            (lit "Host: $HOST, $HOST") (replicate 13 NUL) (lit "$HOST")
            (lit "www") 12 32 _ _ _ _ _ _).
  - reflexivity.
  - unfold no_nul. repeat constructor.
  - discriminate.
  - vm_compute. lia.
  - vm_compute. lia.
  - vm_compute. lia.
Defined.

Lemma strstr_empty (s : cstring) : strstr s [] = Some 0%nat.
Proof. destruct s; reflexivity. Qed.

Lemma expand_string_loop_empty_both (len : nat) :
  forall fuel label acc,
    label <> [] -> no_nul acc -> (length acc < len)%nat ->
    expand_string_loop fuel label 0 (acc ++ replicate (len - length acc) NUL)
      len [] []
    = ExpandFuel.
Proof.
  induction fuel as [|fuel IH]; intros label acc Hlabel Hacc Hlen; [reflexivity|].
  destruct label as [|c label]; [congruence|].
  cbn [expand_string_loop]. rewrite strstr_empty.
  cbn [Nat.add length Nat.leb].
  change (<[0%nat := NUL]> (c :: label)) with (NUL :: label).
  change (c_str (drop 0 (NUL :: label))) with (@nil ascii).
  pose proof (strlcat_snd acc [] len Hacc Hlen) as Hsnd.
  pose proof (strlcat_fst acc [] len Hacc ltac:(simpl; lia)) as Hfst.
  destruct (strlcat (acc ++ replicate (len - length acc) NUL) [] len) as [tmp k].
  cbn [fst snd length] in Hsnd, Hfst. rewrite app_nil_r in Hfst. subst tmp k.
  destruct (Nat.leb_spec len (length acc + 0)); [lia|].
  pose proof (strlcat_snd acc [] len Hacc Hlen) as Hsnd.
  pose proof (strlcat_fst acc [] len Hacc ltac:(simpl; lia)) as Hfst.
  destruct (strlcat (acc ++ replicate (len - length acc) NUL) [] len) as [tmp k].
  cbn [fst snd length] in Hsnd, Hfst. rewrite app_nil_r in Hfst. subst tmp k.
  destruct (Nat.leb_spec len (length acc + 0)); [lia|].
  apply IH; [discriminate|assumption..].
Qed.

Lemma expand_string_loop_empty_srch (len : nat) (repl : cstring) :
  repl <> [] -> no_nul repl ->
  forall fuel label acc,
    label <> [] -> no_nul acc -> (length acc < len)%nat ->
    (len - length acc < fuel)%nat ->
    exists label',
      expand_string_loop fuel label 0 (acc ++ replicate (len - length acc) NUL)
        len [] repl
      = ExpandFailed expand_string_too_long label' /\
      c_str label' = [].
Proof.
  intros Hrepl Hnn.
  induction fuel as [|fuel IH]; intros label acc Hlabel Hacc Hlen Hfuel; [lia|].
  destruct label as [|c label]; [congruence|].
  cbn [expand_string_loop]. rewrite strstr_empty.
  cbn [Nat.add length Nat.leb].
  change (<[0%nat := NUL]> (c :: label)) with (NUL :: label).
  change (c_str (drop 0 (NUL :: label))) with (@nil ascii).
  pose proof (strlcat_snd acc [] len Hacc Hlen) as Hsnd.
  pose proof (strlcat_fst acc [] len Hacc ltac:(simpl; lia)) as Hfst.
  destruct (strlcat (acc ++ replicate (len - length acc) NUL) [] len) as [tmp k].
  cbn [fst snd length] in Hsnd, Hfst. rewrite app_nil_r in Hfst. subst tmp k.
  destruct (Nat.leb_spec len (length acc + 0)); [lia|].
  pose proof (strlcat_snd acc repl len Hacc Hlen) as Hsnd.
  destruct (strlcat (acc ++ replicate (len - length acc) NUL) repl len)
    as [tmp k] eqn:Ecat.
  cbn [snd] in Hsnd. subst k.
  destruct (Nat.leb_spec len (length acc + length repl)) as [Hbig|Hfit].
  { eexists. split; reflexivity. }
  pose proof (strlcat_fst acc repl len Hacc Hfit) as Hfst.
  rewrite Ecat in Hfst. cbn [fst] in Hfst. subst tmp.
  assert (0 < length repl)%nat by (destruct repl; [congruence|simpl; lia]).
  apply IH.
  - discriminate.
  - apply no_nul_app. split; assumption.
  - rewrite length_app. lia.
  - rewrite length_app. lia.
Qed.

(** X5: expand_string with an empty search string never succeeds.
    [strstr] finds the empty string at once and again: with an empty
    replacement the loop does not end, with any other one the copies of
    the replacement fill [tmp] until the call fails, and the label is
    left empty. *)
Theorem expand_string_empty_search (calloc : Z -> Z -> bool)
    (label srch repl : list ascii) (len : nat) :
  calloc 1 (Z.of_nat len) = true ->
  c_str srch = [] -> label <> [] -> (0 < len)%nat ->
  (c_str repl = [] ->
   forall fuel, expand_string calloc fuel label len srch repl = ExpandFuel) /\
  (c_str repl <> [] ->
   forall fuel, (len < fuel)%nat ->
   exists label',
     expand_string calloc fuel label len srch repl
     = ExpandFailed expand_string_too_long label' /\
     c_str label' = []).
Proof.
  intros Hcalloc Hsrch Hlabel Hlen. unfold expand_string.
  rewrite Hcalloc, Hsrch. cbn [negb]. split.
  - intros -> fuel.
    pose proof (expand_string_loop_empty_both len fuel label [] Hlabel
                  ltac:(constructor) ltac:(simpl; lia)) as Hloop.
    cbn [app length] in Hloop. rewrite Nat.sub_0_r in Hloop. exact Hloop.
  - intros Hrepl fuel Hfuel.
    pose proof (expand_string_loop_empty_srch len (c_str repl) Hrepl
                  (c_str_no_nul repl) fuel label [] Hlabel
                  ltac:(constructor) ltac:(simpl; lia) ltac:(simpl; lia)) as Hloop.
    cbn [app length] in Hloop. rewrite Nat.sub_0_r in Hloop. exact Hloop.
Qed.

Lemma expand_string_empty_search_witness :
  (c_str (lit "x") = [] ->
   forall fuel,
     expand_string (fun _ _ => true) fuel (lit "label" ++ [NUL]) 6 [NUL] (lit "x")
     = ExpandFuel) /\
  (c_str (lit "x") <> [] ->
   forall fuel, (6 < fuel)%nat ->
   exists label',
     expand_string (fun _ _ => true) fuel (lit "label" ++ [NUL]) 6 [NUL] (lit "x")
     = ExpandFailed expand_string_too_long label' /\
     c_str label' = []).
Proof.
  refine (expand_string_empty_search (fun _ _ => true) (lit "label" ++ [NUL])
            [NUL] (lit "x") 6 _ _ _ _).
  - reflexivity.
  - reflexivity.
  - discriminate.
  - lia.
Defined.

(** ** Address masks and sockaddr_cmp *)

Lemma land_bytes (x y X Y : Z) :
  0 <= x < 2 ^ 8 -> 0 <= y < 2 ^ 8 ->
  Z.land (x + 2 ^ 8 * X) (y + 2 ^ 8 * Y) = Z.land x y + 2 ^ 8 * Z.land X Y.
Proof.
  intros Hx Hy.
  set (A := x + 2 ^ 8 * X). set (B := y + 2 ^ 8 * Y).
  assert (HA : A / 2 ^ 8 = X /\ A mod 2 ^ 8 = x).
  { unfold A. change (2 ^ 8) with 256 in *. Z.div_mod_to_equations. lia. }
  assert (HB : B / 2 ^ 8 = Y /\ B mod 2 ^ 8 = y).
  { unfold B. change (2 ^ 8) with 256 in *. Z.div_mod_to_equations. lia. }
  destruct HA as [HA1 HA2], HB as [HB1 HB2].
  rewrite (Z.div_mod (Z.land A B) (2 ^ 8)) by lia.
  rewrite <- Z.shiftr_div_pow2, Z.shiftr_land, !Z.shiftr_div_pow2 by lia.
  rewrite HA1, HB1.
  rewrite <- Z.land_ones by lia.
  replace (Z.land (Z.land A B) (Z.ones 8))
    with (Z.land (Z.land A (Z.ones 8)) (Z.land B (Z.ones 8))).
  - rewrite !Z.land_ones by lia. rewrite HA2, HB2. lia.
  - apply Z.bits_inj'. intros n _. rewrite !Z.land_spec.
    destruct (Z.testbit A n), (Z.testbit B n), (Z.testbit (Z.ones 8) n); reflexivity.
Qed.

Lemma le_uint_range (b : list Z) :
  is_bytes b -> 0 <= le_uint b < 2 ^ (8 * Z.of_nat (length b)).
Proof.
  induction 1 as [|x b Hx _ IH]; [simpl; lia|].
  cbn [le_uint length]. rewrite Nat2Z.inj_succ.
  replace (8 * Z.succ (Z.of_nat (length b))) with (8 + 8 * Z.of_nat (length b)) by lia.
  rewrite Z.pow_add_r by lia. nia.
Qed.

Lemma le_uint_land (xs : list Z) :
  forall ys, length xs = length ys -> is_bytes xs -> is_bytes ys ->
  Z.land (le_uint xs) (le_uint ys) = le_uint (zip_with Z.land xs ys).
Proof.
  induction xs as [|x xs IH]; intros [|y ys] Hlen Hxs Hys; try discriminate;
    [reflexivity|].
  inversion Hxs; inversion Hys; subst. cbn [le_uint zip_with].
  rewrite land_bytes by assumption. rewrite IH by (auto; simpl in Hlen; lia).
  reflexivity.
Qed.

Lemma le_uint_inj (xs : list Z) :
  forall ys, length xs = length ys -> is_bytes xs -> is_bytes ys ->
  le_uint xs = le_uint ys -> xs = ys.
Proof.
  induction xs as [|x xs IH]; intros [|y ys] Hlen Hxs Hys; try discriminate;
    [reflexivity|].
  inversion Hxs; inversion Hys; subst. cbn [le_uint]. intros Heq.
  assert (x = y /\ le_uint xs = le_uint ys) as [-> Hr] by lia.
  f_equal. apply IH; auto.
Qed.

Lemma be_uint_acc (b : list Z) (acc : Z) :
  fold_left (fun acc x => acc * 2 ^ 8 + x) b acc
  = acc * 2 ^ (8 * Z.of_nat (length b)) + be_uint b.
Proof.
  unfold be_uint. revert acc.
  induction b as [|x b IH] using rev_ind; intros acc; [simpl; lia|].
  rewrite !fold_left_app, length_app. cbn [fold_left length].
  rewrite IH, Nat2Z.inj_add.
  replace (8 * (Z.of_nat (length b) + Z.of_nat 1)) with (8 * Z.of_nat (length b) + 8)
    by lia.
  rewrite Z.pow_add_r by lia. lia.
Qed.

Lemma be_uint_snoc (b : list Z) (x : Z) :
  be_uint (b ++ [x]) = x + 2 ^ 8 * be_uint b.
Proof. unfold be_uint. rewrite fold_left_app. simpl. lia. Qed.

Lemma be_uint_le (b : list Z) : be_uint b = le_uint (rev b).
Proof.
  induction b as [|x b IH] using rev_ind; [reflexivity|].
  rewrite be_uint_snoc, rev_app_distr. simpl. rewrite IH. reflexivity.
Qed.

Lemma is_bytes_rev (b : list Z) : is_bytes b -> is_bytes (rev b).
Proof. unfold is_bytes. rewrite !List.Forall_forall. intros H x Hx. apply H, in_rev, Hx. Qed.

Lemma rev_zip_with {A B C} (f : A -> B -> C) (xs : list A) :
  forall ys, length xs = length ys ->
  rev (zip_with f xs ys) = zip_with f (rev xs) (rev ys).
Proof.
  induction xs as [|x xs IH]; intros [|y ys] Hlen; try discriminate; [reflexivity|].
  simpl in Hlen. cbn [zip_with rev]. rewrite IH by lia.
  rewrite zip_with_app by (rewrite !length_rev; lia). reflexivity.
Qed.

Lemma be_uint_range (b : list Z) :
  is_bytes b -> 0 <= be_uint b < 2 ^ (8 * Z.of_nat (length b)).
Proof.
  intros Hb. rewrite be_uint_le, <- (length_rev b).
  apply le_uint_range, is_bytes_rev, Hb.
Qed.

Lemma be_uint_land (xs ys : list Z) :
  length xs = length ys -> is_bytes xs -> is_bytes ys ->
  Z.land (be_uint xs) (be_uint ys) = be_uint (zip_with Z.land xs ys).
Proof.
  intros Hlen Hxs Hys. rewrite !be_uint_le, rev_zip_with by assumption.
  apply le_uint_land; [rewrite !length_rev; assumption|apply is_bytes_rev; assumption..].
Qed.

Lemma be_uint_inj (xs ys : list Z) :
  length xs = length ys -> is_bytes xs -> is_bytes ys ->
  be_uint xs = be_uint ys -> xs = ys.
Proof.
  intros Hlen Hxs Hys. rewrite !be_uint_le. intros Heq.
  apply le_uint_inj in Heq;
    [|rewrite !length_rev; assumption|apply is_bytes_rev; assumption..].
  rewrite <- (rev_involutive xs), <- (rev_involutive ys), Heq. reflexivity.
Qed.

Lemma land_byte (x y : Z) : 0 <= x < 2 ^ 8 -> 0 <= Z.land x y < 2 ^ 8.
Proof.
  intros Hx.
  replace (Z.land x y) with (Z.land x y mod 2 ^ 8); [apply Z.mod_pos_bound; lia|].
  rewrite <- Z.land_ones by lia.
  rewrite <- (Z.mod_small x (2 ^ 8)) at 2 by lia.
  rewrite <- Z.land_ones by lia.
  apply Z.bits_inj'. intros n _. rewrite !Z.land_spec.
  destruct (Z.testbit x n), (Z.testbit y n), (Z.testbit (Z.ones 8) n); reflexivity.
Qed.

Lemma is_bytes_land (xs ys : list Z) :
  is_bytes xs -> is_bytes ys -> is_bytes (zip_with Z.land xs ys).
Proof.
  intros Hxs. revert ys. induction Hxs as [|x xs Hx _ IH]; intros ys Hys;
    [constructor|].
  destruct Hys as [|y ys Hy Hys]; [constructor|]. cbn [zip_with].
  constructor; [apply land_byte; assumption|apply IH; assumption].
Qed.

Section SockaddrProperties.

Variable BYTE_ORDER : byte_order.

Lemma load_uint_land (xs ys : list Z) :
  length xs = length ys -> is_bytes xs -> is_bytes ys ->
  Z.land (load_uint BYTE_ORDER xs) (load_uint BYTE_ORDER ys)
  = load_uint BYTE_ORDER (zip_with Z.land xs ys).
Proof.
  unfold load_uint. destruct BYTE_ORDER; [apply le_uint_land|apply be_uint_land].
Qed.

Lemma load_uint_inj (xs ys : list Z) :
  length xs = length ys -> is_bytes xs -> is_bytes ys ->
  load_uint BYTE_ORDER xs = load_uint BYTE_ORDER ys -> xs = ys.
Proof.
  unfold load_uint. destruct BYTE_ORDER; [apply le_uint_inj|apply be_uint_inj].
Qed.

(** One word of the comparison is passed exactly when the two byte
    sequences agree under the mask. *)
Lemma sockaddr_cmp_word_zero (a b m : list Z) (next : Z) :
  length a = length m -> length b = length m ->
  is_bytes a -> is_bytes b -> is_bytes m ->
  sockaddr_cmp_word (load_uint BYTE_ORDER a) (load_uint BYTE_ORDER b)
    (load_uint BYTE_ORDER m) next = 0
  <-> zip_with Z.land a m = zip_with Z.land b m /\ next = 0.
Proof.
  intros Ha Hb Hba Hbb Hbm. unfold sockaddr_cmp_word.
  rewrite !load_uint_land by assumption.
  destruct (Z.ltb_spec (load_uint BYTE_ORDER (zip_with Z.land b m))
              (load_uint BYTE_ORDER (zip_with Z.land a m))) as [H1|H1].
  { split; [discriminate|]. intros [E _]. rewrite E in H1. lia. }
  destruct (Z.ltb_spec (load_uint BYTE_ORDER (zip_with Z.land a m))
              (load_uint BYTE_ORDER (zip_with Z.land b m))) as [H2|H2].
  { split; [discriminate|]. intros [E _]. rewrite E in H2. lia. }
  split.
  - intros ->. split; [|reflexivity].
    apply load_uint_inj; [rewrite !length_zip_with; lia|
                          apply is_bytes_land; assumption..|lia].
  - intros [_ ->]. reflexivity.
Qed.

End SockaddrProperties.

Lemma testbit_above (x w n : Z) :
  0 <= x < 2 ^ w -> w <= n -> Z.testbit x n = false.
Proof.
  intros Hx Hn. destruct (Z.eq_dec x 0) as [->|Hx0]; [apply Z.bits_0|].
  apply Z.bits_above_log2; [lia|].
  assert (Z.log2 x < w); [|lia]. apply Z.log2_lt_pow2; lia.
Qed.

Lemma land_high_bits_clear (w k x : Z) :
  0 <= k <= w -> 0 <= x < 2 ^ w ->
  Z.land x (high_bits w (w - k)) = x / 2 ^ k * 2 ^ k.
Proof.
  intros Hk Hx. unfold high_bits. replace (w - (w - k)) with k by lia.
  replace (2 ^ w - 2 ^ k) with (Z.shiftl (Z.ones (w - k)) k).
  2:{ rewrite Z.shiftl_mul_pow2, Z.ones_equiv by lia.
      replace w with ((w - k) + k) at 2 by lia. rewrite Z.pow_add_r by lia. lia. }
  rewrite <- Z.shiftr_div_pow2, <- Z.shiftl_mul_pow2 by lia.
  apply Z.bits_inj'. intros n Hn.
  rewrite Z.land_spec, !Z.shiftl_spec by lia.
  destruct (Z.lt_ge_cases n k) as [Hlt|Hge].
  - rewrite !(Z.testbit_neg_r _ (n - k)) by lia. apply andb_false_r.
  - rewrite Z.shiftr_spec by lia. replace (n - k + k) with n by lia.
    rewrite Z.testbit_ones_nonneg by lia.
    destruct (Z.ltb_spec (n - k) (w - k)); [apply andb_true_r|].
    rewrite (testbit_above x w n) by lia. reflexivity.
Qed.

Lemma land_high_bits (w bits x y : Z) :
  0 <= bits <= w -> 0 <= x < 2 ^ w -> 0 <= y < 2 ^ w ->
  Z.land x (high_bits w bits) = Z.land y (high_bits w bits)
  <-> x / 2 ^ (w - bits) = y / 2 ^ (w - bits).
Proof.
  intros Hb Hx Hy. replace bits with (w - (w - bits)) at 1 2 by lia.
  rewrite !land_high_bits_clear by lia.
  assert (0 < 2 ^ (w - bits)) by (apply Z.pow_pos_nonneg; lia).
  split; [intros E; apply Z.mul_cancel_r in E; [assumption|lia]|congruence].
Qed.

(** A property of every number below [n], checked one by one. *)
Lemma check_below (f : Z -> bool) (n : nat) :
  forallb (fun k => f (Z.of_nat k)) (seq 0 n) = true ->
  forall p, 0 <= p < Z.of_nat n -> f p = true.
Proof.
  intros Hall p Hp. rewrite forallb_forall in Hall.
  rewrite <- (Z2Nat.id p) by lia. apply Hall, in_seq. lia.
Qed.

Lemma be32_bytes_is_bytes (x : Z) : is_bytes (be32_bytes x).
Proof. unfold be32_bytes. repeat constructor; apply Z.mod_pos_bound; lia. Qed.

Lemma be_uint_be32_bytes (x : Z) : 0 <= x < 2 ^ 32 -> be_uint (be32_bytes x) = x.
Proof.
  intros Hx. unfold be_uint, be32_bytes. cbn [fold_left].
  change (2 ^ 8) with 256. change (2 ^ 16) with 65536.
  change (2 ^ 24) with 16777216. change (2 ^ 32) with 4294967296 in Hx.
  Z.div_mod_to_equations. lia.
Qed.

Lemma high_bits_range (w bits : Z) :
  0 <= bits <= w -> 0 <= high_bits w bits < 2 ^ w.
Proof.
  intros Hb. unfold high_bits.
  assert (0 < 2 ^ (w - bits)) by (apply Z.pow_pos_nonneg; lia).
  assert (2 ^ (w - bits) <= 2 ^ w) by (apply Z.pow_le_mono_r; lia). lia.
Qed.

Lemma u_int8_t_range (n : Z) : 0 <= u_int8_t n < 256.
Proof. unfold u_int8_t. apply Z.mod_pos_bound. lia. Qed.

Lemma prefixlen2mask_shift (p : Z) :
  0 <= p < 256 ->
  (if p =? 0 then 0
   else u_int32_t (Z.shiftl 0xffffffff (32 - (if 32 <? p then 32 else p))))
  = high_bits 32 (Z.min p 32).
Proof.
  intros Hp. apply Z.eqb_eq.
  apply (check_below (fun p =>
    (if p =? 0 then 0
     else u_int32_t (Z.shiftl 0xffffffff (32 - (if 32 <? p then 32 else p))))
    =? high_bits 32 (Z.min p 32)) 256); [vm_compute; reflexivity|lia].
Qed.

Lemma prefixlen2mask6_be_uint (p : Z) :
  0 <= p < 256 ->
  be_uint (prefixlen2mask6 p) = high_bits 128 (Z.min p 128) /\
  length (prefixlen2mask6 p) = 16%nat /\
  is_bytes (prefixlen2mask6 p).
Proof.
  intros Hp.
  pose proof (check_below (fun p =>
    (be_uint (prefixlen2mask6 p) =? high_bits 128 (Z.min p 128))
    && (length (prefixlen2mask6 p) =? 16)%nat
    && forallb (fun x => (0 <=? x) && (x <? 2 ^ 8)) (prefixlen2mask6 p)) 256
    ltac:(vm_compute; reflexivity) p Hp) as Hc.
  cbv beta in Hc. rewrite !andb_true_iff in Hc. destruct Hc as [[H1 H2] H3].
  split; [apply Z.eqb_eq, H1|]. split; [apply Nat.eqb_eq, H2|].
  unfold is_bytes. rewrite List.Forall_forall. rewrite forallb_forall in H3.
  intros x Hx. specialize (H3 x Hx). lia.
Qed.

Section SockaddrCmp.

Variable BYTE_ORDER : byte_order.
Variable AF_UNSPEC : Z.
Variable af : address_family -> Z.

Lemma htonl_0 : htonl BYTE_ORDER 0 = 0.
Proof. unfold htonl, load_uint. destruct BYTE_ORDER; reflexivity. Qed.

Lemma prefixlen2mask_htonl (p : Z) :
  0 <= p < 256 ->
  prefixlen2mask BYTE_ORDER p = htonl BYTE_ORDER (high_bits 32 (Z.min p 32)).
Proof.
  intros Hp. pose proof (prefixlen2mask_shift p Hp) as Hs.
  unfold prefixlen2mask. destruct (p =? 0).
  - rewrite <- Hs. symmetry. apply htonl_0.
  - cbv zeta. rewrite Hs. reflexivity.
Qed.

(** The mask [sockaddr_cmp] applies to an IPv4 address. *)
Lemma sockaddr_cmp_mask4 (prefixlen : Z) :
  (if prefixlen =? -1 then 0xffffffff
   else prefixlen2mask BYTE_ORDER (u_int8_t prefixlen))
  = load_uint BYTE_ORDER (be32_bytes (high_bits 32 (prefix_bits 32 prefixlen))).
Proof.
  unfold prefix_bits. destruct (prefixlen =? -1).
  - unfold load_uint. destruct BYTE_ORDER; reflexivity.
  - apply prefixlen2mask_htonl, u_int8_t_range.
Qed.

Lemma prefix_bits_range (w prefixlen : Z) :
  0 <= w -> 0 <= prefix_bits w prefixlen <= w.
Proof.
  intros Hw. unfold prefix_bits. pose proof (u_int8_t_range prefixlen).
  destruct (prefixlen =? -1); lia.
Qed.

(** The mask [sockaddr_cmp] applies to an IPv6 address. *)
Lemma sockaddr_cmp_mask6 (prefixlen : Z) :
  exists m,
    (if prefixlen =? -1 then replicate 4 0xffffffff
     else uint32x4 BYTE_ORDER (prefixlen2mask6 (u_int8_t prefixlen)))
    = uint32x4 BYTE_ORDER m /\
    length m = 16%nat /\ is_bytes m /\
    be_uint m = high_bits 128 (prefix_bits 128 prefixlen).
Proof.
  unfold prefix_bits. destruct (prefixlen =? -1).
  - exists (replicate 16 0xff). split; [|split; [|split]].
    + unfold uint32x4, load_uint. destruct BYTE_ORDER; reflexivity.
    + reflexivity.
    + repeat constructor; lia.
    + reflexivity.
  - destruct (prefixlen2mask6_be_uint (u_int8_t prefixlen) (u_int8_t_range _))
      as (H1 & H2 & H3).
    exists (prefixlen2mask6 (u_int8_t prefixlen)). auto.
Qed.

Lemma bytes_agree_prefix (w bits : Z) (a b m : list Z) :
  w = 8 * Z.of_nat (length m) -> 0 <= bits <= w ->
  length a = length m -> length b = length m ->
  is_bytes a -> is_bytes b -> is_bytes m ->
  be_uint m = high_bits w bits ->
  zip_with Z.land a m = zip_with Z.land b m
  <-> be_uint a / 2 ^ (w - bits) = be_uint b / 2 ^ (w - bits).
Proof.
  intros Hw Hbits Ha Hb Hba Hbb Hbm Hm.
  pose proof (be_uint_range a Hba) as Hra. pose proof (be_uint_range b Hbb) as Hrb.
  rewrite Ha, <- Hw in Hra. rewrite Hb, <- Hw in Hrb.
  rewrite <- (land_high_bits w bits) by assumption.
  rewrite <- Hm, !be_uint_land by assumption.
  split; [congruence|]. intros E.
  apply be_uint_inj in E;
    [assumption|rewrite !length_zip_with; lia|apply is_bytes_land; assumption..].
Qed.

Lemma sockaddr_cmp_word_antisym (av bv mv n : Z) :
  sockaddr_cmp_word bv av mv (- n) = - sockaddr_cmp_word av bv mv n.
Proof.
  unfold sockaddr_cmp_word.
  destruct (Z.ltb_spec (Z.land av mv) (Z.land bv mv)),
           (Z.ltb_spec (Z.land bv mv) (Z.land av mv)); lia.
Qed.

End SockaddrCmp.

Lemma chunks16 {A} (l l' : list A) :
  length l = 16%nat -> length l' = 16%nat ->
  (take 4 (drop 12 l) = take 4 (drop 12 l') /\
   take 4 (drop 8 l) = take 4 (drop 8 l') /\
   take 4 (drop 4 l) = take 4 (drop 4 l') /\
   take 4 l = take 4 l')
  <-> l = l'.
Proof.
  intros Hl Hl'.
  do 17 (destruct l as [|? l]; try discriminate Hl).
  do 17 (destruct l' as [|? l']; try discriminate Hl').
  cbn [take drop firstn skipn]. split.
  - intros (H3 & H2 & H1 & H0). congruence.
  - intros E. injection E as -> -> -> -> -> -> -> -> -> -> -> -> -> -> -> ->.
    auto.
Qed.

(** X6: prefixlen2mask.  In network byte order the mask has the
    [prefixlen] highest of its 32 bits set; a length above 32 counts as
    32, the length 0 gives the empty mask. *)
Theorem prefixlen2mask_high_bits (BYTE_ORDER : byte_order) (prefixlen : Z) :
  0 <= prefixlen < 2 ^ 8 ->
  prefixlen2mask BYTE_ORDER prefixlen
  = htonl BYTE_ORDER (high_bits 32 (Z.min prefixlen 32)) /\
  (forall i, 0 <= i < 32 ->
     Z.testbit (high_bits 32 (Z.min prefixlen 32)) i
     = (32 - Z.min prefixlen 32 <=? i)).
Proof.
  intros Hp. split; [apply prefixlen2mask_htonl; assumption|].
  intros i Hi.
  assert (Hk : 0 <= 32 - Z.min prefixlen 32 <= 32) by lia.
  pose proof (land_high_bits_clear 32 (32 - Z.min prefixlen 32) (2 ^ 32 - 1)
                Hk ltac:(lia)) as Hl.
  replace (32 - (32 - Z.min prefixlen 32)) with (Z.min prefixlen 32) in Hl by lia.
  replace (2 ^ 32 - 1) with (Z.ones 32) in Hl by reflexivity.
  rewrite Z.land_comm, Z.land_ones in Hl by lia.
  rewrite Z.mod_small in Hl by (apply high_bits_range; lia).
  rewrite Hl.
  rewrite <- Z.shiftr_div_pow2, <- Z.shiftl_mul_pow2 by lia.
  rewrite Z.shiftl_spec by lia.
  destruct (Z.leb_spec (32 - Z.min prefixlen 32) i) as [Hle|Hgt].
  - rewrite Z.shiftr_spec by lia.
    replace (i - (32 - Z.min prefixlen 32) + (32 - Z.min prefixlen 32)) with i by lia.
    rewrite Z.testbit_ones_nonneg by lia.
    destruct (Z.ltb_spec i 32); [reflexivity|lia].
  - apply Z.testbit_neg_r. lia.
Qed.

Lemma prefixlen2mask_high_bits_witness :
  prefixlen2mask LITTLE_ENDIAN 24 = htonl LITTLE_ENDIAN (high_bits 32 (Z.min 24 32)) /\
  (forall i, 0 <= i < 32 ->
     Z.testbit (high_bits 32 (Z.min 24 32)) i = (32 - Z.min 24 32 <=? i)).
Proof. apply (prefixlen2mask_high_bits LITTLE_ENDIAN 24). lia. Defined.

(** X7: prefixlen2mask6.  The mask is sixteen bytes which, read as one
    number with the highest byte first, have the [prefixlen] highest of
    128 bits set; a length above 128 counts as 128. *)
Theorem prefixlen2mask6_high_bits (prefixlen : Z) :
  0 <= prefixlen < 2 ^ 8 ->
  length (prefixlen2mask6 prefixlen) = 16%nat /\
  is_bytes (prefixlen2mask6 prefixlen) /\
  be_uint (prefixlen2mask6 prefixlen) = high_bits 128 (Z.min prefixlen 128).
Proof.
  intros Hp. destruct (prefixlen2mask6_be_uint prefixlen Hp) as (H1 & H2 & H3).
  auto.
Qed.

Lemma prefixlen2mask6_high_bits_witness :
  length (prefixlen2mask6 61) = 16%nat /\
  is_bytes (prefixlen2mask6 61) /\
  be_uint (prefixlen2mask6 61) = high_bits 128 (Z.min 61 128).
Proof. apply (prefixlen2mask6_high_bits 61). lia. Defined.

(** X8: sockaddr_cmp on two IPv4 addresses returns 0 exactly when the
    addresses agree in their leading bits: all 32 for the prefix length
    -1, else as many as the prefix length converted to [u_int8_t] says,
    32 at most.  This does not depend on the byte order of the host. *)
Theorem sockaddr_cmp_inet_prefix (BYTE_ORDER : byte_order) (AF_UNSPEC : Z)
    (af : address_family -> Z) (a b : sockaddr) (prefixlen : Z) :
  af AF_INET <> AF_UNSPEC ->
  sa_family a = af AF_INET -> sa_family b = af AF_INET ->
  length (sin_addr a) = 4%nat -> length (sin_addr b) = 4%nat ->
  is_bytes (sin_addr a) -> is_bytes (sin_addr b) ->
  let bits := prefix_bits 32 prefixlen in
  sockaddr_cmp BYTE_ORDER AF_UNSPEC af a b prefixlen = 0
  <-> be_uint (sin_addr a) / 2 ^ (32 - bits) = be_uint (sin_addr b) / 2 ^ (32 - bits).
Proof.
  intros Hu Hfa Hfb Hla Hlb Hba Hbb bits. unfold sockaddr_cmp.
  rewrite Hfa, Hfb.
  destruct (Z.eqb_spec (af AF_INET) AF_UNSPEC) as [|_]; [contradiction|].
  rewrite Z.ltb_irrefl, Z.eqb_refl. cbn [orb]. cbv zeta.
  rewrite sockaddr_cmp_mask4. fold bits.
  pose proof (prefix_bits_range 32 prefixlen ltac:(lia)) as Hbits. fold bits in Hbits.
  set (m := be32_bytes (high_bits 32 bits)).
  assert (Hm : be_uint m = high_bits 32 bits)
    by (apply be_uint_be32_bytes, high_bits_range; assumption).
  rewrite (sockaddr_cmp_word_zero BYTE_ORDER (sin_addr a) (sin_addr b) m 0);
    [|assumption..|apply be32_bytes_is_bytes].
  rewrite (bytes_agree_prefix 32 bits (sin_addr a) (sin_addr b) m);
    [tauto|reflexivity|assumption..|apply be32_bytes_is_bytes|assumption].
Qed.

Lemma sockaddr_cmp_inet_prefix_witness :
  let a := {| sa_family := 2; sin_addr := [192; 168; 1; 7]; sin6_addr := [] |} in
  let b := {| sa_family := 2; sin_addr := [192; 168; 1; 200]; sin6_addr := [] |} in
  let af f := match f with AF_INET => 2 | AF_INET6 => 28 end in
  sockaddr_cmp LITTLE_ENDIAN 0 af a b 24 = 0
  <-> be_uint (sin_addr a) / 2 ^ (32 - prefix_bits 32 24)
      = be_uint (sin_addr b) / 2 ^ (32 - prefix_bits 32 24).
Proof.
  refine (sockaddr_cmp_inet_prefix LITTLE_ENDIAN 0
            (fun f => match f with AF_INET => 2 | AF_INET6 => 28 end)
            {| sa_family := 2; sin_addr := [192; 168; 1; 7]; sin6_addr := [] |}
            {| sa_family := 2; sin_addr := [192; 168; 1; 200]; sin6_addr := [] |}
            24 _ _ _ _ _ _ _).
  - discriminate.
  - reflexivity.
  - reflexivity.
  - reflexivity.
  - reflexivity.
  - repeat constructor; simpl; lia.
  - repeat constructor; simpl; lia.
Defined.

Lemma uint32x4_lookup (BYTE_ORDER : byte_order) (l : list Z) :
  uint32x4 BYTE_ORDER l !!! 3%nat = load_uint BYTE_ORDER (take 4 (drop 12 l)) /\
  uint32x4 BYTE_ORDER l !!! 2%nat = load_uint BYTE_ORDER (take 4 (drop 8 l)) /\
  uint32x4 BYTE_ORDER l !!! 1%nat = load_uint BYTE_ORDER (take 4 (drop 4 l)) /\
  uint32x4 BYTE_ORDER l !!! 0%nat = load_uint BYTE_ORDER (take 4 l).
Proof. repeat split. Qed.

Lemma chunk_facts (l : list Z) (k : nat) :
  length l = 16%nat -> is_bytes l -> (k <= 12)%nat ->
  length (take 4 (drop k l)) = 4%nat /\ is_bytes (take 4 (drop k l)).
Proof.
  intros Hl Hb Hk. split.
  - rewrite length_take, length_drop. lia.
  - apply Forall_take, Forall_drop, Hb.
Qed.

(** X9: sockaddr_cmp on two IPv6 addresses returns 0 exactly when the
    addresses agree in their leading bits: all 128 for the prefix length
    -1, else as many as the prefix length converted to [u_int8_t] says,
    128 at most. *)
Theorem sockaddr_cmp_inet6_prefix (BYTE_ORDER : byte_order) (AF_UNSPEC : Z)
    (af : address_family -> Z) (a b : sockaddr) (prefixlen : Z) :
  af AF_INET6 <> AF_UNSPEC -> af AF_INET6 <> af AF_INET ->
  sa_family a = af AF_INET6 -> sa_family b = af AF_INET6 ->
  length (sin6_addr a) = 16%nat -> length (sin6_addr b) = 16%nat ->
  is_bytes (sin6_addr a) -> is_bytes (sin6_addr b) ->
  let bits := prefix_bits 128 prefixlen in
  sockaddr_cmp BYTE_ORDER AF_UNSPEC af a b prefixlen = 0
  <-> be_uint (sin6_addr a) / 2 ^ (128 - bits)
      = be_uint (sin6_addr b) / 2 ^ (128 - bits).
Proof.
  intros Hu H46 Hfa Hfb Hla Hlb Hba Hbb bits. unfold sockaddr_cmp.
  rewrite Hfa, Hfb.
  destruct (Z.eqb_spec (af AF_INET6) AF_UNSPEC) as [|_]; [contradiction|].
  destruct (Z.eqb_spec (af AF_INET6) (af AF_INET)) as [|_]; [contradiction|].
  rewrite Z.ltb_irrefl, Z.eqb_refl. cbn [orb]. cbv zeta.
  destruct (sockaddr_cmp_mask6 BYTE_ORDER prefixlen) as (m & -> & Hlm & Hbm & Hm).
  fold bits in Hm.
  pose proof (prefix_bits_range 128 prefixlen ltac:(lia)) as Hbits. fold bits in Hbits.
  destruct (uint32x4_lookup BYTE_ORDER (sin6_addr a)) as (-> & -> & -> & ->).
  destruct (uint32x4_lookup BYTE_ORDER (sin6_addr b)) as (-> & -> & -> & ->).
  destruct (uint32x4_lookup BYTE_ORDER m) as (-> & -> & -> & ->).
  pose proof (fun k => chunk_facts (sin6_addr a) k Hla Hba) as Ca.
  pose proof (fun k => chunk_facts (sin6_addr b) k Hlb Hbb) as Cb.
  pose proof (fun k => chunk_facts m k Hlm Hbm) as Cm.
  pose proof (Ca 0%nat ltac:(lia)) as Ca0. pose proof (Cb 0%nat ltac:(lia)) as Cb0.
  pose proof (Cm 0%nat ltac:(lia)) as Cm0. rewrite drop_0 in Ca0, Cb0, Cm0.
  rewrite (sockaddr_cmp_word_zero BYTE_ORDER
             (take 4 (drop 12 (sin6_addr a))) (take 4 (drop 12 (sin6_addr b)))
             (take 4 (drop 12 m)));
    [|try apply Ca; try apply Cb; try apply Cm; try lia;
      rewrite ?(proj1 (Ca 12%nat ltac:(lia))), ?(proj1 (Cb 12%nat ltac:(lia))),
        ?(proj1 (Cm 12%nat ltac:(lia))); reflexivity..].
  rewrite (sockaddr_cmp_word_zero BYTE_ORDER
             (take 4 (drop 8 (sin6_addr a))) (take 4 (drop 8 (sin6_addr b)))
             (take 4 (drop 8 m)));
    [|try apply Ca; try apply Cb; try apply Cm; try lia;
      rewrite ?(proj1 (Ca 8%nat ltac:(lia))), ?(proj1 (Cb 8%nat ltac:(lia))),
        ?(proj1 (Cm 8%nat ltac:(lia))); reflexivity..].
  rewrite (sockaddr_cmp_word_zero BYTE_ORDER
             (take 4 (drop 4 (sin6_addr a))) (take 4 (drop 4 (sin6_addr b)))
             (take 4 (drop 4 m)));
    [|try apply Ca; try apply Cb; try apply Cm; try lia;
      rewrite ?(proj1 (Ca 4%nat ltac:(lia))), ?(proj1 (Cb 4%nat ltac:(lia))),
        ?(proj1 (Cm 4%nat ltac:(lia))); reflexivity..].
  rewrite (sockaddr_cmp_word_zero BYTE_ORDER
             (take 4 (sin6_addr a)) (take 4 (sin6_addr b)) (take 4 m));
    [|try apply Ca0; try apply Cb0; try apply Cm0;
      rewrite ?(proj1 Ca0), ?(proj1 Cb0), ?(proj1 Cm0); reflexivity..].
  rewrite <- !zip_with_take, <- !zip_with_drop.
  rewrite <- (bytes_agree_prefix 128 bits (sin6_addr a) (sin6_addr b) m);
    [|rewrite Hlm; reflexivity|assumption|congruence|congruence|assumption..].
  rewrite <- (chunks16 (zip_with Z.land (sin6_addr a) m)
                (zip_with Z.land (sin6_addr b) m));
    [tauto|rewrite length_zip_with; lia..].
Qed.

Lemma sockaddr_cmp_inet6_prefix_witness :
  let a := {| sa_family := 28; sin_addr := [];
              sin6_addr := [32; 1; 13; 184; 0; 0; 0; 0; 0; 0; 0; 0; 0; 0; 0; 1] |} in
  let b := {| sa_family := 28; sin_addr := [];
              sin6_addr := [32; 1; 13; 184; 0; 0; 0; 9; 0; 0; 0; 0; 0; 0; 0; 2] |} in
  let af f := match f with AF_INET => 2 | AF_INET6 => 28 end in
  sockaddr_cmp BIG_ENDIAN 0 af a b 60 = 0
  <-> be_uint (sin6_addr a) / 2 ^ (128 - prefix_bits 128 60)
      = be_uint (sin6_addr b) / 2 ^ (128 - prefix_bits 128 60).
Proof.
  refine (sockaddr_cmp_inet6_prefix BIG_ENDIAN 0
            (fun f => match f with AF_INET => 2 | AF_INET6 => 28 end)
            {| sa_family := 28; sin_addr := [];
               sin6_addr := [32; 1; 13; 184; 0; 0; 0; 0; 0; 0; 0; 0; 0; 0; 0; 1] |}
            {| sa_family := 28; sin_addr := [];
               sin6_addr := [32; 1; 13; 184; 0; 0; 0; 9; 0; 0; 0; 0; 0; 0; 0; 2] |}
            60 _ _ _ _ _ _ _ _).
  - discriminate.
  - discriminate.
  - reflexivity.
  - reflexivity.
  - reflexivity.
  - reflexivity.
  - repeat constructor; simpl; lia.
  - repeat constructor; simpl; lia.
Defined.

(** X10: sockaddr_cmp is a consistent comparison: with the arguments
    exchanged the result changes its sign, and an address compares equal
    to itself, whatever the prefix length. *)
Theorem sockaddr_cmp_antisym (BYTE_ORDER : byte_order) (AF_UNSPEC : Z)
    (af : address_family -> Z) (a b : sockaddr) (prefixlen : Z) :
  sockaddr_cmp BYTE_ORDER AF_UNSPEC af b a prefixlen
  = - sockaddr_cmp BYTE_ORDER AF_UNSPEC af a b prefixlen /\
  sockaddr_cmp BYTE_ORDER AF_UNSPEC af a a prefixlen = 0.
Proof.
  assert (Hanti : forall a b,
            sockaddr_cmp BYTE_ORDER AF_UNSPEC af b a prefixlen
            = - sockaddr_cmp BYTE_ORDER AF_UNSPEC af a b prefixlen).
  { clear a b. intros a b. unfold sockaddr_cmp. rewrite (orb_comm (sa_family b =? _)).
    destruct ((sa_family a =? AF_UNSPEC) || (sa_family b =? AF_UNSPEC));
      [reflexivity|].
    destruct (Z.ltb_spec (sa_family b) (sa_family a)) as [H1|H1],
             (Z.ltb_spec (sa_family a) (sa_family b)) as [H2|H2];
      try reflexivity; try lia.
    assert (E : sa_family b = sa_family a) by lia. rewrite E.
    destruct (sa_family a =? af AF_INET).
    - cbv zeta. apply (sockaddr_cmp_word_antisym _ _ _ 0).
    - destruct (sa_family a =? af AF_INET6); [|reflexivity]. cbv zeta.
      rewrite <- !sockaddr_cmp_word_antisym. reflexivity. }
  split; [apply Hanti|]. specialize (Hanti a a). lia.
Qed.

(** ** get_string and parent_dispatch_pfe *)

Lemma printable_not_nul (c : ascii) :
  isprint c || isspace c = true -> is_nul c = false.
Proof.
  destruct (is_nul c) eqn:E; [|reflexivity].
  apply is_nul_true in E. subst c. vm_compute. discriminate.
Qed.

Lemma get_string_scan_spec (ptr : list ascii) :
  forall len, (len <= length ptr)%nat ->
  exists i,
    get_string_scan ptr len = Some i /\ (i <= len)%nat /\
    Forall (fun c => isprint c || isspace c = true) (take i ptr) /\
    (i = len \/ exists c, ptr !! i = Some c /\ isprint c || isspace c = false).
Proof.
  induction ptr as [|c ptr IH]; intros [|len] Hlen; simpl in Hlen; try lia.
  - exists 0%nat. split; [reflexivity|]. split; [lia|].
    split; [constructor|left; reflexivity].
  - exists 0%nat. split; [reflexivity|]. split; [lia|].
    split; [constructor|left; reflexivity].
  - cbn [get_string_scan].
    destruct (isprint c || isspace c) eqn:Ec; cbn [negb].
    + destruct (IH len ltac:(lia)) as (i & -> & Hi & Hall & Hstop).
      exists (S i). split; [reflexivity|]. split; [lia|].
      split; [constructor; assumption|].
      destruct Hstop as [->|Hstop]; [left; reflexivity|right; exact Hstop].
    + exists 0%nat. split; [reflexivity|]. split; [lia|]. split; [constructor|].
      right. exists c. split; [reflexivity|assumption].
Qed.

(** X11: get_string returns the longest run of printable or white space
    characters at the start of the [len] bytes as a string of its own:
    it stops at the first other byte, a NUL included, reads none of the
    bytes behind [len], and the string is shorter than [len + 1]. *)
Theorem get_string_printable_prefix (calloc : Z -> Z -> bool)
    (ptr : list ascii) (len : nat) :
  (len <= length ptr)%nat ->
  exists i,
    (i <= len)%nat /\
    Forall (fun c => isprint c || isspace c = true) (take i ptr) /\
    (i = len \/ exists c, ptr !! i = Some c /\ isprint c || isspace c = false) /\
    get_string calloc ptr len
    = (if calloc 1 (Z.of_nat (i + 1)) then GotString (take i ptr ++ [NUL])
       else GotNULL) /\
    c_str (take i ptr ++ [NUL]) = take i ptr /\
    (forall rest, get_string calloc (take len ptr ++ rest) len
                  = get_string calloc ptr len).
Proof.
  intros Hlen.
  destruct (get_string_scan_spec ptr len Hlen) as (i & Hscan & Hi & Hall & Hstop).
  exists i. split; [assumption|]. split; [assumption|]. split; [assumption|].
  split; [|split].
  - unfold get_string. rewrite Hscan.
    destruct (calloc 1 (Z.of_nat (i + 1))); reflexivity.
  - apply c_str_app_NUL. unfold no_nul.
    eapply Forall_impl; [exact Hall|]. intros c Hc. apply printable_not_nul, Hc.
  - intros rest. unfold get_string.
    assert (Hsame : forall ptr len, (len <= length ptr)%nat ->
              get_string_scan (take len ptr ++ rest) len = get_string_scan ptr len
              /\ forall j, get_string_scan ptr len = Some j ->
                   take j (take len ptr ++ rest) = take j ptr).
    { clear. induction ptr as [|c ptr IH]; intros [|len] Hlen; simpl in Hlen; try lia.
      - split; [reflexivity|]. intros j [= <-]. reflexivity.
      - split; [reflexivity|]. intros j [= <-]. reflexivity.
      - cbn [take firstn app get_string_scan].
        destruct (IH len ltac:(lia)) as [-> Htake].
        split; [reflexivity|].
        destruct (negb (isprint c || isspace c)); [intros j [= <-]; reflexivity|].
        destruct (get_string_scan ptr len) as [k|]; [|discriminate].
        intros j [= <-]. cbn [take firstn]. f_equal. apply Htake. reflexivity. }
    destruct (Hsame ptr len Hlen) as [-> Htake]. rewrite Hscan.
    rewrite (Htake i Hscan). reflexivity.
Qed.

Lemma get_string_printable_prefix_witness :
  exists i,
    (i <= 9)%nat /\
    Forall (fun c => isprint c || isspace c = true) (take i (lit "/etc/r.cf" ++ [NUL])) /\
    (i = 9%nat \/ exists c, (lit "/etc/r.cf" ++ [NUL]) !! i = Some c
                            /\ isprint c || isspace c = false) /\
    get_string (fun _ _ => true) (lit "/etc/r.cf" ++ [NUL]) 9
    = (if (fun _ _ : Z => true) 1 (Z.of_nat (i + 1))
       then GotString (take i (lit "/etc/r.cf" ++ [NUL]) ++ [NUL])
       else GotNULL) /\
    c_str (take i (lit "/etc/r.cf" ++ [NUL]) ++ [NUL])
    = take i (lit "/etc/r.cf" ++ [NUL]) /\
    (forall rest, get_string (fun _ _ => true)
                    (take 9 (lit "/etc/r.cf" ++ [NUL]) ++ rest) 9
                  = get_string (fun _ _ => true) (lit "/etc/r.cf" ++ [NUL]) 9).
Proof.
  apply (get_string_printable_prefix (fun _ _ => true) (lit "/etc/r.cf" ++ [NUL]) 9).
  vm_compute. lia.
Defined.

Lemma bind_ext_l {S A B} (m m' : M S A) (k : A -> M S B) (s : S) :
  m s = m' s -> bind m k s = bind m' k s.
Proof. unfold bind. intros ->. reflexivity. Qed.

Section ParentDispatchProperties.
Context {H : relayd_h}.

Variable privsep_process : privsep_procid.
Variable open_pf_socket : option Z.
Variable load_config : list ascii -> relayd -> Z * relayd.

Lemma parent_reload_empty_name (reset : Z) (str : list ascii) (env : relayd) :
  c_str str = [] ->
  parent_reload privsep_process open_pf_socket load_config reset (Some str) env
  = parent_reload privsep_process open_pf_socket load_config reset None env.
Proof.
  intros Hstr. unfold parent_reload, reload_filename. rewrite Hstr. reflexivity.
Qed.

End ParentDispatchProperties.

(** X12: a reload requested over the control socket.  The file name the
    request carries is cut at its first byte that is neither printable
    nor white space.  A request without a name, with a name that starts
    with such a byte, or one for which [get_string] cannot allocate the
    copy, is carried out as a reload of the default configuration file;
    a name of printable characters is the file that is loaded. *)
Theorem parent_dispatch_pfe_reload {H : relayd_h}
    (privsep_process : privsep_procid) (open_pf_socket : option Z)
    (load_config : list ascii -> relayd -> Z * relayd)
    (calloc : Z -> Z -> bool) (BYTE_ORDER : byte_order)
    (data : list ascii) (getpid : Z) (env : relayd) :
  let dispatch :=
    parent_dispatch_pfe privsep_process open_pf_socket load_config calloc
      BYTE_ORDER IMSG_CTL_RELOAD data getpid env in
  let reload filename :=
    (parent_reload privsep_process open_pf_socket load_config CONFIG_RELOAD
       filename ;; ret (Some tt)) env in
  (data = [] \/
   (exists c tl, data = c :: tl /\ isprint c || isspace c = false) \/
   (forall n, calloc 1 n = false) ->
   dispatch = reload None) /\
  (data <> [] -> Forall (fun c => isprint c || isspace c = true) data ->
   calloc 1 (Z.of_nat (length data + 1)) = true ->
   dispatch = reload (Some (data ++ [NUL])) /\
   reload_filename (Some (data ++ [NUL])) env = data ++ [NUL]).
Proof.
  intros dispatch reload. unfold dispatch, reload, parent_dispatch_pfe. split.
  - intros [->|[(c & tl & -> & Hc)|Hcalloc]].
    + cbn [length Nat.ltb Nat.leb]. rewrite bind_ret_l. reflexivity.
    + replace (0 <? length (c :: tl))%nat with true by reflexivity.
      unfold get_string. cbn [length get_string_scan]. rewrite Hc. cbn [negb].
      destruct (calloc 1 (Z.of_nat (0 + 1))); cbn [negb]; rewrite bind_ret_l;
        [|reflexivity].
      apply bind_ext_l, parent_reload_empty_name. reflexivity.
    + destruct data as [|c tl]; [cbn [length Nat.ltb Nat.leb]; rewrite bind_ret_l; reflexivity|].
      destruct (get_string_scan_spec (c :: tl) (length (c :: tl)) ltac:(lia))
        as (i & Hscan & _).
      replace (0 <? length (c :: tl))%nat with true by reflexivity.
      unfold get_string. rewrite Hscan, Hcalloc. cbn [negb]. rewrite bind_ret_l. reflexivity.
  - intros Hne Hall Hcalloc.
    destruct (get_string_scan_spec data (length data) ltac:(lia))
      as (i & Hscan & Hi & _ & Hstop).
    assert (i = length data) as ->.
    { destruct Hstop as [->|(c & Hc & Hnp)]; [reflexivity|].
      pose proof (Forall_lookup_1 _ _ _ _ Hall Hc) as Hp. cbv beta in Hp.
      congruence. }
    destruct data as [|c tl]; [congruence|].
    replace (0 <? length (c :: tl))%nat with true by reflexivity.
    unfold get_string. rewrite Hscan, Hcalloc. cbn [negb].
    rewrite firstn_all, bind_ret_l. split; [reflexivity|].
    unfold reload_filename.
    rewrite c_str_app_NUL.
    + reflexivity.
    + unfold no_nul. eapply Forall_impl; [exact Hall|].
      intros c' Hc'. apply printable_not_nul, Hc'.
Qed.

Lemma parent_dispatch_pfe_reload_witness :
  parent_dispatch_pfe (H := relayd_h_values) PROC_PARENT None
    load_config_syntax_error (fun _ _ => true) LITTLE_ENDIAN IMSG_CTL_RELOAD
    (lit "/etc/r2.conf") 100 (example_env 0)
  = (parent_reload (H := relayd_h_values) PROC_PARENT None
       load_config_syntax_error (@CONFIG_RELOAD relayd_h_values)
       (Some (lit "/etc/r2.conf" ++ [NUL])) ;; ret (Some tt)) (example_env 0) /\
  reload_filename (Some (lit "/etc/r2.conf" ++ [NUL])) (example_env 0)
  = lit "/etc/r2.conf" ++ [NUL].
Proof.
  apply (proj2 (parent_dispatch_pfe_reload (H := relayd_h_values) PROC_PARENT None
                  load_config_syntax_error (fun _ _ => true) LITTLE_ENDIAN
                  (lit "/etc/r2.conf") 100 (example_env 0))).
  - discriminate.
  - repeat constructor.
  - reflexivity.
Defined.

(** ** pkey_add and pkey_find *)

Lemma pkeys_kept_refl env : pkeys_kept env env.
Proof. intros objid key Hk. exact Hk. Qed.

Lemma pkeys_kept_trans e1 e2 e3 :
  pkeys_kept e1 e2 -> pkeys_kept e2 e3 -> pkeys_kept e1 e3.
Proof. intros H12 H23 objid key Hk. apply H23, H12, Hk. Qed.

Lemma find_app_first {A} (f : A -> bool) (l1 l2 : list A) :
  find f (l1 ++ l2) = match find f l1 with Some x => Some x | None => find f l2 end.
Proof.
  induction l1 as [|x l1 IH]; [reflexivity|]. simpl.
  destruct (f x); [reflexivity|exact IH].
Qed.

Lemma pkey_find_app (env : relayd) (l : list ca_pkey) (k : ca_pkey) (objid : Z) :
  sc_pkeys env = Some l ->
  pkey_find (set_sc_pkeys (Some (l ++ [k])) env) objid
  = match pkey_find env objid with
    | Some (Some key) => Some (Some key)
    | _ => if pkey_id k =? objid then Some (Some (pkey k)) else Some None
    end.
Proof.
  intros Hl. unfold pkey_find. rewrite Hl. cbn [sc_pkeys set_sc_pkeys].
  rewrite find_app_first.
  destruct (find (fun k0 => pkey_id k0 =? objid) l); [reflexivity|].
  cbn [find]. destruct (pkey_id k =? objid); reflexivity.
Qed.

(** X13: pkey_add and pkey_find.  A key added to the table of a CA is
    appended: it is found under its id unless an older entry has the
    same id, which then is the one that stays in charge; the keys under
    all other ids are found as before.  When [calloc] fails nothing
    changes, and a table that has not been set up ends the process. *)
Theorem pkey_add_find (sizeof_ca_pkey : Z) (calloc : Z -> Z -> bool)
    (env : relayd) (key objid : Z) :
  let r := pkey_add sizeof_ca_pkey calloc key objid env in
  (sc_pkeys env = None -> r = ([], Fatalx "pkeys")) /\
  (sc_pkeys env <> None -> calloc 1 sizeof_ca_pkey = false ->
   r = ([], Ret None env)) /\
  (sc_pkeys env <> None -> calloc 1 sizeof_ca_pkey = true ->
   exists env',
     r = ([], Ret (Some {| pkey := key; pkey_id := objid |}) env') /\
     pkey_find env' objid
     = Some (Some (match pkey_find env objid with
                   | Some (Some old) => old
                   | _ => key
                   end)) /\
     (forall other, other <> objid -> pkey_find env' other = pkey_find env other)).
Proof.
  intros r. unfold r, pkey_add, bind, get. cbv beta iota.
  destruct (sc_pkeys env) as [l|] eqn:Hl.
  - split; [discriminate|]. split.
    + intros _ ->. reflexivity.
    + intros _ ->. eexists. split; [reflexivity|]. split.
      * rewrite (pkey_find_app env l _ objid Hl). cbn [pkey_id pkey].
        rewrite Z.eqb_refl. destruct (pkey_find env objid) as [[old|]|]; reflexivity.
      * intros other Hother. rewrite (pkey_find_app env l _ other Hl).
        cbn [pkey_id pkey].
        destruct (Z.eqb_spec objid other) as [|_]; [congruence|].
        unfold pkey_find. rewrite Hl.
        destruct (find _ l); reflexivity.
  - split; [reflexivity|]. split; congruence.
Qed.

Lemma pkey_add_find_witness :
  exists env',
    pkey_add 16 (fun _ _ => true) 5 7 example_ca_env
    = ([], Ret (Some {| pkey := 5; pkey_id := 7 |}) env') /\
    pkey_find env' 7
    = Some (Some (match pkey_find example_ca_env 7 with
                  | Some (Some old) => old
                  | _ => 5
                  end)) /\
    (forall other, other <> 7 -> pkey_find env' other = pkey_find example_ca_env other).
Proof.
  apply (proj2 (proj2 (pkey_add_find 16 (fun _ _ => true) example_ca_env 5 7))).
  - discriminate.
  - reflexivity.
Defined.

Lemma pkey_add_Ret_inv (sizeof_ca_pkey : Z) (calloc : Z -> Z -> bool)
    (env env' : relayd) (key objid : Z) tr (k : ca_pkey) :
  pkey_add sizeof_ca_pkey calloc key objid env = (tr, Ret (Some k) env') ->
  registered env' objid /\ pkeys_kept env env' /\ sc_relays env' = sc_relays env.
Proof.
  unfold pkey_add, bind, get. cbv beta iota.
  destruct (sc_pkeys env) as [l|] eqn:Hl; [|discriminate].
  destruct (calloc 1 sizeof_ca_pkey); [|discriminate].
  cbn. intros [= <- <- <-]. split; [|split; [|reflexivity]].
  - unfold registered. rewrite (pkey_find_app env l _ objid Hl). cbn [pkey_id pkey].
    rewrite Z.eqb_refl. destruct (pkey_find env objid) as [[old|]|]; eauto.
  - intros other old Hold. rewrite (pkey_find_app env l _ other Hl), Hold.
    reflexivity.
Qed.

Section CALaunchKeys.
Context {H : relayd_h}.
Variable sizeof_ca_pkey : Z.
Variable calloc : Z -> Z -> bool.
Variable BIO_new_mem_buf : Z -> Z -> bool.
Variable PEM_read_bio_PrivateKey : list Z -> option Z.

Lemma ca_launch_key_registers msg keyp len keyid s tr r s' :
  ca_launch_key sizeof_ca_pkey calloc BIO_new_mem_buf PEM_read_bio_PrivateKey
    msg keyp len keyid s = (tr, Ret r s') ->
  registered (fst s') keyid /\ pkeys_kept (fst s) (fst s').
Proof.
  unfold ca_launch_key.
  destruct ((keyp =? NULL) || _); [discriminate|].
  intros Hb. apply bind_Ret_inv in Hb as (t0 & st & s0 & t0' & Hget & Hb & _).
  unfold get in Hget. injection Hget as _ E1 E2. subst st s0.
  destruct (read_mem (snd s) keyp len) as [pem|]; [|discriminate].
  destruct (PEM_read_bio_PrivateKey pem) as [key|]; [|discriminate].
  apply bind_Ret_inv in Hb as (t1 & added & s1 & t2 & Hadd & Hk & _).
  apply on_fst_Ret_inv in Hadd as (env1 & Hadd & ->).
  destruct added as [k|]; [|discriminate].
  apply pkey_add_Ret_inv in Hadd as (Hreg & Hkept & _).
  apply bind_Ret_inv in Hk as (t3 & keyp' & s2 & t4 & Hp & Hr & _).
  apply ret_Ret_inv in Hr as (_ & -> & ->).
  apply on_snd_Ret_inv in Hp as (h2 & Hp & ->).
  cbn [fst snd] in *. auto.
Qed.

Lemma ca_launch_key_step_registers msg keyp len keyid (old : option Z) s tr
    (r : option Z * Z) s' :
  (if negb (len =? 0) then
     r <- ca_launch_key sizeof_ca_pkey calloc BIO_new_mem_buf
            PEM_read_bio_PrivateKey msg keyp len keyid ;;
     ret (Some (fst r), snd r)
   else ret (old, keyp)) s = (tr, Ret r s') ->
  pkeys_kept (fst s) (fst s') /\ (len <> 0 -> registered (fst s') keyid).
Proof.
  destruct (Z.eqb_spec len 0) as [->|Hlen]; cbn [negb].
  - intros Hr. apply ret_Ret_inv in Hr as (_ & _ & ->).
    split; [apply pkeys_kept_refl|contradiction].
  - intros Hb. apply bind_Ret_inv in Hb as (t1 & a & s1 & t2 & Hk & Hr & _).
    apply ret_Ret_inv in Hr as (_ & -> & ->).
    apply ca_launch_key_registers in Hk as (Hreg & Hkept). auto.
Qed.

Lemma ca_launch_cert_step_env (p len : Z) (s s' : relayd * gmap Z block) tr r :
  (if negb (len =? 0) then on_snd (purge_key p len) else ret p) s
  = (tr, Ret r s') ->
  fst s' = fst s.
Proof.
  destruct (negb (len =? 0)).
  - intros Hp. apply on_snd_Ret_inv in Hp as (h2 & Hp & ->). reflexivity.
  - intros Hr. apply ret_Ret_inv in Hr as (_ & _ & ->). reflexivity.
Qed.

Lemma registered_kept env env' objid :
  pkeys_kept env env' -> registered env objid -> registered env' objid.
Proof. intros Hk (key & Hf). exists key. apply Hk, Hf. Qed.

Lemma ca_launch_relay_registers rlay s tr rlay' s' :
  ca_launch_relay sizeof_ca_pkey calloc BIO_new_mem_buf PEM_read_bio_PrivateKey
    rlay s = (tr, Ret rlay' s') ->
  pkeys_kept (fst s) (fst s') /\ keys_registered rlay (fst s').
Proof.
  unfold ca_launch_relay, keys_registered.
  destruct (Z.eqb_spec (Z.land (rl_flags (rl_conf rlay)) (Z.lor F_SSL F_SSLCLIENT)) 0)
    as [E|E].
  - intros Hr. apply ret_Ret_inv in Hr as (_ & _ & ->).
    split; [apply pkeys_kept_refl|contradiction].
  - intros Hb.
    apply bind_Ret_inv in Hb as (t1 & k & s1 & t1' & Hkey & Hb & _).
    apply bind_Ret_inv in Hb as (t2 & cert & s2 & t2' & Hcert & Hb & _).
    apply bind_Ret_inv in Hb as (t3 & ca & s3 & t3' & Hca & Hb & _).
    apply bind_Ret_inv in Hb as (t4 & cacert & s4 & t4' & Hcacert & Hr & _).
    apply ret_Ret_inv in Hr as (_ & _ & ->).
    apply ca_launch_key_step_registers in Hkey as (K1 & R1).
    apply ca_launch_cert_step_env in Hcert as E2.
    apply ca_launch_key_step_registers in Hca as (K3 & R3).
    apply ca_launch_cert_step_env in Hcacert as E4.
    rewrite E4. rewrite E2 in K3.
    split; [eauto using pkeys_kept_trans|].
    intros _. split.
    + intros Hl. apply (registered_kept _ _ _ K3), R1, Hl.
    + exact R3.
Qed.

Lemma ca_launch_loop_registers relays : forall s tr relays' s',
  for_each_update
    (ca_launch_relay sizeof_ca_pkey calloc BIO_new_mem_buf PEM_read_bio_PrivateKey)
    relays s = (tr, Ret relays' s') ->
  pkeys_kept (fst s) (fst s') /\
  forall (i : nat) rlay, relays !! i = Some rlay -> keys_registered rlay (fst s').
Proof.
  induction relays as [|r0 rest IH]; intros s tr relays' s' Hl;
    cbn [for_each_update] in Hl.
  - apply ret_Ret_inv in Hl as (_ & -> & ->).
    split; [apply pkeys_kept_refl | intros i rlay [=]].
  - apply bind_Ret_inv in Hl as (t1 & r0' & s1 & t1' & H0 & Hl & _).
    apply bind_Ret_inv in Hl as (t2 & rest' & s2 & t2' & Hrest & Hr & _).
    apply ret_Ret_inv in Hr as (_ & -> & ->).
    apply ca_launch_relay_registers in H0 as (K0 & R0).
    apply IH in Hrest as (Krest & Rrest).
    split; [eauto using pkeys_kept_trans|].
    intros [|i] rlay Hi; cbn in Hi.
    + injection Hi as <-. intros Hf. destruct (R0 Hf) as [Ra Rb].
      split; intros Hlen; eapply registered_kept; eauto.
    + exact (Rrest i rlay Hi).
Qed.

End CALaunchKeys.

(** X14: the keys ca_launch loads can be looked up.  When [ca_launch]
    returns, every relay with F_SSL or F_SSLCLIENT that came with a
    private key has a key registered under its [ssl_keyid], and every
    one that came with a CA key has one under its [ssl_cakeyid]:
    [pkey_find], which [ca_dispatch_relay] asks, does not return NULL
    for them.  The keys that were registered before are still found. *)
Theorem ca_launch_registers_keys {H : relayd_h}
    (sizeof_ca_pkey : Z) (calloc : Z -> Z -> bool)
    (BIO_new_mem_buf : Z -> Z -> bool)
    (PEM_read_bio_PrivateKey : list Z -> option Z)
    (env env' : relayd) (h h' : gmap Z block) (tr : list effect)
    (i : nat) (rlay : relay) :
  ca_launch sizeof_ca_pkey calloc BIO_new_mem_buf PEM_read_bio_PrivateKey (env, h)
    = (tr, Ret tt (env', h')) ->
  sc_relays env !! i = Some rlay ->
  Z.land (rl_flags (rl_conf rlay)) (Z.lor F_SSL F_SSLCLIENT) <> 0 ->
  (ssl_key_len (rl_conf rlay) <> 0 ->
   exists key, pkey_find env' (ssl_keyid (rl_conf rlay)) = Some (Some key)) /\
  (ssl_cakey_len (rl_conf rlay) <> 0 ->
   exists key, pkey_find env' (ssl_cakeyid (rl_conf rlay)) = Some (Some key)) /\
  (forall objid key, pkey_find env objid = Some (Some key) ->
                     pkey_find env' objid = Some (Some key)).
Proof.
  intros Hl Hi Hf. unfold ca_launch in Hl.
  apply bind_Ret_inv in Hl as (t0 & st & s0 & t0' & Hget & Hl & _).
  unfold get in Hget. injection Hget as _ E1 E2. subst st s0.
  apply bind_Ret_inv in Hl as (t1 & relays' & s1 & t1' & Hloop & Hl & _).
  apply bind_Ret_inv in Hl as (t2 & st & s2 & t2' & Hget & Hput & _).
  unfold get in Hget. injection Hget as _ E1 E2. subst st s2.
  unfold put in Hput. injection Hput as _ Eenv Eh. subst env' h'.
  apply ca_launch_loop_registers in Hloop as (Hkept & Hreg).
  destruct (Hreg i rlay Hi Hf) as [Ra Rb]. cbn [fst] in *.
  assert (Hsame : forall objid,
            pkey_find (set_sc_relays relays' (fst s1)) objid = pkey_find (fst s1) objid)
    by reflexivity.
  split; [|split].
  - intros Hlen. destruct (Ra Hlen) as (key & Hk). exists key.
    rewrite Hsame. exact Hk.
  - intros Hlen. destruct (Rb Hlen) as (key & Hk). exists key.
    rewrite Hsame. exact Hk.
  - intros objid key Hk. rewrite Hsame. apply Hkept, Hk.
Qed.

Lemma ca_launch_registers_keys_witness :
  let st := example_ca_state [example_relay] in
  exists env' h',
    ca_launch (H := relayd_h_values) 16 (fun _ _ => true)
      (fun _ _ => true) (fun _ => Some 1) st = ([], Ret tt (env', h')) /\
    (ssl_key_len (rl_conf example_relay) <> 0 ->
     exists key, pkey_find env' (ssl_keyid (rl_conf example_relay)) = Some (Some key)).
Proof.
  intros st.
  assert (Hr : exists env' h',
             ca_launch (H := relayd_h_values) 16 (fun _ _ => true)
               (fun _ _ => true) (fun _ => Some 1) st = ([], Ret tt (env', h')))
    by (do 2 eexists; vm_compute; reflexivity).
  destruct Hr as (env' & h' & Hr). exists env', h'. split; [exact Hr|].
  refine (proj1 (ca_launch_registers_keys (H := relayd_h_values) 16 (fun _ _ => true)
                   (fun _ _ => true) (fun _ => Some 1)
                   (fst st) env' (snd st) h' [] 0 example_relay Hr eq_refl _)).
  vm_compute. discriminate.
Defined.

(** ** A key operation from the relay to the CA and back *)

Lemma to_size_t_small (n : Z) : 0 <= n < 2 ^ 64 -> to_size_t n = n.
Proof. intros Hn. unfold to_size_t. apply Z.mod_small. exact Hn. Qed.

(** X15: a private-key operation through the privsep engine.  The relay
    sends the object id of the key and the input to its CA; for a key the
    CA holds, the CA answers with what its RSA operation returned, and the
    method of the relay returns that value and those bytes.  The
    environments of both processes stay as they are. *)
Theorem rsae_priv_enc_round_trip
    (sizeof_cko proc_id : Z)
    (EVP_PKEY_get1_RSA : Z -> option Z)
    (RSA_private_encrypt RSA_private_decrypt : Z -> list Z -> Z -> Z -> Z * list Z)
    (calloc : Z -> Z -> bool)
    (rsa_default_priv_enc : Z -> list Z -> RSA -> Z -> Z * list Z)
    (relay_env ca_env : relayd) (rsa : RSA) (objid key rsa_ca : Z)
    (from out : list Z) (padding : Z) :
  RSA_get_ex_data rsa = Some objid ->
  pkey_find ca_env objid = Some (Some key) ->
  EVP_PKEY_get1_RSA key = Some rsa_ca ->
  proc_id <= sc_prefork_relay ca_env ->
  calloc 1 (to_size_t (RSA_size rsa)) = true ->
  Z.of_nat (length from) < 2 ^ 64 -> Z.of_nat (length out) < 2 ^ 64 ->
  RSA_private_encrypt (Z.of_nat (length from)) from rsa_ca padding
  = (Z.of_nat (length out), out) ->
  let flen := Z.of_nat (length from) in
  let request := rsae_request sizeof_cko proc_id flen from objid rsa padding in
  exists reply,
    ca_dispatch_relay sizeof_cko EVP_PKEY_get1_RSA RSA_private_encrypt
      RSA_private_decrypt calloc (imsg_of_iov IMSG_CA_PRIVENC request) ca_env
    = ([proc_composev_imsg PROC_RELAY proc_id IMSG_CA_PRIVENC (-1) reply],
       Ret (Some tt) ca_env) /\
    rsae_priv_enc sizeof_cko proc_id rsa_default_priv_enc flen from rsa padding
      [ReadData [GetMsg (imsg_of_iov IMSG_CA_PRIVENC reply)]] relay_env
    = ([imsg_composev IMSG_CA_PRIVENC (-1) request; imsg_flush; imsg_event_add],
       Ret (Z.of_nat (length out), out) relay_env).
Proof.
  intros Hid Hfind Hrsa Hproc Hcalloc Hfrom Hout Hop flen request.
  assert (Hflen : to_size_t flen = flen) by (apply to_size_t_small; lia).
  assert (Htake : take (Z.to_nat (to_size_t flen)) from = from).
  { rewrite Hflen. unfold flen. rewrite Nat2Z.id. apply firstn_all. }
  set (cko' := {| cko_id := objid; cko_proc := proc_id; cko_flen := flen;
                  cko_tlen := Z.of_nat (length out); cko_padding := padding |}).
  exists ({| iov_data := IovKeyop cko'; iov_len := sizeof_cko |}
          :: (if negb (Z.of_nat (length out) =? 0)
              then [{| iov_data := IovBytes out;
                       iov_len := to_size_t (Z.of_nat (length out)) |}]
              else [])).
  split.
  - unfold ca_dispatch_relay, request, rsae_request, imsg_of_iov.
    cbn [hdr_type imsg_cko imsg_tail map concat iov_payload iov_data iov_len
         cko_proc cko_id cko_flen cko_tlen cko_padding].
    unfold bind, get. cbv beta iota.
    destruct (Z.ltb_spec (sc_prefork_relay ca_env) proc_id) as [|_]; [lia|].
    rewrite Htake, app_nil_r, Hflen. fold flen. rewrite Z.eqb_refl. cbn [negb].
    rewrite Hfind, Hrsa, Hcalloc. cbn [negb].
    unfold ca_rsa_operation. fold flen in Hop. rewrite Hop.
    unfold emit, ret. cbn. reflexivity.
  - unfold rsae_priv_enc, rsae_send_imsg. rewrite Hid.
    fold (rsae_request sizeof_cko proc_id flen from objid rsa padding).
    fold request.
    unfold bind, emit. cbv beta iota.
    cbn [rsae_send_imsg_read].
    unfold bind. unfold rsae_send_imsg_get, imsg_of_iov.
    subst cko'. cbn [hdr_type imsg_cko imsg_tail imsg_type_eqb negb cko_tlen].
    assert (Hlen : to_size_t (Z.of_nat (length out)) = Z.of_nat (length out))
      by (apply to_size_t_small; lia).
    destruct (Z.eqb_spec (Z.of_nat (length out)) 0) as [E0|E0]; cbn [negb].
    + assert (out = []) as -> by (destruct out; [reflexivity|simpl in E0; lia]).
      cbn [map concat length Z.of_nat]. change (to_size_t 0) with 0.
      rewrite Z.eqb_refl. cbn. reflexivity.
    + cbn [map concat iov_payload iov_data iov_len].
      rewrite Hlen, Nat2Z.id, firstn_all, app_nil_r, Z.eqb_refl. cbn. reflexivity.
Qed.

Lemma rsae_priv_enc_round_trip_witness :
  let rsa := {| RSA_get_ex_data := Some 7; RSA_size := 256 |} in
  let ca_env := set_sc_pkeys (Some [{| pkey := 1; pkey_id := 7 |}]) (example_env 0) in
  let request := rsae_request 20 1 2 [1; 2] 7 rsa 1 in
  exists reply,
    ca_dispatch_relay 20 (fun k => Some k) (fun _ _ _ _ => (3, [9; 8; 7]))
      example_rsa_fails (fun _ _ => true) (imsg_of_iov IMSG_CA_PRIVENC request) ca_env
    = ([proc_composev_imsg PROC_RELAY 1 IMSG_CA_PRIVENC (-1) reply],
       Ret (Some tt) ca_env) /\
    rsae_priv_enc 20 1 (fun _ _ _ _ => (0, [])) 2 [1; 2] rsa 1
      [ReadData [GetMsg (imsg_of_iov IMSG_CA_PRIVENC reply)]] (example_env 0)
    = ([imsg_composev IMSG_CA_PRIVENC (-1) request; imsg_flush; imsg_event_add],
       Ret (3, [9; 8; 7]) (example_env 0)).
Proof.
  refine (rsae_priv_enc_round_trip 20 1 (fun k => Some k)
            (fun _ _ _ _ => (3, [9; 8; 7])) example_rsa_fails (fun _ _ => true)
            (fun _ _ _ _ => (0, [])) (example_env 0)
            (set_sc_pkeys (Some [{| pkey := 1; pkey_id := 7 |}]) (example_env 0))
            {| RSA_get_ex_data := Some 7; RSA_size := 256 |} 7 1 1 [1; 2] [9; 8; 7] 1
            _ _ _ _ _ _ _ _).
  - reflexivity.
  - reflexivity.
  - reflexivity.
  - vm_compute. discriminate.
  - reflexivity.
  - vm_compute. reflexivity.
  - vm_compute. reflexivity.
  - reflexivity.
Defined.

(** ** rule_add with a rule file *)

Lemma rule_refs_effects {S} (on_label on_tag : Z -> effect) (rule : relay_rule)
    (s : S) :
  rule_refs on_label on_tag rule s
  = (rule_ref_effects on_label on_tag rule, Ret tt s).
Proof.
  unfold rule_refs, rule_ref_effects, bind, emit, ret.
  destruct (0 <? rule_label rule), (0 <? rule_tag rule), (0 <? rule_tagged rule);
    reflexivity.
Qed.

Section RuleFileProperties.
Context {H : relayd_h}.
Variable strdup : list ascii -> bool.
Variable fopen : list ascii -> option (list ascii).
Hypothesis strdup_ok : forall s, strdup s = true.

Lemma rule_inherit_kv_ok (kvs : list kv) :
  forall i, rule_inherit_kv strdup i kvs = Some kvs.
Proof.
  induction kvs as [|k kvs IH]; intros i; [reflexivity|].
  cbn [rule_inherit_kv]. rewrite IH. unfold kv_inherit.
  destruct (negb (kv_type k =? i)%nat); [reflexivity|].
  destruct (kv_key k), (kv_value k); rewrite ?strdup_ok; reflexivity.
Qed.

Lemma set_rule_kv_same (rule : relay_rule) : set_rule_kv (rule_kv rule) rule = rule.
Proof. destruct rule. reflexivity. Qed.

Lemma rule_inherit_ok {S} (rule : relay_rule) (s : S) :
  rule_inherit strdup true rule s
  = (rule_ref_effects label_ref tag_ref rule, Ret (Some rule) s).
Proof.
  unfold rule_inherit. cbn [negb]. rewrite rule_inherit_kv_ok, set_rule_kv_same.
  unfold bind. rewrite rule_refs_effects. unfold ret. rewrite app_nil_r.
  reflexivity.
Qed.

Lemma rule_add_setkey_ok (buf : cstring) (kvs : list kv) :
  forall i,
  exists kvs',
    rule_add_setkey strdup buf i kvs = Some kvs' /\
    length kvs' = length kvs /\
    forall (n : nat) k, kvs !! n = Some k ->
      kvs' !! n = Some (if (kv_type k =? i + n)%nat
                        then set_kv_key (Some buf) k else k).
Proof.
  induction kvs as [|k kvs IH]; intros i.
  - exists []. split; [reflexivity|]. split; [reflexivity|]. intros n k [=].
  - cbn [rule_add_setkey]. destruct (IH (S i)) as (kvs' & -> & Hlen & Hn).
    rewrite strdup_ok.
    exists ((if (kv_type k =? i)%nat then set_kv_key (Some buf) k else k) :: kvs').
    split; [destruct (kv_type k =? i)%nat; reflexivity|].
    split; [simpl; congruence|].
    intros [|n] k' Hk'.
    + injection Hk' as <-. rewrite Nat.add_0_r. reflexivity.
    + etrans; [exact (Hn n k' Hk')|].
      replace (S i + n)%nat with (i + S n)%nat by lia. reflexivity.
Qed.

(** The loop over the lines of the file, once the three allocators
    succeed. *)
Lemma rule_add_file_ok (rule : relay_rule) (chunks : list (list ascii)) :
  forall proto,
  let lines :=
    List.filter (fun buf => match buf with
                            | [] => false
                            | c :: _ => negb (Ascii.eqb c "#")
                            end)
      (map (fun chunk => strip_at_space (c_str chunk)) chunks) in
  exists added,
    rule_add_file strdup true rule chunks proto
    = (concat (map (fun _ => rule_ref_effects label_ref tag_ref rule) lines)
       ++ rule_ref_effects label_unref tag_unref rule,
       Ret 0 (set_rules (rules proto ++ added) proto)) /\
    length added = length lines /\
    forall (j : nat) line r, lines !! j = Some line -> added !! j = Some r ->
      rule_dir r = rule_dir rule /\ rule_label r = rule_label rule /\
      rule_tag r = rule_tag rule /\ rule_tagged r = rule_tagged rule /\
      length (rule_kv r) = length (rule_kv rule) /\
      forall (i : nat) k, rule_kv rule !! i = Some k ->
        rule_kv r !! i = Some (if (kv_type k =? i)%nat
                               then set_kv_key (Some line) k else k).
Proof.
  induction chunks as [|chunk chunks IH]; intros proto lines.
  - exists []. cbn [rule_add_file]. unfold rule_free, bind.
    rewrite rule_refs_effects. unfold ret. cbn [map concat app].
    rewrite app_nil_r, app_nil_r. split; [destruct proto; reflexivity|].
    split; [reflexivity|]. intros j line r [=].
  - cbn [rule_add_file]. subst lines. cbn [map List.filter].
    destruct (strip_at_space (c_str chunk)) as [|c buf] eqn:Ebuf.
    { destruct (IH proto) as (added & Hrun & Hlen & Hadded).
      exists added. auto. }
    destruct (Ascii.eqb c "#") eqn:Ec; cbn [negb].
    { destruct (IH proto) as (added & Hrun & Hlen & Hadded).
      exists added. auto. }
    unfold bind at 1. rewrite rule_inherit_ok.
    destruct (rule_add_setkey_ok (c :: buf) (rule_kv rule) 0)
      as (kvs' & -> & Hlen' & Hkvs').
    unfold bind at 1. unfold get. unfold bind at 1. unfold put.
    destruct (IH (set_rules (rules proto ++ [set_rule_kv kvs' rule]) proto))
      as (added & -> & Hlen & Hadded).
    exists (set_rule_kv kvs' rule :: added).
    split; [|split].
    + cbn [map concat app set_rules rules]. rewrite <- !app_assoc.
      cbn [app]. reflexivity.
    + simpl. congruence.
    + intros [|j] line r Hline Hr; cbn in Hline, Hr.
      * injection Hline as <-. injection Hr as <-.
        cbn [set_rule_kv rule_dir rule_label rule_tag rule_tagged rule_kv].
        repeat (split; [reflexivity|]). split; [assumption|].
        intros i k Hk. apply (Hkvs' i k Hk).
      * apply (Hadded j line r Hline Hr).
Qed.

End RuleFileProperties.

(** X16: rule_add with a rule file, when no allocation fails.  The rule
    handed in is a template: every line of the file that is neither
    empty nor a comment adds one copy of it to the protocol, in the order
    of the file, with the line as the key of every populated pattern.
    The flags of a pattern are those of the template, whatever the line
    holds: a '*' in a key that comes from the file does not set
    KV_FLAG_GLOBBING.  Every copy takes its own references to the label
    and the tags, and the template gives its references back at the
    end. *)
Theorem rule_add_file_rules {H : relayd_h}
    (strdup : list ascii -> bool) (fopen : list ascii -> option (list ascii))
    (rule : relay_rule) (path fp : list ascii) (kvs : list kv) (proto : protocol) :
  (forall s, strdup s = true) ->
  fopen path = Some fp ->
  rule_add_check strdup (rule_dir rule) false 0 (rule_kv rule) = (true, kvs) ->
  let lines := rule_file_lines fp in
  exists added,
    rule_add strdup true fopen rule (Some path) proto
    = (concat (map (fun _ => rule_ref_effects label_ref tag_ref rule) lines)
       ++ rule_ref_effects label_unref tag_unref rule,
       Ret (0, None) (set_rules (rules proto ++ added) proto)) /\
    length added = length lines /\
    forall (j : nat) line r, lines !! j = Some line -> added !! j = Some r ->
      rule_dir r = rule_dir rule /\ rule_label r = rule_label rule /\
      forall (i : nat) k, kvs !! i = Some k ->
        rule_kv r !! i = Some (if (kv_type k =? i)%nat
                               then set_kv_key (Some line) k else k) /\
        (forall k', rule_kv r !! i = Some k' -> kv_flags k' = kv_flags k).
Proof.
  intros Hstrdup Hfopen Hcheck lines.
  destruct (rule_add_file_ok strdup Hstrdup (set_rule_kv kvs rule)
              (fgets_chunks BUFSIZ fp [] (BUFSIZ - 1)) proto)
    as (added & Hrun & Hlen & Hadded).
  exists added. unfold rule_add. cbn [is_some negb]. rewrite Hcheck.
  cbn [negb]. rewrite Hfopen. unfold bind at 1. rewrite Hrun.
  unfold ret. rewrite Z.eqb_refl, app_nil_r.
  split; [reflexivity|]. split; [exact Hlen|].
  intros j line r Hline Hr.
  destruct (Hadded j line r Hline Hr) as (Hd & Hl & _ & _ & _ & Hk).
  split; [exact Hd|]. split; [exact Hl|].
  intros i k Hi. pose proof (Hk i k Hi) as Hs. split; [exact Hs|].
  intros k' Hk'. rewrite Hs in Hk'. injection Hk' as <-.
  destruct (kv_type k =? i)%nat; reflexivity.
Qed.

Lemma rule_add_file_rules_witness :
  let rule := example_rule RELAY_DIR_REQUEST (example_kv 2 "Host" "x") empty_kv in
  let fp := lit "www.a.org" ++ ["010"%char] ++ lit "*.b.org" ++ ["010"%char] in
  exists added,
    rule_add (H := relayd_h_values) (fun _ => true) true (fun _ => Some fp) rule
      (Some (lit "hosts")) example_proto
    = (concat (map (fun _ => rule_ref_effects label_ref tag_ref rule)
                 (rule_file_lines fp))
       ++ rule_ref_effects label_unref tag_unref rule,
       Ret (0, None) (set_rules (rules example_proto ++ added) example_proto)) /\
    length added = 2%nat.
Proof.
  intros rule fp.
  destruct (rule_add_file_rules (H := relayd_h_values) (fun _ => true)
              (fun _ => Some fp) rule (lit "hosts") fp
              (snd (rule_add_check (H := relayd_h_values) (fun _ => true)
                      (rule_dir rule) false 0 (rule_kv rule)))
              example_proto (fun _ => eq_refl) eq_refl
              ltac:(vm_compute; reflexivity))
    as (added & Hrun & Hlen & _).
  exists added. split; [exact Hrun|exact Hlen].
Defined.

(** ** canonicalize_host, applied to its own result *)

Lemma canon_step1_total host : forall (out : cstring) (len : nat),
  (length out + length host <= len - 1)%nat ->
  exists r,
    canon_step1 host (out ++ replicate (len - length out) NUL) (length out) len
    = Some r.
Proof.
  induction host as [|h rest IH]; intros out len Hfit; cbn [canon_step1].
  - eexists. reflexivity.
  - cbn [length] in Hfit.
    destruct (Nat.leb_spec (len - 1) (length out)) as [|_]; [lia|].
    cbv zeta.
    destruct (is_dot (tolower h) && _).
    + apply IH. lia.
    + replace (len - length out)%nat with (S (len - S (length out))) by lia.
      rewrite buf_write.
      replace (S (length out)) with (length (out ++ [tolower h]))
        by (rewrite length_app; simpl; lia).
      apply IH. rewrite length_app. simpl. lia.
Qed.

Lemma tolower_fixed (s : cstring) : no_upper_case s -> map tolower s = s.
Proof.
  induction 1 as [|c s Hc _ IH]; [reflexivity|]. cbn [map]. rewrite IH.
  f_equal. unfold tolower. rewrite Hc. reflexivity.
Qed.

Lemma collapse_fixed (s : cstring) : forall p,
  (p = true -> s !! 0%nat <> Some "."%char) ->
  (forall i : nat, s !! i = Some "."%char -> s !! S i <> Some "."%char) ->
  spec_collapse_dots p s = s.
Proof.
  induction s as [|c s IH]; intros p Hhead Hdots; [reflexivity|].
  cbn [spec_collapse_dots]. destruct (is_dot c) eqn:Hc.
  - apply is_dot_true in Hc. subst c.
    destruct p; [exfalso; apply (Hhead eq_refl); reflexivity|].
    f_equal. apply IH.
    + intros _. apply (Hdots 0%nat). reflexivity.
    + intros i Hi. apply (Hdots (S i)). exact Hi.
  - f_equal. apply IH; [discriminate|].
    intros i Hi. apply (Hdots (S i)). exact Hi.
Qed.

Lemma strip_fixed (s : cstring) :
  last s <> Some "."%char -> spec_strip_trailing_dots s = s.
Proof.
  destruct s as [|c s _] using rev_ind; [reflexivity|].
  rewrite last_snoc, strip_snoc. intros Hl.
  destruct (is_dot c) eqn:Hc; [|reflexivity].
  apply is_dot_true in Hc. congruence.
Qed.

Lemma canonical_form_fixed (host : cstring) :
  no_nul host ->
  spec_canonical_form (spec_canonical_form host) = spec_canonical_form host.
Proof.
  intros Hn.
  destruct (canonical_form_props host Hn) as (_ & Hup & _).
  destruct (canonical_form_no_empty_label host) as [Hhead Hdots].
  assert (Hlast : last (spec_canonical_form host) <> Some "."%char)
    by apply strip_last.
  unfold spec_canonical_form at 1.
  rewrite tolower_fixed by assumption.
  rewrite collapse_fixed by auto.
  apply strip_fixed, Hlast.
Qed.

Section CanonicalizeHostProperties.

Variable sockaddr : Type.
Variable inet_pton : address_family -> cstring -> option sockaddr.
Variable inet_ntop : address_family -> sockaddr -> nat -> option cstring.

(** What a name that [canonicalize_host] returns looks like. *)
Lemma canonicalize_host_name_inv (host : list ascii) (len : nat) (name : list ascii) :
  canonicalize_host sockaddr inet_pton inet_ntop host len = CanonName name ->
  let cf := spec_canonical_form (c_str host) in
  name = cf ++ replicate (len - length cf) NUL /\
  (0 < length cf < len)%nat /\ (2 <= len)%nat.
Proof.
  unfold canonicalize_host.
  destruct (len <? 2)%nat eqn:Hlen; [discriminate|]. apply Nat.ltb_ge in Hlen.
  destruct (inet_pton AF_INET (c_str host)); [discriminate|].
  destruct (inet_pton AF_INET6 (c_str host)); [discriminate|].
  destruct (canon_step1 (c_str host) (replicate len NUL) 0 len)
    as [[name1 j]|] eqn:H1; [|discriminate].
  pose proof (canon_step1_spec (c_str host) [] len name1 j) as Hs.
  simpl in Hs. rewrite Nat.sub_0_r in Hs.
  destruct (Hs ltac:(lia) H1) as (out & Hout & Hname & Hj & Hfit).
  clear Hs H1. subst name1 j.
  rewrite canon_step2_spec.
  change (ends_dot []) with true in Hout.
  assert (Hcf : spec_strip_trailing_dots out = spec_canonical_form (c_str host))
    by (rewrite Hout; reflexivity).
  rewrite Hcf.
  destruct (canonical_form_props (c_str host) (c_str_no_nul host))
    as (_ & _ & Hle).
  rewrite <- Hout in Hle.
  destruct (Nat.leb_spec (length (spec_canonical_form (c_str host))) 0);
    [discriminate|].
  intros [= <-]. cbv zeta. split; [|lia]. f_equal. f_equal. lia.
Qed.

Lemma canonicalize_host_of_canonical (cf : cstring) (len : nat) :
  no_nul cf -> spec_canonical_form cf = cf -> (0 < length cf < len)%nat ->
  inet_pton AF_INET cf = None -> inet_pton AF_INET6 cf = None ->
  canonicalize_host sockaddr inet_pton inet_ntop
    (cf ++ replicate (len - length cf) NUL) len
  = CanonName (cf ++ replicate (len - length cf) NUL).
Proof.
  intros Hnn Hfix Hlen H4 H6. unfold canonicalize_host.
  rewrite c_str_app_nul by assumption.
  destruct (Nat.ltb_spec len 2); [lia|]. rewrite H4, H6.
  destruct (canon_step1_total cf [] len ltac:(simpl; lia)) as ([name1 j] & H1).
  simpl in H1. rewrite Nat.sub_0_r in H1. rewrite H1.
  pose proof (canon_step1_spec cf [] len name1 j) as Hs.
  simpl in Hs. rewrite Nat.sub_0_r in Hs.
  destruct (Hs ltac:(lia) H1) as (out & Hout & Hname & Hj & Hfit).
  subst name1 j. rewrite canon_step2_spec.
  change (ends_dot []) with true in Hout.
  assert (Hcf : spec_strip_trailing_dots out = cf)
    by (rewrite Hout; exact Hfix).
  rewrite Hcf.
  destruct (canonical_form_props cf Hnn) as (_ & _ & Hle).
  rewrite Hfix, <- Hout in Hle.
  destruct (Nat.leb_spec (length cf) 0); [lia|].
  do 3 f_equal. lia.
Qed.

End CanonicalizeHostProperties.

(** X17: canonicalize_host is idempotent on host names: a name it
    returned, handed to it again with a buffer of the same size, comes
    back unchanged, unless [inet_pton] takes the name for an address. *)
Theorem canonicalize_host_idempotent
    (sockaddr : Type)
    (inet_pton : address_family -> cstring -> option sockaddr)
    (inet_ntop : address_family -> sockaddr -> nat -> option cstring)
    (host name : list ascii) (len : nat) :
  canonicalize_host sockaddr inet_pton inet_ntop host len = CanonName name ->
  inet_pton AF_INET (c_str name) = None ->
  inet_pton AF_INET6 (c_str name) = None ->
  canonicalize_host sockaddr inet_pton inet_ntop name len = CanonName name.
Proof.
  intros Hname H4 H6.
  destruct (canonicalize_host_name_inv sockaddr inet_pton inet_ntop host len name Hname)
    as (-> & Hlen & _).
  destruct (canonical_form_props (c_str host) (c_str_no_nul host)) as (Hnn & _ & _).
  rewrite c_str_app_nul in H4, H6 by assumption.
  apply canonicalize_host_of_canonical; try assumption.
  apply canonical_form_fixed, c_str_no_nul.
Qed.

Lemma canonicalize_host_idempotent_witness :
  canonicalize_host unit (fun _ _ => None) (fun _ _ _ => None)
    (lit "www.example.com" ++ replicate 17 NUL) 32
  = CanonName (lit "www.example.com" ++ replicate 17 NUL).
Proof.
  apply (canonicalize_host_idempotent unit (fun _ _ => None) (fun _ _ _ => None)
           (lit "..WwW..Example.COM..")).
  - vm_compute. reflexivity.
  - reflexivity.
  - reflexivity.
Defined.

(** ** The exact lookup of kv_find *)

Lemma key_equal_same_key (key : list ascii) (m : kv) :
  key_equal key m = true <-> same_key key m.
Proof.
  unfold key_equal, same_key. destruct (kv_key m) as [mkey|].
  - rewrite Z.eqb_eq. unfold strcasecmp.
    rewrite strcasecmp_from_zero by apply c_str_no_nul.
    split; [intros E; exists mkey; auto|intros (k & [= <-] & E); exact E].
  - split; [discriminate|intros (k & [=] & _)].
Qed.

Lemma find_ext_eq {A} (f g : A -> bool) (l : list A) :
  (forall x, f x = g x) -> find f l = find g l.
Proof.
  intros Hfg. induction l as [|x l IH]; [reflexivity|].
  cbn [find]. rewrite Hfg, IH. reflexivity.
Qed.

Lemma sorted_app {A} (R : A -> A -> Prop) (l1 l2 : list A) (x : A) :
  StronglySorted R l1 -> StronglySorted R l2 ->
  Forall (fun a => R a x) l1 -> Forall (R x) l2 ->
  (forall a b, In a l1 -> In b l2 -> R a b) ->
  StronglySorted R (l1 ++ x :: l2).
Proof.
  intros H1 H2 Hl Hr Hlr. induction H1 as [|a l1 H1 IH Ha]; cbn [app].
  - constructor; assumption.
  - inversion Hl as [|? ? Hax Hl']; subst. constructor.
    + apply IH; [assumption|]. intros a' b Ha' Hb. apply Hlr; [right|]; assumption.
    + apply Forall_app. split; [assumption|]. constructor; [assumption|].
      apply List.Forall_forall. intros b Hb. apply Hlr; [left; reflexivity|assumption].
Qed.

Lemma kv_before_trans (a b c : kv) : kv_before a b -> kv_before b c -> kv_before a c.
Proof.
  unfold kv_before, kv_cmp. intros (d1 & H1 & Hd1) (d2 & H2 & Hd2).
  destruct (kv_key a) as [ka|]; [|discriminate].
  destruct (kv_key b) as [kb|]; [|discriminate].
  destruct (kv_key c) as [kc|]; [|discriminate].
  injection H1 as <-. injection H2 as <-. eexists. split; [reflexivity|].
  unfold strcasecmp in *.
  exact (strcasecmp_from_trans _ _ _ (c_str_no_nul kc) Hd1 Hd2).
Qed.

Lemma kvtree_ordered_sorted (t : kvtree) :
  kvtree_ordered t = true -> StronglySorted kv_before (RB_FOREACH t).
Proof.
  induction t as [|c l IHl e r IHr]; intros Ht; [constructor|].
  apply kvtree_ordered_node in Ht as (Hl & Hr & _ & Hle & Her).
  cbn [RB_FOREACH]. apply sorted_app; auto.
  intros a b Ha Hb. rewrite List.Forall_forall in Hle, Her.
  exact (kv_before_trans a e b (Hle a Ha) (Her b Hb)).
Qed.

Lemma same_key_not_before (key : list ascii) (x m : kv) :
  same_key key x -> same_key key m -> ~ kv_before x m.
Proof.
  intros (xk & Hx & Ex) (mk & Hm & Em) (d & Hd & Hneg).
  unfold kv_cmp in Hd. rewrite Hx, Hm in Hd. injection Hd as <-.
  unfold strcasecmp in Hneg.
  assert (E : strcasecmp_from (c_str xk) (c_str mk) = 0).
  { apply strcasecmp_from_zero; [apply c_str_no_nul..|]. congruence. }
  lia.
Qed.

Lemma find_sorted_unique (key : list ascii) (l : list kv) (m : kv) :
  StronglySorted kv_before l -> In m l -> same_key key m ->
  find (key_equal key) l = Some m.
Proof.
  induction 1 as [|x l Hs IH Hx]; intros Hin Hm; [contradiction|].
  cbn [find]. destruct (key_equal key x) eqn:Ex.
  - destruct Hin as [->|Hin]; [reflexivity|]. exfalso.
    apply key_equal_same_key in Ex. rewrite List.Forall_forall in Hx.
    exact (same_key_not_before key x m Ex Hm (Hx m Hin)).
  - destruct Hin as [->|Hin]; [|apply IH; assumption].
    apply key_equal_same_key in Hm. congruence.
Qed.

(** X18: the exact lookup of kv_find, for a pattern without
    KV_FLAG_GLOBBING in a tree in the order of [kv_cmp].  The lookup does
    not fault; it returns the one record of the tree whose key is the key
    of the pattern up to the case of the letters, and NULL exactly when
    the tree holds no such record; patterns whose keys differ in case
    only find the same record. *)
Theorem kv_find_exact {H : relayd_h} (keys : kvtree) (pat : kv) (key : list ascii) :
  kvtree_ordered keys = true ->
  kv_key pat = Some key ->
  flag_test (kv_flags pat) KV_FLAG_GLOBBING = false ->
  exists r,
    kv_find keys pat = Some r /\
    (forall m, r = Some m <-> In m (RB_FOREACH keys) /\ same_key key m) /\
    (r = None <-> forall m, In m (RB_FOREACH keys) -> ~ same_key key m) /\
    (forall pat' key',
       kv_key pat' = Some key' ->
       flag_test (kv_flags pat') KV_FLAG_GLOBBING = false ->
       map tolower (c_str key') = map tolower (c_str key) ->
       kv_find keys pat' = Some r).
Proof.
  intros Hord Hkey Hflag.
  exists (find (key_equal key) (RB_FOREACH keys)).
  pose proof (kvtree_ordered_sorted keys Hord) as Hsorted.
  split; [|split; [|split]].
  - unfold kv_find. rewrite Hflag. apply RB_FIND_spec; assumption.
  - intros m. split.
    + intros Hf. apply find_some in Hf as [Hin Hm].
      split; [assumption|apply key_equal_same_key, Hm].
    + intros [Hin Hm]. apply find_sorted_unique; assumption.
  - split.
    + intros Hnone m Hin Hm.
      rewrite (find_sorted_unique key _ m Hsorted Hin Hm) in Hnone. discriminate.
    + intros Hno. destruct (find (key_equal key) (RB_FOREACH keys)) as [m|] eqn:Hf;
        [|reflexivity].
      apply find_some in Hf as [Hin Hm]. apply key_equal_same_key in Hm.
      destruct (Hno m Hin Hm).
  - intros pat' key' Hkey' Hflag' Hsame. unfold kv_find. rewrite Hflag'.
    rewrite (RB_FIND_spec keys pat' key' Hord Hkey'). f_equal.
    apply find_ext_eq. intros m. unfold key_equal.
    destruct (kv_key m) as [mkey|]; [|reflexivity]. unfold strcasecmp.
    rewrite (strcasecmp_from_zero_l (c_str key') (c_str key) (c_str mkey));
      [reflexivity|apply c_str_no_nul..|].
    apply strcasecmp_from_zero; [apply c_str_no_nul..|assumption].
Qed.

Lemma kv_find_exact_witness :
  let keys :=
    RB_NODE RB_BLACK
      (RB_NODE RB_RED RB_NIL (example_kv 2 "Accept" "*/*") RB_NIL)
      (example_kv 2 "Host" "www") RB_NIL in
  let pat := example_kv 2 "HOST" "" in
  exists r,
    kv_find (H := relayd_h_values) keys pat = Some r /\
    (forall m, r = Some m <-> In m (RB_FOREACH keys) /\ same_key (lit "HOST") m) /\
    (r = None <-> forall m, In m (RB_FOREACH keys) -> ~ same_key (lit "HOST") m) /\
    (forall pat' key',
       kv_key pat' = Some key' ->
       flag_test (kv_flags pat') 4 = false ->
       map tolower (c_str key') = map tolower (c_str (lit "HOST")) ->
       kv_find (H := relayd_h_values) keys pat' = Some r).
Proof.
  refine (kv_find_exact (H := relayd_h_values) _ _ (lit "HOST") _ _ _);
    vm_compute; reflexivity.
Defined.

(** ** parent_sig_handler, the other ways through it *)



(** ** event_again *)

(** X20: event_again arms the event again with what is left of the
    timeout: [end] less the time gone since [start], and zero when more
    than [end] has gone.  The timeout it hands on is a valid
    [struct timeval] and never negative. *)
Theorem event_again_remaining (fd event : Z) (now start end_ : timeval) :
  timeval_valid now -> timeval_valid start -> timeval_valid end_ ->
  exists tv,
    event_again fd event now start end_
    = [event_del; event_set fd event; event_add tv] /\
    usecs tv = Z.max 0 (usecs end_ - (usecs now - usecs start)) /\
    timeval_valid tv /\ 0 <= tv_sec tv.
Proof.
  unfold timeval_valid, event_again, timersub, timercmp_gt, usecs.
  intros Hn Hs He. cbv zeta. eexists. split; [reflexivity|].
  destruct (Z.ltb_spec (tv_usec now - tv_usec start) 0);
    cbn [tv_sec tv_usec];
    match goal with
    | |- context [if ?a - ?b <? 0 then _ else _] => destruct (Z.ltb_spec (a - b) 0)
    end;
    cbn [tv_sec tv_usec];
    match goal with
    | |- context [if ?a =? 0 then _ else _] => destruct (Z.eqb_spec a 0)
    end;
    match goal with
    | |- context [if 0 <? ?a then _ else _] => destruct (Z.ltb_spec 0 a)
    end;
    cbn [tv_sec tv_usec]; lia.
Qed.

Lemma event_again_remaining_witness :
  let now := {| tv_sec := 107; tv_usec := 200000 |} in
  let start := {| tv_sec := 100; tv_usec := 900000 |} in
  let end_ := {| tv_sec := 10; tv_usec := 0 |} in
  exists tv,
    event_again 5 2 now start end_ = [event_del; event_set 5 2; event_add tv] /\
    usecs tv = Z.max 0 (usecs end_ - (usecs now - usecs start)) /\
    timeval_valid tv /\ 0 <= tv_sec tv.
Proof.
  apply (event_again_remaining 5 2 {| tv_sec := 107; tv_usec := 200000 |}
           {| tv_sec := 100; tv_usec := 900000 |} {| tv_sec := 10; tv_usec := 0 |});
    unfold timeval_valid; simpl; lia.
Defined.

(** ** map6to4 and map4to6 *)

Lemma multicast_byte (a0 : Z) :
  0 <= a0 < 2 ^ 8 -> (Z.land a0 0xf0 =? 0xe0) = (224 <=? a0) && (a0 <=? 239).
Proof.
  intros Ha. apply Bool.eqb_prop.
  apply (check_below (fun a0 =>
           Bool.eqb (Z.land a0 0xf0 =? 0xe0) ((224 <=? a0) && (a0 <=? 239))) 256);
    [vm_compute; reflexivity|exact Ha].
Qed.

Section Map6to4Properties.

Variable BYTE_ORDER : byte_order.
Variable af : address_family -> Z.

Lemma ntohl_load_uint (a0 a1 a2 a3 : Z) :
  is_bytes [a0; a1; a2; a3] ->
  ntohl BYTE_ORDER (load_uint BYTE_ORDER [a0; a1; a2; a3]) = be_uint [a0; a1; a2; a3].
Proof.
  intros Hb. unfold ntohl, htonl, load_uint. destruct BYTE_ORDER.
  - assert (be32_bytes (le_uint [a0; a1; a2; a3]) = [a3; a2; a1; a0]) as ->.
    { inversion Hb as [|? ? H0 Hb1]; subst. inversion Hb1 as [|? ? H1 Hb2]; subst.
      inversion Hb2 as [|? ? H2 Hb3]; subst. inversion Hb3 as [|? ? H3 _]; subst.
      unfold be32_bytes. cbn [le_uint].
      change (2 ^ 8) with 256 in *. change (2 ^ 16) with 65536.
      change (2 ^ 24) with 16777216.
      repeat f_equal; Z.div_mod_to_equations; lia. }
    unfold be_uint. cbn [le_uint fold_left]. lia.
  - apply be_uint_be32_bytes.
    pose proof (be_uint_range [a0; a1; a2; a3] Hb) as Hr. exact Hr.
Qed.

(** The addresses the two functions refuse: 0.0.0.0, 255.255.255.255
    and the multicast addresses 224.0.0.0 to 239.255.255.255. *)
Lemma in_addr_refused_spec (a0 a1 a2 a3 : Z) :
  is_bytes [a0; a1; a2; a3] ->
  in_addr_refused BYTE_ORDER [a0; a1; a2; a3]
  = ((a0 =? 0) && (a1 =? 0) && (a2 =? 0) && (a3 =? 0))
    || ((a0 =? 255) && (a1 =? 255) && (a2 =? 255) && (a3 =? 255))
    || ((224 <=? a0) && (a0 <=? 239)).
Proof.
  intros Hb. unfold in_addr_refused. cbv zeta.
  rewrite (ntohl_load_uint a0 a1 a2 a3 Hb).
  inversion Hb as [|? ? H0 Hb1]; subst. inversion Hb1 as [|? ? H1 Hb2]; subst.
  inversion Hb2 as [|? ? H2 Hb3]; subst. inversion Hb3 as [|? ? H3 _]; subst.
  assert (Hm : IN_MULTICAST (be_uint [a0; a1; a2; a3]) = (224 <=? a0) && (a0 <=? 239)).
  { unfold IN_MULTICAST. rewrite <- (multicast_byte a0 H0).
    unfold be_uint. cbn [fold_left].
    replace ((((0 * 2 ^ 8 + a0) * 2 ^ 8 + a1) * 2 ^ 8 + a2) * 2 ^ 8 + a3)
      with (a3 + 2 ^ 8 * (a2 + 2 ^ 8 * (a1 + 2 ^ 8 * (a0 + 2 ^ 8 * 0)))) by lia.
    replace 0xf0000000
      with (0 + 2 ^ 8 * (0 + 2 ^ 8 * (0 + 2 ^ 8 * (0xf0 + 2 ^ 8 * 0)))) by reflexivity.
    rewrite !land_bytes by lia. rewrite !Z.land_0_r.
    pose proof (land_byte a0 0xf0 H0) as Hl.
    change (2 ^ 8) with 256 in *.
    destruct (Z.eqb_spec (Z.land a0 240) 224) as [E|E].
    - rewrite E. reflexivity.
    - apply Z.eqb_neq. lia. }
  rewrite Hm. f_equal.
  change (2 ^ 8) with 256 in *.
  unfold load_uint, INADDR_ANY, INADDR_BROADCAST, be_uint.
  destruct BYTE_ORDER; cbn [le_uint fold_left]; change (2 ^ 8) with 256;
    destruct (Z.eqb_spec a0 0), (Z.eqb_spec a1 0), (Z.eqb_spec a2 0),
             (Z.eqb_spec a3 0), (Z.eqb_spec a0 255), (Z.eqb_spec a1 255),
             (Z.eqb_spec a2 255), (Z.eqb_spec a3 255);
    cbn [andb orb];
    repeat match goal with
           | |- context [?x =? ?y] => destruct (Z.eqb_spec x y)
           end; cbn [andb orb]; try reflexivity; lia.
Qed.

End Map6to4Properties.

Lemma memcpy_at_whole (dst src : list Z) :
  length src = length dst -> memcpy_at dst 0 src = src.
Proof.
  intros Hl. unfold memcpy_at. rewrite take_0. cbn [app Nat.add].
  rewrite Hl, drop_all. apply app_nil_r.
Qed.

(** X21: [map6to4] looks at the last four bytes of the IPv6 address only.
    It returns -1 and leaves the storage as it was when they are 0.0.0.0,
    255.255.255.255 or a multicast address 224.0.0.0 to 239.255.255.255,
    whatever the byte order.  Otherwise it returns 0 and overwrites the
    whole storage: sixteen bytes of a [sockaddr_in] with the port and
    these four bytes, followed by the 112 bytes its local variable had
    on the stack, which it never initialises. *)
Theorem map6to4_result (BYTE_ORDER : byte_order) (af : address_family -> Z)
    (out4 in6 : list Z) (a0 a1 a2 a3 : Z) :
  length out4 = sizeof_sockaddr_storage ->
  length in6 = sizeof_sockaddr_storage ->
  take 4 (drop 20 in6) = [a0; a1; a2; a3] ->
  is_bytes [a0; a1; a2; a3] ->
  map6to4 BYTE_ORDER af out4 in6
  = if ((a0 =? 0) && (a1 =? 0) && (a2 =? 0) && (a3 =? 0))
       || ((a0 =? 255) && (a1 =? 255) && (a2 =? 255) && (a3 =? 255))
       || ((224 <=? a0) && (a0 <=? 239))
    then (-1, in6)
    else (0, [16; u_int8_t (af AF_INET)] ++ take 2 (drop 2 in6)
             ++ [a0; a1; a2; a3] ++ replicate 8 0 ++ drop 16 out4).
Proof.
  intros Ho Hi Ha Hb.
  rewrite <- (in_addr_refused_spec BYTE_ORDER a0 a1 a2 a3 Hb).
  unfold sizeof_sockaddr_storage in *.
  do 16 (destruct out4 as [|? out4]; [discriminate Ho|]).
  do 24 (destruct in6 as [|? in6]; [discriminate Hi|]).
  cbn [take drop firstn skipn] in Ha. injection Ha as -> -> -> ->.
  unfold map6to4, memcpy_at, sizeof_sockaddr_in, sizeof_sockaddr_storage.
  repeat (cbn [take drop firstn skipn replicate length Nat.add app
               list_insert insert]; rewrite ?take_0, ?drop_0).
  change (u_int8_t (Z.of_nat 16)) with 16.
  destruct (in_addr_refused BYTE_ORDER [a0; a1; a2; a3]); [reflexivity|].
  f_equal. cbn [length] in Ho.
  rewrite (firstn_all2 (n := 112) out4) by lia.
  cbn [length]. rewrite skipn_all2 by (cbn [length] in Hi |- *; lia).
  rewrite app_nil_r. reflexivity.
Qed.

Lemma map6to4_result_witness :
  map6to4 LITTLE_ENDIAN (fun a => match a with AF_INET => 2 | AF_INET6 => 24 end)
    (replicate 128 170)
    ([28; 24; 0; 80; 0; 0; 0; 0] ++ replicate 10 0 ++ [255; 255]
       ++ [192; 0; 2; 1] ++ replicate 104 0)
  = (0, [16; 2; 0; 80; 192; 0; 2; 1] ++ replicate 8 0 ++ replicate 112 170).
Proof.
  refine (map6to4_result LITTLE_ENDIAN _ _ _ 192 0 2 1 _ _ _ _);
    try reflexivity.
  repeat constructor; lia.
Defined.

(** X22: an IPv4 address that [map4to6] accepts comes back from [map6to4]:
    [map4to6] returns 0 and stores a [sockaddr_in6], and [map6to4] applied
    to it returns 0 and stores the port and the address of the input
    again, with the length 16, the family AF_INET and [sin_zero] cleared.
    The 112 bytes after the [sockaddr_in] are those of the stack of
    [map6to4], not those of the input. *)
Theorem map4to6_map6to4_round_trip (BYTE_ORDER : byte_order)
    (af : address_family -> Z) (out6 out4 in4 map : list Z) :
  length out6 = sizeof_sockaddr_storage ->
  length out4 = sizeof_sockaddr_storage ->
  length in4 = sizeof_sockaddr_storage ->
  length map = sizeof_sockaddr_storage ->
  in_addr_refused BYTE_ORDER (take 4 (drop 4 in4)) = false ->
  exists s6,
    map4to6 BYTE_ORDER af out6 in4 map = (0, s6) /\
    length s6 = sizeof_sockaddr_storage /\
    take 2 s6 = [28; u_int8_t (af AF_INET6)] /\
    map6to4 BYTE_ORDER af out4 s6
    = (0, [16; u_int8_t (af AF_INET)] ++ take 6 (drop 2 in4)
          ++ replicate 8 0 ++ drop 16 out4).
Proof.
  intros Ho6 Ho4 Hi Hm Hr.
  unfold sizeof_sockaddr_storage in *.
  do 28 (destruct out6 as [|? out6]; [discriminate Ho6|]).
  do 16 (destruct out4 as [|? out4]; [discriminate Ho4|]).
  do 8 (destruct in4 as [|? in4]; [discriminate Hi|]).
  do 28 (destruct map as [|? map]; [discriminate Hm|]).
  cbn [take drop firstn skipn] in Hr. rewrite take_0 in Hr.
  unfold map4to6, memcpy_at, sizeof_sockaddr_in6, sizeof_sockaddr_storage.
  repeat (cbn [take drop firstn skipn replicate length Nat.add app
               list_insert insert]; rewrite ?take_0, ?drop_0).
  rewrite Hr.
  change (u_int8_t (Z.of_nat 28)) with 28.
  cbn [length] in Ho6, Ho4, Hi.
  rewrite (firstn_all2 (n := 100) out6) by lia.
  cbn [length]. rewrite skipn_all2 by (cbn [length]; lia). rewrite app_nil_r.
  eexists. split; [reflexivity|]. split; [cbn [length]; lia|].
  split; [reflexivity|].
  unfold map6to4, memcpy_at, sizeof_sockaddr_in, sizeof_sockaddr_storage.
  repeat (cbn [take drop firstn skipn replicate length Nat.add app
               list_insert insert]; rewrite ?take_0, ?drop_0).
  rewrite Hr.
  change (u_int8_t (Z.of_nat 16)) with 16.
  f_equal.
  rewrite (firstn_all2 (n := 112) out4) by lia.
  cbn [length]. rewrite skipn_all2 by (cbn [length]; lia).
  rewrite app_nil_r. reflexivity.
Qed.

Lemma map4to6_map6to4_round_trip_witness :
  exists s6,
    map4to6 BIG_ENDIAN (fun a => match a with AF_INET => 2 | AF_INET6 => 24 end)
      (replicate 128 85)
      ([16; 2; 31; 144; 10; 0; 0; 7] ++ replicate 120 0)
      ([28; 24] ++ replicate 16 0 ++ [255; 255] ++ replicate 108 0) = (0, s6) /\
    length s6 = 128%nat /\
    take 2 s6 = [28; 24] /\
    map6to4 BIG_ENDIAN (fun a => match a with AF_INET => 2 | AF_INET6 => 24 end)
      (replicate 128 170) s6
    = (0, [16; 2; 31; 144; 10; 0; 0; 7] ++ replicate 8 0 ++ replicate 112 170).
Proof.
  refine (map4to6_map6to4_round_trip BIG_ENDIAN _ (replicate 128 85)
            (replicate 128 170)
            ([16; 2; 31; 144; 10; 0; 0; 7] ++ replicate 120 0)
            ([28; 24] ++ replicate 16 0 ++ [255; 255] ++ replicate 108 0)
            _ _ _ _ _); reflexivity.
Defined.

(** ** rule_settable *)

Lemma strcspn_from_le (s reject : cstring) :
  (strcspn_from s reject <= length s)%nat.
Proof.
  induction s as [|c s IH]; simpl; [lia|].
  destruct (existsb (Ascii.eqb c) reject); simpl; lia.
Qed.

Lemma before_first_char (c : ascii) (s : cstring) :
  before_first [c] s = take (strcspn_from s [c]) s.
Proof.
  unfold before_first. induction s as [|d s IH]; [reflexivity|].
  cbn [strstr is_prefix strcspn_from existsb orb].
  rewrite (Ascii.eqb_sym c d), andb_true_r, orb_false_r.
  destruct (Ascii.eqb d c); [reflexivity|].
  destruct (strstr s [c]) as [i|]; cbn [take firstn]; rewrite <- IH; reflexivity.
Qed.

Lemma c_str_cut (s rest : list ascii) (n : nat) :
  no_nul s -> (n <= length s)%nat ->
  c_str (<[n := NUL]> (s ++ NUL :: rest)) = take n s.
Proof.
  intros Hs. revert n. induction Hs as [|c s Hc _ IH]; intros n Hn.
  - simpl in Hn. assert (n = 0%nat) as -> by lia. reflexivity.
  - destruct n as [|n]; [reflexivity|].
    cbn [app list_insert insert c_str take firstn].
    change (list_insert n NUL (s ++ NUL :: rest))
      with (<[n := NUL]> (s ++ NUL :: rest)).
    rewrite Hc, IH by (simpl in Hn; lia). reflexivity.
Qed.

Lemma c_str_nil_head (buf : list ascii) :
  is_nul (nth 0 buf NUL) = false <-> c_str buf <> [].
Proof.
  destruct buf as [|c buf]; simpl.
  - split; [discriminate|intros H; exfalso; apply H; reflexivity].
  - destruct (is_nul c); split; try discriminate; try reflexivity.
    intros H; exfalso; apply H; reflexivity.
Qed.

(** X23: [rule_settable] settles the table of every rule of the list, not
    only of the rules that name the table.  With a table name shorter
    than TABLE_NAME_SIZE, a rule whose table name is not empty and equals
    the name up to its first ':' gets the pointer given, and every other
    rule gets NULL, whatever table it had before.  With a name of
    TABLE_NAME_SIZE characters or more the rules stay as they are. *)
Theorem rule_settable_rebinds (TABLE_NAME_SIZE : nat) (pname name : list ascii)
    (rules : list relay_rule_table) (rlt : pointer) :
  length pname = TABLE_NAME_SIZE ->
  (0 < TABLE_NAME_SIZE)%nat ->
  let rules' := rule_settable TABLE_NAME_SIZE pname rules rlt (Some name) in
  ((TABLE_NAME_SIZE <= length (c_str name))%nat -> rules' = rules) /\
  ((length (c_str name) < TABLE_NAME_SIZE)%nat ->
   Forall2 (fun r r' =>
              rule_tablename r' = rule_tablename r /\
              (c_str (rule_tablename r) <> [] /\
               c_str (rule_tablename r) = before_first [":"%char] (c_str name) ->
               rule_table r' = rlt) /\
              (~ (c_str (rule_tablename r) <> [] /\
                  c_str (rule_tablename r)
                  = before_first [":"%char] (c_str name)) ->
               rule_table r' = NULL))
           rules rules').
Proof.
  intros Hp Hpos rules'. subst rules'. unfold rule_settable, strlcpy.
  destruct (Nat.eqb_spec TABLE_NAME_SIZE 0) as [?|_]; [lia|].
  set (src := c_str name).
  destruct (Nat.leb_spec TABLE_NAME_SIZE (length src)) as [Hlong|Hfit].
  - split; [|lia]. intros _.
    destruct (length pname <? _)%nat; reflexivity.
  - split; [lia|]. intros _.
    rewrite (Nat.min_l (length src)) by lia.
    destruct (Nat.ltb_spec (length pname) (length src + 1)) as [?|_]; [lia|].
    rewrite firstn_all. cbv zeta.
    assert (Hs : no_nul src) by apply c_str_no_nul.
    unfold strcspn. rewrite (c_str_app_NUL src _ Hs).
    induction rules as [|r rules IH]; [constructor|].
    cbn [map]. constructor; [|exact IH].
    cbn [rule_tablename rule_table]. split; [reflexivity|].
    assert (Hcmp : (strcmp (<[strcspn_from src [":"%char] := NUL]>
                              (src ++ NUL :: drop (length src + 1) pname))
                           (rule_tablename r) =? 0) = true
                   <-> c_str (rule_tablename r)
                       = before_first [":"%char] src).
    { rewrite Z.eqb_eq, strcmp_zero, c_str_cut, before_first_char
        by (try exact Hs; apply strcspn_from_le).
      split; intros E; symmetry; exact E. }
    split.
    + intros (Hne & He). apply c_str_nil_head in Hne. rewrite Hne.
      apply Hcmp in He. rewrite He. reflexivity.
    + intros Hno.
      destruct (is_nul (nth 0 (rule_tablename r) NUL)) eqn:E0;
        [reflexivity|].
      destruct (strcmp _ _ =? 0) eqn:E1; [|reflexivity].
      exfalso. apply Hno. split; [apply c_str_nil_head; exact E0|].
      apply Hcmp. reflexivity.
Qed.

Lemma rule_settable_rebinds_witness :
  let rules :=
    [ {| rule_tablename := lit "web" ++ replicate 5 NUL; rule_table := 7 |};
      {| rule_tablename := lit "db" ++ replicate 6 NUL; rule_table := 9 |};
      {| rule_tablename := replicate 8 NUL; rule_table := 9 |} ] in
  Forall2 (fun r r' =>
             rule_tablename r' = rule_tablename r /\
             (c_str (rule_tablename r) <> [] /\
              c_str (rule_tablename r) = lit "web" -> rule_table r' = 5) /\
             (~ (c_str (rule_tablename r) <> [] /\
                 c_str (rule_tablename r) = lit "web") -> rule_table r' = NULL))
          rules
          (rule_settable 8 (replicate 8 "x"%char) rules 5
             (Some (lit "web:80" ++ replicate 2 NUL))) /\
  rule_settable 8 (replicate 8 "x"%char) rules 5 (Some (lit "database"))
  = rules.
Proof.
  split.
  - refine (proj2 (rule_settable_rebinds 8 (replicate 8 "x"%char)
                     (lit "web:80" ++ replicate 2 NUL) _ 5 eq_refl _) _);
      vm_compute; lia.
  - refine (proj1 (rule_settable_rebinds 8 (replicate 8 "x"%char)
                     (lit "database") _ 5 eq_refl _) _);
      vm_compute; lia.
Defined.
